(** * CCE core: hyperdimensional codebook, particle field, nucleation and
      crystallization

    A shallow embedding of [cce/codebook.py], [cce/particle.py],
    [cce/nucleation.py] and [cce/crystallization.py].

    Conventions of the embedding.
    - NumPy arrays of floats are lists of real numbers ([ndarray]); float32 and
      float64 arithmetic is idealised as exact real arithmetic, so rounding,
      [nan] and [inf] are outside the model (the one [-inf] the source writes
      down, in [compute_density], is modelled by [ext]).  Where rounding
      decides what the code does, the statements do not lean on the exact
      value: the subtraction that cools the temperature in [crystallize] is
      a parameter ([float_sub]); the statement on the peaks of
      [compute_density] is made for any similarity matrix; and a statement
      on a similarity that the code computes names that similarity, not the
      number that exact arithmetic gives for it.
    - Element-wise operations and [np.dot] are written with [zip_with]; NumPy
      raises on operands of different shapes, the theorems below carry the
      equal-length hypotheses under which both agree.  [np.stack], whose
      failure on ragged or empty input is reachable, returns a [result].
    - An array handed out by the codebook is a reference ([loc]) into a heap
      of arrays, so that aliasing between the cache and its callers is
      visible.  A [Particle] is identified by its index in the field that owns
      it; peaks and nuclei hold such indices.
    - Pseudo-random generators are streams indexed by a seed and a cursor;
      the hash functions and the streams are parameters of the development.
    - A loop that bounds itself (the greedy peak extraction, the merges) is
      defined by well-founded recursion on its measure.  The absorption loop
      of [crystallize], which only the cooling rate bounds, takes fuel and
      returns [None] when the fuel does not suffice. *)

From Stdlib Require Import Reals Lra Lia ZArith Ascii Sorted.
From Equations Require Import Equations.
From stdpp Require Import gmap strings list pretty sorting.

#[global] Instance R_eq_dec : EqDecision R := Req_dec_T.
#[global] Instance Rlt_decision (x y : R) : Decision (x < y)%R := Rlt_dec x y.
#[global] Instance Rle_decision (x y : R) : Decision (x <= y)%R := Rle_dec x y.
#[global] Instance R_inhabited : Inhabited R := populate 0%R.

Local Open Scope R_scope.

(** ** Exceptions *)

Inductive exn : Set := ValueError.

Inductive result (A : Type) : Type :=
| Ok (a : A)
| Raise (e : exn).
Arguments Ok {A} a.
Arguments Raise {A} e.

#[global] Instance result_ret : MRet result := λ A, Ok.
#[global] Instance result_bind : MBind result :=
  λ A B f m, match m with Ok a => f a | Raise e => Raise e end.

(** ** The NumPy fragment used by the core *)

Abbreviation ndarray := (list R).
Abbreviation loc := nat (only parsing).
Abbreviation heap := (list (list R)) (only parsing).

(** The sum of the entries. *)
Definition Rsum (l : ndarray) : R := foldr Rplus 0 l.

(** [np.dot(a, b)] on one-dimensional arrays. *)
Definition dot (a b : ndarray) : R := Rsum (zip_with Rmult a b).

(** [np.linalg.norm(a)]. *)
Definition norm (a : ndarray) : R := sqrt (dot a a).

(** [np.sign]. *)
Definition np_sign (x : R) : R :=
  if decide (0 < x) then 1 else if decide (x < 0) then -1 else 0.

(** [a + b], [c * a] and [a / c] for arrays [a], [b] and a scalar [c]. *)
Definition vadd (a b : ndarray) : ndarray := zip_with Rplus a b.
Definition vscale (c : R) (a : ndarray) : ndarray := Rmult c <$> a.
Definition vdiv (a : ndarray) (c : R) : ndarray := (λ x, x / c) <$> a.

(** [np.mean(a)]. *)
Definition np_mean (a : ndarray) : R := Rsum a / INR (length a).

(** [np.stack(vecs)]: at least one array, all of one shape. *)
Definition np_stack (vecs : list ndarray) : result (list ndarray) :=
  match vecs with
  | [] => Raise ValueError
  | v :: vs =>
      if decide (Forall (λ u : ndarray, length u = length v) vs)
      then Ok vecs else Raise ValueError
  end.

(** [np.sum(m, axis=0)] of a stacked matrix. *)
Definition np_sum_axis0 (m : list ndarray) : ndarray :=
  match m with
  | [] => []
  | v :: _ => (λ j, Rsum ((λ u : ndarray, u !!! j) <$> m)) <$> seq 0 (length v)
  end.

(** [s[mask] = r]: the masked entries of [s] take the entries of [r] in
    order. *)
Fixpoint assign_masked (s : ndarray) (mask : list bool) (r : ndarray) : ndarray :=
  match s, mask with
  | x :: s', true :: mask' =>
      match r with
      | y :: r' => y :: assign_masked s' mask' r'
      | [] => x :: assign_masked s' mask' []
      end
  | x :: s', false :: mask' => x :: assign_masked s' mask' r
  | _, _ => s
  end.

(** An entry of a bipolar vector. *)
Definition bipolar (x : R) : Prop := x = 1 ∨ x = -1.

(** A hyperdimensional vector of dimension [D]. *)
Definition hdv (D : nat) (v : ndarray) : Prop := length v = D ∧ Forall bipolar v.

Lemma filter_ext_elem {A} (P Q : A → Prop) `{!∀ x, Decision (P x)}
    `{!∀ x, Decision (Q x)} (l : list A) :
  (∀ x, x ∈ l → P x ↔ Q x) → filter P l = filter Q l.
Proof.
  induction l as [|x l IH]; intros HPQ; [done|].
  rewrite !filter_cons. rewrite IH by (intros y Hy; apply HPQ; by right).
  pose proof (HPQ x ltac:(left)) as Hx.
  repeat case_decide; tauto.
Qed.

(** ** Pseudo-random generators *)

(** [np.random.RandomState]: the seed it was built from and the number of
    draws made so far. *)
Record RandomState : Set := { rs_seed : Z; rs_pos : nat }.

Definition RandomState_seeded (s : Z) : RandomState :=
  {| rs_seed := s; rs_pos := 0 |}.

(** ** Particles, peaks, nuclei and crystals *)

Inductive ParticleCategory : Set := INTENT | EMOTION | CONTEXT | PERSONA.

#[global] Instance ParticleCategory_eq_dec : EqDecision ParticleCategory.
Proof. solve_decision. Defined.

Record Particle : Type := {
  position : ndarray;
  charge : R;
  temperature : R;
  label : string;
  category : ParticleCategory;
  mass : R;
  frozen : bool
}.

#[global] Instance Particle_inhabited : Inhabited Particle :=
  populate {| position := []; charge := 1; temperature := 0.5; label := "";
              category := INTENT; mass := 1; frozen := false |}.

(** The field is its list [_particles]; a particle is referred to by its
    index. *)
Abbreviation ParticleField := (list Particle).

(** The codebook: its configuration and its cache, from symbols to the
    arrays of the heap. *)
Record Codebook : Type := {
  dim : Z;
  seed : Z;
  _memory : gmap string loc
}.

(** ** Concrete inputs *)

(** Inputs at which the theorems below are instantiated. *)
Module Sample.

(** Stand-ins for the hash functions and the generator streams. *)
Definition sha (s : string) : Z := Z.of_nat (String.length s).
Definition pyhash (s : string) : Z := Z.of_nat (String.length s) + 7.
Definition draws (seed : Z) (k : nat) : bool := Nat.even k.
Definition uniform (seed : Z) (k : nat) : R := 0.5.

(** Stand-ins for the string methods, for inputs of at most one word in
    lower case without blanks around it. *)
Definition strip (s : string) : string := s.
Definition split (s : string) : list string :=
  if decide (s = "") then [] else [s].
Definition lower (s : string) : string := s.

(** A codebook of dimension 2 that has encoded ["Mut"], and its heap. *)
Definition cb : Codebook :=
  {| dim := 2; seed := 42; _memory := {["Mut" := 0%nat]} |}.
Definition h : list ndarray := [[1; -1]].

Definition particle (pos : ndarray) (lbl : string) (fr : bool) : Particle :=
  {| position := pos; charge := 1; temperature := 0.5; label := lbl;
     category := INTENT; mass := 1; frozen := fr |}.

(** Three particles of dimension 2, the last one frozen already. *)
Definition field : ParticleField :=
  [particle [1; 1] "Mut#0" false;
   particle [1; -1] "Angst#0" false;
   particle [-1; -1] "Kraft#0" true].

(** 2^-30, a norm below the floor 1e-8 that [compute_density] puts under
    the norms: a particle at such a position has a similarity with itself
    below 0.01. *)
Definition faint : R := / 1073741824.

(** One free particle at a faint position; and a free particle at [1] with
    a faint one opposite to it. *)
Definition faint_field : ParticleField := [particle [faint] "Mut#0" false].

Definition mixed_field : ParticleField :=
  [particle [1] "Mut#0" false; particle [- faint] "Angst#0" false].

(** A codebook of dimension 2 with two symbols of different vectors. *)
(** Two free particles whose positions differ in length. *)
Definition ragged_field : ParticleField :=
  [particle [1] "Mut#0" false; particle [1; 1] "Angst#0" false].

Definition cb2 : Codebook :=
  {| dim := 2; seed := 42;
     _memory := <["Kraft" := 1%nat]> {["Mut" := 0%nat]} |}.
Definition h2 : list ndarray := [[1; -1]; [1; 1]].

End Sample.

Section Core.

(** [int.from_bytes(hashlib.sha256(s.encode("utf-8")).digest()[:8], "little")] *)
Variable sha256_le64 : string → Z.
(** Python's built-in [hash] on strings. *)
Variable py_hash : string → Z.
(** The [k]-th index drawn from [{0, 1}] by a generator seeded with [s]:
    [true] is index 1. *)
Variable mt_index : Z → nat → bool.
(** The [k]-th uniform float of [[0, 1)] drawn by a generator seeded with
    [s]. *)
Variable mt_uniform : Z → nat → R.

(** [rng.choice([-1, 1], size=size)]. *)
Definition choice (size : Z) (rng : RandomState) : result (ndarray * RandomState) :=
  if decide (size < 0)%Z then Raise ValueError
  else
    let n := Z.to_nat size in
    Ok ((λ k, if mt_index (rs_seed rng) (rs_pos rng + k) then 1 else -1)
          <$> seq 0 n,
        {| rs_seed := rs_seed rng; rs_pos := rs_pos rng + n |}).

(** [rng.random()]. *)
Definition random (rng : RandomState) : R * RandomState :=
  (mt_uniform (rs_seed rng) (rs_pos rng),
   {| rs_seed := rs_seed rng; rs_pos := S (rs_pos rng) |}).

(** ** Codebook *)

(** [Codebook.__init__] *)
Definition Codebook_init (dim seed : Z) : result Codebook :=
  Ok {| dim := dim; seed := seed; _memory := ∅ |}.

(** [Codebook.encode]: the array returned is the cached one. *)
Definition encode (self : Codebook) (symbol : string) (h : heap)
  : result (loc * Codebook * heap) :=
  match _memory self !! symbol with
  | Some l => Ok (l, self, h)
  | None =>
      let sym_seed := Z.lxor (sha256_le64 symbol) (seed self) in
      let rng := RandomState_seeded (Z.land sym_seed 0xFFFFFFFF) in
      '(v, _) ← choice (dim self) rng;
      let l := length h in
      Ok (l,
          {| dim := dim self; seed := seed self;
             _memory := <[symbol := l]> (_memory self) |},
          h ++ [v])
  end.

(** [Codebook.bind] *)
Definition bind (a b : ndarray) : ndarray := zip_with Rmult a b.

(** [Codebook.bundle]; [g] is the state of the global [np.random]
    generator. *)
Definition bundle (vecs : list ndarray) (g : RandomState)
  : result (ndarray * RandomState) :=
  m ← np_stack vecs;
  let s := np_sum_axis0 m in
  let zeros := (λ x, bool_decide (x = 0)) <$> s in
  if existsb (λ z : bool, z) zeros then
    '(r, g') ← choice (Z.of_nat (length (filter (λ b, b = true) zeros))) g;
    Ok (np_sign <$> assign_masked s zeros r, g')
  else Ok (np_sign <$> s, g).

(** [Codebook.similarity].  On arrays of different lengths [np.dot] raises;
    the source calls it on arrays of one dimension. *)
Definition similarity (a b : ndarray) : R :=
  let na := norm a in
  let nb := norm b in
  if decide (na = 0 ∨ nb = 0) then 0 else dot a b / (na * nb).

(** The body of the loop of [Codebook.decompose], run [k] times. *)
Fixpoint decompose_loop (d : Z) (base : ndarray) (k : nat) (rng : RandomState)
  : result (list ndarray) :=
  match k with
  | O => Ok []
  | S k' =>
      '(noise, rng') ← choice d rng;
      let mixed := vadd (vscale 0.7 base) (vscale 0.3 noise) in
      particles ← decompose_loop d base k' rng';
      Ok ((np_sign <$> mixed) :: particles)
  end.

(** [Codebook.decompose] *)
Definition decompose (self : Codebook) (symbol : string) (n : Z) (h : heap)
  : result (list ndarray * Codebook * heap) :=
  '(l, self', h') ← encode self symbol h;
  let base := h' !!! l in
  let rng := RandomState_seeded (Z.land (py_hash symbol) 0xFFFFFFFF) in
  particles ← decompose_loop (dim self') base (Z.to_nat n) rng;
  Ok (particles, self', h').

(** ** ParticleField *)

(** [p.frozen = True] on the particle [p] of the field. *)
Definition freeze (f : ParticleField) (p : nat) : ParticleField :=
  alter (λ q, {| position := position q; charge := charge q;
                 temperature := temperature q; label := label q;
                 category := category q; mass := mass q; frozen := true |})
        p f.

(** [ParticleField.free_particles] and [frozen_particles]. *)
Definition free_particles (f : ParticleField) : list nat :=
  filter (λ p, frozen (f !!! p) = false) (seq 0 (length f)).

Definition frozen_particles (f : ParticleField) : list nat :=
  filter (λ p, frozen (f !!! p) = true) (seq 0 (length f)).

(** [peak_position] is the source's [position]; [contributing_particles]
    holds references into the field. *)
Record DensityPeak : Type := {
  peak_position : ndarray;
  density : R;
  contributing_particles : list nat
}.

(** Floats extended with the [-np.inf] of [compute_density]. *)
Inductive ext : Type := NegInf | Fin (x : R).

#[global] Instance ext_inhabited : Inhabited ext := populate NegInf.

Definition ext_lt (a b : ext) : bool :=
  match a, b with
  | NegInf, Fin _ => true
  | Fin x, Fin y => bool_decide (x < y)
  | _, NegInf => false
  end.

(** [a <= 0] *)
Definition ext_le0 (a : ext) : bool :=
  match a with NegInf => true | Fin x => bool_decide (x <= 0) end.

(** [np.argmax]: the first index of a maximal entry. *)
Fixpoint argmax_from (best_i : nat) (best : ext) (i : nat) (l : list ext) : nat :=
  match l with
  | [] => best_i
  | x :: l' =>
      if ext_lt best x then argmax_from i x (S i) l'
      else argmax_from best_i best (S i) l'
  end.

Definition np_argmax (l : list ext) : nat :=
  match l with
  | [] => 0%nat
  | x :: l' => argmax_from 0 x 1 l'
  end.

(** The similarity matrix of [compute_density]: rows normalised once, then
    one matrix product. *)
Definition sim_matrix (positions : list ndarray) : list (list R) :=
  let norms := (λ p, Rmax (norm p) 1e-8) <$> positions in
  let normalized := zip_with vdiv positions norms in
  (λ u, (λ v, dot u v) <$> normalized) <$> normalized.

(** [densities[i] = np.dot(np.maximum(sim_matrix[i], 0.0), charges)] *)
Definition densities_of (sim : list (list R)) (charges : ndarray) : ndarray :=
  (λ row, dot ((λ x, Rmax x 0) <$> row) charges) <$> sim.

(** A value together with the equation that names it, for loops defined by
    well-founded recursion on the outcome of their body. *)
Definition inspect {A : Type} (x : A) : {y : A | x = y} := exist _ x eq_refl.

(** How an iteration of a [while True] loop ends. *)
Inductive flow (S : Type) : Type :=
| Break (s : S)
| Continue (s : S).
Arguments Break {S} s.
Arguments Continue {S} s.

(** The number of particles not yet marked used: the measure of the greedy
    extraction. *)
Definition unused (used : list bool) : nat :=
  length (filter (λ b, b = false) used).

Section Peaks.

Variable f : ParticleField.
Variable free : list nat.
Variable sim : list (list R).
Variable densities : ndarray.
Variable min_distance : R.

Let n : nat := length free.

(** The inner [for j in range(n)] of the greedy extraction. *)
Definition collect_body (idx : nat) (acc : list nat * list bool) (j : nat)
  : list nat * list bool :=
  let '(contributors, used) := acc in
  if negb (used !!! j) && bool_decide (min_distance <= (sim !!! idx) !!! j)
  then (contributors ++ [free !!! j], <[j := true]> used)
  else (contributors, used).

Definition collect (idx : nat) (used : list bool) : list nat * list bool :=
  foldl (collect_body idx) ([], used) (seq 0 n).

Definition masked_of (used : list bool) : list ext :=
  zip_with (λ (u : bool) d, if u then NegInf else Fin d) used densities.

(** One iteration of the greedy peak extraction. *)
Definition peak_step (st : list DensityPeak * list bool)
  : flow (list DensityPeak * list bool) :=
  let '(peaks, used) := st in
  let masked := masked_of used in
  let idx := np_argmax masked in
  if ext_le0 (masked !!! idx) then Break (peaks, used)
  else
    let '(contributors, used') := collect idx used in
    match contributors with
    | [] => Continue (peaks, <[idx := true]> used')
    | _ :: _ =>
        let peak := {| peak_position := position (f !!! (free !!! idx));
                       density := densities !!! idx;
                       contributing_particles := contributors |} in
        if forallb (λ u : bool, u) used' then Break (peaks ++ [peak], used')
        else Continue (peaks ++ [peak], used')
    end.

(** The pass over the particles no peak has taken. *)
Definition orphan_body (acc : list DensityPeak * list bool) (j : nat)
  : list DensityPeak * list bool :=
  let '(peaks, used) := acc in
  if negb (used !!! j)
  then (peaks ++ [{| peak_position := position (f !!! (free !!! j));
                     density := densities !!! j;
                     contributing_particles := [free !!! j] |}],
        <[j := true]> used)
  else (peaks, used).

Definition orphan_pass (st : list DensityPeak * list bool)
  : list DensityPeak * list bool :=
  foldl orphan_body st (seq 0 n).

(** *** Termination of the greedy extraction *)

(** [used[j] = True] for every [j] of [js]. *)
Definition mark (used : list bool) (js : list nat) : list bool :=
  foldl (λ u j, <[j := true]> u) used js.

(** The test of the inner loop at index [j]. *)
Definition sel (idx : nat) (used : list bool) (j : nat) : Prop :=
  used !!! j = false ∧ min_distance <= (sim !!! idx) !!! j.

#[local] Instance sel_dec idx used j : Decision (sel idx used j).
Proof. unfold sel. apply _. Defined.

Lemma lookup_total_false (used : list bool) (j : nat) :
  used !!! j = false ↔ used !! j = Some false.
Proof.
  rewrite list_lookup_total_alt. destruct (used !! j) as [b|]; simpl.
  - split; congruence.
  - split; discriminate.
Qed.

Lemma unused_insert (used : list bool) (j : nat) :
  used !! j = Some false →
  (unused (<[j := true]> used) + 1 = unused used)%nat.
Proof.
  unfold unused. revert j. induction used as [|b used IH]; intros [|j] Hj;
    simplify_eq/=.
  - rewrite !filter_cons. simpl. repeat case_decide; simplify_eq/=; lia.
  - specialize (IH _ Hj). rewrite !filter_cons.
    destruct b; repeat case_decide; simplify_eq/=; lia.
Qed.

Lemma collect_spec (idx : nat) (js : list nat) :
  NoDup js → ∀ c used,
  foldl (collect_body idx) (c, used) js =
    (c ++ ((free !!!.) <$> filter (sel idx used) js),
     mark used (filter (sel idx used) js)).
Proof.
  induction 1 as [|j js Hj Hjs IH]; intros c used; simpl.
  - by rewrite app_nil_r.
  - assert (Hext : ∀ u, (∀ i, i ≠ j → u !!! i = used !!! i) →
              filter (sel idx u) js = filter (sel idx used) js).
    { intros u Hu. apply filter_ext_elem.
      intros i Hi. unfold sel. rewrite Hu; [done|]. intros ->. done. }
    rewrite filter_cons.
    destruct (decide (sel idx used j)) as [[Hu Hs]|Hn].
    + rewrite Hu. simpl. rewrite bool_decide_eq_true_2 by done.
      rewrite IH. rewrite Hext.
      * simpl. by rewrite <- app_assoc.
      * intros i Hi. by rewrite list_lookup_total_insert_ne.
    + assert (negb (used !!! j) && bool_decide (min_distance <= (sim !!! idx) !!! j) = false)
        as ->.
      { apply not_true_is_false. intros Ht.
        apply andb_prop in Ht as [Ht1 Ht2]. apply Hn. split.
        - by destruct (used !!! j).
        - by apply bool_decide_eq_true_1 in Ht2. }
      by rewrite IH.
Qed.

Lemma unused_mark (js : list nat) :
  NoDup js → ∀ used, (∀ j, j ∈ js → used !! j = Some false) →
  (unused (mark used js) + length js = unused used)%nat.
Proof.
  induction 1 as [|j js Hj Hjs IH]; intros used Hused; simpl; [lia|].
  unfold mark in *.
  pose proof (unused_insert used j (Hused j ltac:(left))) as Hins.
  enough (unused (foldl (λ u i, <[i := true]> u) (<[j := true]> used) js)
          + length js = unused (<[j := true]> used))%nat by lia.
  apply IH. intros i Hi.
  rewrite list_lookup_insert_ne; [apply Hused; by right|].
  intros ->. done.
Qed.

Lemma masked_Fin (used : list bool) (i : nat) (d : R) :
  masked_of used !!! i = Fin d →
  used !! i = Some false ∧ densities !! i = Some d.
Proof.
  unfold masked_of. rewrite list_lookup_total_alt, lookup_zip_with.
  destruct (used !! i) as [[]|], (densities !! i) as [d'|]; simpl;
    intros; simplify_eq; done.
Qed.

Lemma sel_unused (idx : nat) (used : list bool) (j : nat) :
  sel idx used j → used !! j = Some false.
Proof. intros [Hu _]. by apply lookup_total_false. Qed.

Lemma collect_unused (idx : nat) (used : list bool) :
  (unused (collect idx used).2 + length (collect idx used).1
   = unused used)%nat.
Proof.
  unfold collect. rewrite collect_spec by apply NoDup_seq. simpl.
  rewrite length_fmap. apply unused_mark.
  - apply NoDup_filter, NoDup_seq.
  - intros j Hj. apply list_elem_of_filter in Hj as [Hj _].
    by eapply sel_unused.
Qed.

Lemma peak_step_continue (st st' : list DensityPeak * list bool) :
  peak_step st = Continue st' → (unused st'.2 < unused st.2)%nat.
Proof.
  destruct st as [peaks used]. unfold peak_step.
  destruct (ext_le0 _) eqn:Hle; [discriminate|].
  pose proof (collect_unused (np_argmax (masked_of used)) used) as Hc.
  destruct (collect _ used) as [contributors used'] eqn:Hcol. simpl in Hc.
  destruct contributors as [|c contributors].
  - intros [= <-]. simpl.
    destruct (masked_of used !!! np_argmax (masked_of used)) as [|d] eqn:Hm;
      [discriminate|].
    apply masked_Fin in Hm as [Hu _].
    assert (used' = used) as ->.
    { unfold collect in Hcol. rewrite collect_spec in Hcol by apply NoDup_seq.
      injection Hcol as Hnil <-.
      apply fmap_nil_inv in Hnil. by rewrite Hnil. }
    pose proof (unused_insert _ _ Hu). lia.
  - simpl in Hc. destruct (forallb _ used'); intros [= <-]. simpl. lia.
Qed.

(** The [while True] loop of the greedy extraction. *)
Equations? peak_loop (st : list DensityPeak * list bool)
  : list DensityPeak * list bool by wf (unused st.2) lt :=
  peak_loop st with inspect (peak_step st) := {
    | exist _ (Break st') _ => st'
    | exist _ (Continue st') Hstep => peak_loop st' }.
Proof. by apply peak_step_continue. Qed.

Lemma peak_loop_eq (st : list DensityPeak * list bool) :
  peak_loop st =
    match peak_step st with
    | Break st' => st'
    | Continue st' => peak_loop st'
    end.
Proof.
  rewrite peak_loop_equation_1. unfold peak_loop_unfold_clause_1.
  generalize (inspect (peak_step st)). intros [[st'|st'] Hst']; simpl;
    by rewrite Hst'.
Qed.

End Peaks.

(** The greedy peak extraction of [compute_density] followed by its pass
    over the orphans, on the similarity matrix and the densities that the
    arithmetic has produced. *)
Definition greedy_peaks (f : ParticleField) (free : list nat)
    (sim : list (list R)) (densities : ndarray) (min_distance : R)
  : list DensityPeak :=
  let n := length free in
  let st := peak_loop f free sim densities min_distance
              ([], replicate n false) in
  (orphan_pass f free densities st).1.

(** [ParticleField.compute_density] *)
Definition compute_density (f : ParticleField) (min_distance : R)
  : result (list DensityPeak) :=
  let free := free_particles f in
  match free with
  | [] => Ok []
  | _ :: _ =>
      positions ← np_stack ((λ p, position (f !!! p)) <$> free);
      let sim := sim_matrix positions in
      let charges := (λ p, charge (f !!! p)) <$> free in
      let densities := densities_of sim charges in
      Ok (greedy_peaks f free sim densities min_distance)
  end.

(** ** Nucleation *)

(** [nucleus_label] is the source's [label]; [absorbed_particles] holds
    references into the field. *)
Record CrystalNucleus : Type := {
  center : ndarray;
  strength : R;
  emotional_charge : option ndarray;
  absorbed_particles : list nat;
  nucleus_label : string
}.

(** [CrystalNucleus.total_charge] *)
Definition total_charge (f : ParticleField) (nucleus : CrystalNucleus) : R :=
  Rsum ((λ p, charge (f !!! p)) <$> absorbed_particles nucleus).

(** [CrystalNucleus.residual_temperature] *)
Definition residual_temperature (f : ParticleField) (nucleus : CrystalNucleus)
  : R :=
  match absorbed_particles nucleus with
  | [] => 0
  | ps => np_mean ((λ p, temperature (f !!! p)) <$> ps)
  end.

(** [np.mean(m, axis=0)] *)
Definition np_mean_axis0 (m : list ndarray) : ndarray :=
  vdiv (np_sum_axis0 m) (INR (length m)).

(** [DensityPeak.dominant_emotion] *)
Definition dominant_emotion (f : ParticleField) (peak : DensityPeak)
  : option ndarray :=
  let emo_particles :=
    filter (λ p, category (f !!! p) = EMOTION) (contributing_particles peak) in
  match emo_particles with
  | [] => None
  | _ :: _ => Some (np_mean_axis0 ((λ p, position (f !!! p)) <$> emo_particles))
  end.

(** [s.split(sep)[0]] for a one-character separator. *)
Fixpoint split_head (sep : ascii) (s : string) : string :=
  match s with
  | EmptyString => EmptyString
  | String c s' =>
      if decide (c = sep) then EmptyString else String c (split_head sep s')
  end.

(** [sep.join(parts)] *)
Fixpoint join (sep : string) (parts : list string) : string :=
  match parts with
  | [] => ""
  | [p] => p
  | p :: ps => p +:+ sep +:+ join sep ps
  end.

(** [collections.Counter]: the counts, in order of first occurrence. *)
Fixpoint counter_add (x : string) (c : list (string * nat))
  : list (string * nat) :=
  match c with
  | [] => [(x, 1%nat)]
  | (y, k) :: c' =>
      if decide (x = y) then (y, S k) :: c' else (y, k) :: counter_add x c'
  end.

Definition Counter (l : list string) : list (string * nat) :=
  foldl (λ c x, counter_add x c) [] l.

(** A stable sort: [before x y] holds when [x] has to come strictly before
    [y]; elements that neither has to precede keep their order. *)
Fixpoint stable_insert {A} (before : A → A → bool) (x : A) (l : list A)
  : list A :=
  match l with
  | [] => [x]
  | y :: l' =>
      if before y x then y :: stable_insert before x l' else x :: y :: l'
  end.

Definition stable_sort {A} (before : A → A → bool) (l : list A) : list A :=
  foldr (stable_insert before) [] l.

(** [Counter.most_common(k)] *)
Definition most_common (k : nat) (c : list (string * nat))
  : list (string * nat) :=
  take k (stable_sort (λ a b, bool_decide (b.2 < a.2)%nat) c).

(** The nucleus [nucleate] builds from a peak. *)
Definition nucleus_of_peak (f : ParticleField) (peak : DensityPeak)
  : CrystalNucleus :=
  let labels :=
    (λ p, split_head "#"%char (label (f !!! p))) <$> contributing_particles peak in
  let label_counts := Counter labels in
  let top_labels := fst <$> most_common 3 label_counts in
  {| center := peak_position peak;
     strength := density peak;
     emotional_charge := dominant_emotion f peak;
     absorbed_particles := contributing_particles peak;
     nucleus_label := join "+" top_labels |}.

(** [nucleate]; the field is returned with the frozen flags it has set. *)
Definition nucleate (f : ParticleField) (codebook : Codebook)
    (min_density_distance : R)
  : result (list CrystalNucleus * ParticleField) :=
  peaks ← compute_density f min_density_distance;
  match peaks with
  | [] => Ok ([], f)
  | _ :: _ =>
      let nuclei := nucleus_of_peak f <$> peaks in
      let nuclei :=
        stable_sort (λ a b, bool_decide (- strength a < - strength b)) nuclei in
      let f' :=
        foldl (λ f nucleus, foldl freeze f (absorbed_particles nucleus))
              f nuclei in
      Ok (nuclei, f')
  end.

(** ** Crystallization *)

(** [crystal_emotional_charge] and [crystal_residual_temperature] are the
    source's [emotional_charge] and [residual_temperature];
    [contrast_partner] refers to a crystal by its index in the list that
    [_detect_shapes] works on. *)
Inductive Crystal : Type := mkCrystal {
  nucleus : CrystalNucleus;
  shape : string;
  element_count : nat;
  crystal_emotional_charge : R;
  crystal_residual_temperature : R;
  contrast_partner : option nat;
  children : list Crystal
}.

(** [a * c] for a scalar [c]. *)
Definition vtimes (a : ndarray) (c : R) : ndarray := (λ x, x * c) <$> a.

(** [_compute_attraction] *)
Definition _compute_attraction (f : ParticleField) (nucleus : CrystalNucleus)
    (particle : nat) : R :=
  let na := norm (center nucleus) in
  let nb := norm (position (f !!! particle)) in
  if decide (na = 0 ∨ nb = 0) then 0
  else
    let sim := dot (center nucleus) (position (f !!! particle)) / (na * nb) in
    if decide (sim <= 0) then 0
    else
      let charge_factor :=
        total_charge f nucleus * charge (f !!! particle) * 0.01 in
      sim * (1 + charge_factor).

(** [min(range(len(l)), key=...)] and the index of [max(l, key=...)]: the
    first extremal one. *)
Fixpoint first_min_from {A} (key : A → R) (best_i : nat) (best : R) (i : nat)
    (l : list A) : nat :=
  match l with
  | [] => best_i
  | x :: l' =>
      if decide (key x < best) then first_min_from key i (key x) (S i) l'
      else first_min_from key best_i best (S i) l'
  end.

Definition first_min_index {A} (key : A → R) (l : list A) : nat :=
  match l with
  | [] => 0%nat
  | x :: l' => first_min_from key 0 (key x) 1 l'
  end.

Definition first_max_index {A} (key : A → R) (l : list A) : nat :=
  first_min_index (λ x, - key x) l.

(** The merge of [nuclei[j]] into [nuclei[i]] in [_merge_nearby_nuclei]. *)
Definition merge_pair (ni nj : CrystalNucleus) : CrystalNucleus :=
  let n_i := Nat.max (length (absorbed_particles ni)) 1 in
  let n_j := length (absorbed_particles nj) in
  {| center := vdiv (vadd (vtimes (center ni) (INR n_i))
                          (vtimes (center nj) (INR n_j)))
                    (INR (n_i + n_j));
     strength := strength ni + strength nj;
     emotional_charge := emotional_charge ni;
     absorbed_particles := absorbed_particles ni ++ absorbed_particles nj;
     nucleus_label := nucleus_label ni +:+ "+" +:+ nucleus_label nj |}.

(** The inner [while j < len(nuclei)] for a given [i]: [ni] is [nuclei[i]]
    and [rest] the nuclei after it. *)
Fixpoint merge_scan (merge_threshold : R) (ni : CrystalNucleus)
    (rest : list CrystalNucleus) : CrystalNucleus * list CrystalNucleus :=
  match rest with
  | [] => (ni, [])
  | nj :: rest' =>
      if decide (merge_threshold <= similarity (center ni) (center nj))
      then merge_scan merge_threshold (merge_pair ni nj) rest'
      else
        let '(ni', kept) := merge_scan merge_threshold ni rest' in
        (ni', nj :: kept)
  end.

Lemma merge_scan_length (thr : R) (ni : CrystalNucleus)
    (rest : list CrystalNucleus) :
  (length (merge_scan thr ni rest).2 <= length rest)%nat.
Proof.
  revert ni. induction rest as [|nj rest IH]; intros ni; simpl; [lia|].
  case_decide.
  - specialize (IH (merge_pair ni nj)). lia.
  - specialize (IH ni). destruct (merge_scan thr ni rest). simpl in *. lia.
Qed.

(** [_merge_nearby_nuclei]: the outer [while i < len(nuclei)]. *)
Equations? _merge_nearby_nuclei (merge_threshold : R)
    (nuclei : list CrystalNucleus) : list CrystalNucleus
    by wf (length nuclei) lt :=
  _merge_nearby_nuclei merge_threshold [] := [];
  _merge_nearby_nuclei merge_threshold (ni :: rest)
    with inspect (merge_scan merge_threshold ni rest) := {
      | exist _ (ni', rest') Hscan =>
          ni' :: _merge_nearby_nuclei merge_threshold rest' }.
Proof.
  pose proof (merge_scan_length merge_threshold ni rest) as Hlen.
  rewrite Hscan in Hlen. simpl in *. lia.
Qed.

(** The absorption of a free particle by a nucleus in the cooling loop. *)
Definition absorb (f : ParticleField) (nucleus : CrystalNucleus)
    (particle : nat) : CrystalNucleus :=
  let absorbed := absorbed_particles nucleus ++ [particle] in
  let n := length absorbed in
  {| center := vdiv (vadd (vtimes (center nucleus) (INR (n - 1)))
                          (position (f !!! particle)))
                    (INR n);
     strength := strength nucleus;
     emotional_charge := emotional_charge nucleus;
     absorbed_particles := absorbed;
     nucleus_label := nucleus_label nucleus |}.

(** The body of [for particle in free] for one nucleus. *)
Definition absorb_body (temperature : R)
    (acc : CrystalNucleus * ParticleField * RandomState) (particle : nat)
  : CrystalNucleus * ParticleField * RandomState :=
  let '(nucleus, f, rng) := acc in
  if frozen (f !!! particle) then acc
  else
    let attraction := _compute_attraction f nucleus particle in
    let '(u, rng') := random rng in
    let threshold := temperature * u in
    if decide (threshold < attraction)
    then (absorb f nucleus particle, freeze f particle, rng')
    else (nucleus, f, rng').

(** [for nucleus in nuclei: for particle in free: ...] *)
Definition absorb_pass (temperature : R) (free : list nat)
    (nuclei : list CrystalNucleus) (f : ParticleField) (rng : RandomState)
  : list CrystalNucleus * ParticleField * RandomState :=
  foldl (λ '(done, f, rng) nucleus,
           let '(nucleus', f', rng') :=
             foldl (absorb_body temperature) (nucleus, f, rng) free in
           (done ++ [nucleus'], f', rng'))
        ([], f, rng) nuclei.

(** [temperature -= cooling_rate] on Python floats: the difference as
    float64 arithmetic rounds it.  It is a parameter of the development,
    because whether the rounded difference lies below [temperature] decides
    whether the loop of [crystallize] ends: [1.0 - 1e-17] is [1.0]. *)
Variable float_sub : R → R → R.

(** [tauto] without the parameter above, which it would take for a
    premise. *)
Ltac prop_tauto := try clear float_sub; tauto.

(** The absorption loop [while temperature > min_temperature]; [None] when
    it is still running after [fuel] iterations. *)
Fixpoint cooling_loop (fuel : nat) (cooling_rate min_temperature : R)
    (temperature : R) (nuclei : list CrystalNucleus) (f : ParticleField)
    (rng : RandomState) : option (list CrystalNucleus * ParticleField) :=
  if decide (min_temperature < temperature) then
    match free_particles f with
    | [] => Some (nuclei, f)
    | (_ :: _) as free =>
        match fuel with
        | O => None
        | S fuel' =>
            let '(nuclei1, f1, rng1) :=
              absorb_pass temperature free nuclei f rng in
            let nuclei2 := _merge_nearby_nuclei 0.12 nuclei1 in
            cooling_loop fuel' cooling_rate min_temperature
                         (float_sub temperature cooling_rate) nuclei2 f1 rng1
        end
    end
  else Some (nuclei, f).

(** The pass that absorbs the particles still free after the loop. *)
Definition residual_body (acc : list CrystalNucleus * ParticleField)
    (particle : nat) : list CrystalNucleus * ParticleField :=
  let '(nuclei, f) := acc in
  if negb (frozen (f !!! particle))
     && negb (bool_decide (nuclei = @nil CrystalNucleus))
  then
    let best :=
      first_max_index (λ n, _compute_attraction f n particle) nuclei in
    (alter (λ n, {| center := center n; strength := strength n;
                    emotional_charge := emotional_charge n;
                    absorbed_particles := absorbed_particles n ++ [particle];
                    nucleus_label := nucleus_label n |})
           best nuclei,
     freeze f particle)
  else acc.

Definition residual_pass (nuclei : list CrystalNucleus) (f : ParticleField)
  : list CrystalNucleus * ParticleField :=
  foldl residual_body (nuclei, f) (free_particles f).

(** The merge of the weakest nucleus into its target in
    [_force_merge_small]. *)
Definition merge_small (target smallest : CrystalNucleus) : CrystalNucleus :=
  let absorbed := absorbed_particles target ++ absorbed_particles smallest in
  let n_t := (length absorbed - length (absorbed_particles smallest))%nat in
  let n_s := length (absorbed_particles smallest) in
  {| center :=
       if decide (0 < n_t + n_s)%nat
       then vdiv (vadd (vtimes (center target) (INR n_t))
                       (vtimes (center smallest) (INR n_s)))
                 (INR (n_t + n_s))
       else center target;
     strength := strength target + strength smallest * 0.5;
     emotional_charge := emotional_charge target;
     absorbed_particles := absorbed;
     nucleus_label := nucleus_label target +:+ "+" +:+ nucleus_label smallest |}.

(** The search for the neighbour to merge [smallest] into: [None] is the
    source's [best_target = -1]. *)
Definition best_target_body (smallest_idx : nat) (smallest : CrystalNucleus)
    (acc : option nat * R) (jo : nat * CrystalNucleus) : option nat * R :=
  let '(best_target, best_score) := acc in
  let '(j, other) := jo in
  if decide (j = smallest_idx) then acc
  else
    let sim := similarity (center smallest) (center other) in
    let score := sim + 0.1 * strength other in
    if decide (best_score < score) then (Some j, score) else acc.

(** One iteration of [while len(nuclei) > max_crystals].  The lookup of the
    weakest nucleus fails only on the empty list, under a negative cap,
    where the source's [min] raises; [crystallize] calls the function with
    at least one nucleus. *)
Definition force_merge_step (max_crystals : Z) (nuclei : list CrystalNucleus)
  : flow (list CrystalNucleus) :=
  if decide (max_crystals < Z.of_nat (length nuclei))%Z then
    let smallest_idx := first_min_index strength nuclei in
    match nuclei !! smallest_idx with
    | None => Break nuclei
    | Some smallest =>
        let '(best_target, _) :=
          foldl (best_target_body smallest_idx smallest) (None, -1)
                (zip (seq 0 (length nuclei)) nuclei) in
        match best_target with
        | Some t =>
            Continue (delete smallest_idx
                        (alter (λ target, merge_small target smallest) t nuclei))
        | None => Break nuclei
        end
    end
  else Break nuclei.

Lemma force_merge_step_continue (max_crystals : Z)
    (nuclei nuclei' : list CrystalNucleus) :
  force_merge_step max_crystals nuclei = Continue nuclei' →
  (length nuclei' < length nuclei)%nat.
Proof.
  unfold force_merge_step. case_decide; [|discriminate].
  destruct (nuclei !! _) as [smallest|] eqn:Hs; [|discriminate].
  destruct (foldl _ _ _) as [[t|] ?]; [|discriminate].
  intros [= <-]. apply lookup_lt_Some in Hs.
  rewrite length_delete.
  - rewrite length_alter. lia.
  - apply lookup_lt_is_Some. by rewrite length_alter.
Qed.

(** [_force_merge_small] *)
Equations? _force_merge_small (max_crystals : Z)
    (nuclei : list CrystalNucleus) : list CrystalNucleus
    by wf (length nuclei) lt :=
  _force_merge_small max_crystals nuclei
    with inspect (force_merge_step max_crystals nuclei) := {
      | exist _ (Break nuclei') _ => nuclei'
      | exist _ (Continue nuclei') Hstep =>
          _force_merge_small max_crystals nuclei' }.
Proof. by eapply force_merge_step_continue. Qed.

(** [_compute_emotional_valence] *)
Definition _compute_emotional_valence (nucleus : CrystalNucleus) : R :=
  match emotional_charge nucleus with
  | None => 0
  | Some e => Rmax (-1) (Rmin 1 (np_mean e))
  end.

(** [label.split("#")[0].split("~")[0].split("+")[0]] *)
Definition base_concept (lbl : string) : string :=
  split_head "+"%char (split_head "~"%char (split_head "#"%char lbl)).

(** The set [unique_concepts] built for a nucleus. *)
Definition unique_concepts (f : ParticleField) (nucleus : CrystalNucleus)
  : list string :=
  remove_dups
    (filter (λ base, base ≠ "")
            ((λ p, base_concept (label (f !!! p)))
               <$> absorbed_particles nucleus)).

(** The [Crystal] built for a nucleus that has absorbed a particle. *)
Definition build_crystal (f : ParticleField) (nucleus : CrystalNucleus)
  : Crystal :=
  {| nucleus := nucleus;
     shape := "simple";
     element_count := length (unique_concepts f nucleus);
     crystal_emotional_charge := _compute_emotional_valence nucleus;
     crystal_residual_temperature := residual_temperature f nucleus;
     contrast_partner := None;
     children := [] |}.

Definition with_shape (crystal : Crystal) (s : string) (partner : option nat)
  : Crystal :=
  {| nucleus := nucleus crystal;
     shape := s;
     element_count := element_count crystal;
     crystal_emotional_charge := crystal_emotional_charge crystal;
     crystal_residual_temperature := crystal_residual_temperature crystal;
     contrast_partner := partner;
     children := children crystal |}.

(** The test for a contrast partner [other], at index [j], of the crystal
    at index [i]. *)
Definition contrasts (i : nat) (crystal : Crystal) (jo : nat * Crystal)
  : bool :=
  let '(j, other) := jo in
  negb (bool_decide (j = i))
  && (let sim := similarity (center (nucleus crystal))
                            (center (nucleus other)) in
      let emo_diff := Rabs (crystal_emotional_charge crystal
                            - crystal_emotional_charge other) in
      bool_decide (sim < 0.05) || bool_decide (0.3 < emo_diff)).

(** [_detect_shapes] *)
Definition _detect_shapes (crystals : list Crystal) : list Crystal :=
  imap (λ i crystal,
          let n_concepts := element_count crystal in
          if decide (n_concepts <= 1)%nat
          then with_shape crystal "fragment" (contrast_partner crystal)
          else
            match find (contrasts i crystal)
                       (zip (seq 0 (length crystals)) crystals) with
            | Some (j, _) => with_shape crystal "contrast" (Some j)
            | None =>
                if decide (4 <= n_concepts)%nat
                then with_shape crystal "parallel" (contrast_partner crystal)
                else if decide (2 <= n_concepts)%nat
                then with_shape crystal "simple" (contrast_partner crystal)
                else with_shape crystal "fragment" (contrast_partner crystal)
            end)
       crystals.

(** The search of [_recursive_nest] for the parent of the crystal at index
    [i], with [sim_threshold = 0.25] and [min_parent_elements = 3]. *)
Definition best_parent_body (i : nat) (child : Crystal)
    (acc : option nat * R) (jp : nat * Crystal) : option nat * R :=
  let '(best_parent, best_sim) := acc in
  let '(j, parent) := jp in
  if bool_decide (i = j) || bool_decide (element_count parent < 3)%nat
  then acc
  else
    let sim := similarity (center (nucleus child)) (center (nucleus parent)) in
    if decide (best_sim < sim) then (Some j, sim) else acc.

Definition parent_of (crystals : list Crystal) (i : nat) (child : Crystal)
  : option nat :=
  if decide (2 < element_count child)%nat then None
  else (foldl (best_parent_body i child) (None, 0.25)
              (zip (seq 0 (length crystals)) crystals)).1.

(** [_recursive_nest].  A child has at most two concepts and a parent at
    least three, so a crystal that is appended to [children] never receives
    children itself: the children of a parent are the crystals of the list
    as they stand. *)
Definition _recursive_nest (crystals : list Crystal) : list Crystal :=
  if decide (length crystals < 2)%nat then crystals
  else
    let parents := imap (parent_of crystals) crystals in
    let nested :=
      imap (λ j parent,
              {| nucleus := nucleus parent;
                 shape := shape parent;
                 element_count := element_count parent;
                 crystal_emotional_charge := crystal_emotional_charge parent;
                 crystal_residual_temperature :=
                   crystal_residual_temperature parent;
                 contrast_partner := contrast_partner parent;
                 children :=
                   children parent
                   ++ (snd <$> filter (λ pc, pc.1 = Some j)
                                      (zip parents crystals)) |})
           crystals in
    snd <$> filter (λ pc, pc.1 = None) (zip parents nested).

(** [crystallize]; the field is returned with the frozen flags it has set.
    [None] when the absorption loop is still running after [fuel]
    iterations. *)
Definition crystallize (fuel : nat) (f : ParticleField)
    (nuclei : list CrystalNucleus) (codebook : Codebook)
    (cooling_rate min_temperature : R) (max_crystals : Z)
  : option (list Crystal * ParticleField) :=
  match nuclei with
  | [] => Some ([], f)
  | _ :: _ =>
      let temperature := 1.0 in
      let rng := RandomState_seeded 42 in
      let nuclei := _merge_nearby_nuclei 0.15 nuclei in
      '(nuclei, f) ← cooling_loop fuel cooling_rate min_temperature
                                  temperature nuclei f rng;
      let '(nuclei, f) := residual_pass nuclei f in
      let nuclei := _force_merge_small max_crystals nuclei in
      let crystals :=
        build_crystal f
          <$> filter (λ nucleus, absorbed_particles nucleus ≠ []) nuclei in
      let crystals := _detect_shapes crystals in
      let crystals := _recursive_nest crystals in
      let crystals :=
        stable_sort
          (λ a b, bool_decide (- strength (nucleus a) < - strength (nucleus b)))
          crystals in
      Some (crystals, f)
  end.

(** ** Codebook: sequences, cleanup and phrases *)

(** [Codebook.permute]: [np.roll(v, shift)], the entry at [i] moves to
    [(i + shift) mod len(v)]. *)
Definition permute (v : ndarray) (shift : Z) : ndarray :=
  let n := length v in
  (λ i, v !!! Z.to_nat ((Z.of_nat i - shift) `mod` Z.of_nat n)) <$> seq 0 n.

(** [self._memory.items()], as references.  A dict yields its items in the
    order of insertion; [encode] inserts a symbol together with the array it
    allocates for it, so that order is the order of the references. *)
Definition memory_items (self : Codebook) : list (string * loc) :=
  stable_sort (λ a b : string * loc, bool_decide (a.2 < b.2)%nat)
              (map_to_list (_memory self)).

(** The body of the loop of [Codebook.cleanup]. *)
Definition cleanup_body (h : heap) (v : ndarray) (acc : string * R)
    (item : string * loc) : string * R :=
  let '(best_sym, best_sim) := acc in
  let '(sym, mem_vec) := item in
  let sim := similarity v (h !!! mem_vec) in
  if decide (best_sim < sim) then (sym, sim) else acc.

(** [Codebook.cleanup] *)
Definition cleanup (self : Codebook) (h : heap) (v : ndarray) : string * R :=
  foldl (cleanup_body h v) ("", -1) (memory_items self).



(** [Codebook.known_symbols] *)
Definition known_symbols (self : Codebook) : list string :=
  fst <$> memory_items self.

(** [np.zeros(n)] *)
Definition np_zeros (n : Z) : result ndarray :=
  if decide (n < 0)%Z then Raise ValueError else Ok (replicate (Z.to_nat n) 0).

(** [s.strip()], [s.split()] and [s.lower()] of Python's [str]. *)
Variable str_strip : string → string.
Variable str_split : string → list string.
Variable str_lower : string → string.

(** The loop of [Codebook.encode_phrase] from the word at position [i] on. *)
Fixpoint encode_words (self : Codebook) (words : list string) (i : Z)
    (h : heap) : result (list ndarray * Codebook * heap) :=
  match words with
  | [] => Ok ([], self, h)
  | w :: words' =>
      '(vec, self', h') ← encode self (str_lower w) h;
      let shifted := permute (h' !!! vec) i in
      '(positioned, self'', h'') ← encode_words self' words' (i + 1) h';
      Ok (shifted :: positioned, self'', h'')
  end.

(** [Codebook.encode_phrase]; [g] is the state of the global [np.random]
    generator. *)
Definition encode_phrase (self : Codebook) (phrase : string) (h : heap)
    (g : RandomState) : result (ndarray * Codebook * heap * RandomState) :=
  match str_split (str_strip phrase) with
  | [] =>
      z ← np_zeros (dim self);
      Ok (z, self, h, g)
  | (_ :: _) as words =>
      '(positioned, self', h') ← encode_words self words 0 h;
      '(v, g') ← bundle positioned g;
      Ok (v, self', h', g')
  end.

(** ** ParticleField and CrystalNucleus: the remaining operations *)

(** [ParticleField.add], [add_many] and [__len__]. *)
Definition add (f : ParticleField) (particle : Particle) : ParticleField :=
  f ++ [particle].

Definition add_many (f : ParticleField) (particles : list Particle)
  : ParticleField := f ++ particles.

Definition len (f : ParticleField) : nat := length f.

(** [ParticleField.temperature] *)
Definition field_temperature (f : ParticleField) : R :=
  match free_particles f with
  | [] => 0
  | (_ :: _) as free => np_mean ((λ p, temperature (f !!! p)) <$> free)
  end.

(** [p.temperature = max(0.0, p.temperature - rate)] on the particle [p] of
    the field. *)
Definition cool_particle (rate : R) (f : ParticleField) (p : nat)
  : ParticleField :=
  alter (λ q, {| position := position q; charge := charge q;
                 temperature := Rmax 0 (temperature q - rate);
                 label := label q; category := category q; mass := mass q;
                 frozen := frozen q |})
        p f.

(** [ParticleField.cool] *)
Definition cool (f : ParticleField) (rate : R) : ParticleField :=
  foldl (cool_particle rate) f (free_particles f).

(** [Particle.similarity_to] *)
Definition similarity_to (self other : Particle) : R :=
  let na := norm (position self) in
  let nb := norm (position other) in
  if decide (na = 0 ∨ nb = 0) then 0
  else dot (position self) (position other) / (na * nb).

(** [CrystalNucleus.emotional_intensity] *)
Definition emotional_intensity (f : ParticleField) (nucleus : CrystalNucleus)
  : R :=
  match absorbed_particles nucleus with
  | [] => 0
  | (_ :: _) as ps =>
      INR (length (filter (λ p, category (f !!! p) = EMOTION) ps))
      / INR (length ps)
  end.

(** [CrystalNucleus.size] *)
Definition nucleus_size (nucleus : CrystalNucleus) : nat :=
  length (absorbed_particles nucleus).

(** ** Plasma creation *)

(** The charge and temperature profile of a category. *)
Record Profile : Type := {
  n_particles : Z;
  profile_charge : R;
  profile_temperature : R;
  profile_mass : R
}.

(** [PROFILES] *)
Definition PROFILES (category : ParticleCategory) : Profile :=
  match category with
  | INTENT => {| n_particles := 6; profile_charge := 1.0;
                 profile_temperature := 0.5; profile_mass := 1.0 |}
  | EMOTION => {| n_particles := 4; profile_charge := 0.8;
                  profile_temperature := 0.9; profile_mass := 0.5 |}
  | CONTEXT => {| n_particles := 3; profile_charge := 0.5;
                  profile_temperature := 0.3; profile_mass := 1.5 |}
  | PERSONA => {| n_particles := 2; profile_charge := 0.3;
                  profile_temperature := 0.1; profile_mass := 2.0 |}
  end.

(** [for i, vec in enumerate(sub_vecs): field.add(Particle(...))] *)
Definition add_core (category : ParticleCategory) (profile : Profile)
    (word : string) (field : ParticleField) (sub_vecs : list ndarray)
  : ParticleField :=
  foldl (λ field '(i, vec),
           add field {| position := vec;
                        charge := profile_charge profile;
                        temperature := profile_temperature profile;
                        label := word +:+ "#" +:+ pretty (i : nat);
                        category := category;
                        mass := profile_mass profile;
                        frozen := false |})
        field (zip (seq 0 (length sub_vecs)) sub_vecs).

(** [for word in words: ...], the core particles of the words of one
    category. *)
Fixpoint core_words (category : ParticleCategory) (profile : Profile)
    (words : list string) (field : ParticleField) (codebook : Codebook)
    (h : heap) : result (ParticleField * Codebook * heap) :=
  match words with
  | [] => Ok (field, codebook, h)
  | word :: words' =>
      '(sub_vecs, codebook', h') ←
        decompose codebook (str_lower word) (n_particles profile) h;
      core_words category profile words'
                 (add_core category profile word field sub_vecs) codebook' h'
  end.

(** [for category, text in inputs.items(): ...]; [words_by_cat] is the
    dict of the words per category. *)
Fixpoint core_inputs (inputs : list (ParticleCategory * string))
    (field : ParticleField)
    (words_by_cat : ParticleCategory → option (list string))
    (codebook : Codebook) (h : heap)
  : result (ParticleField * (ParticleCategory → option (list string))
            * Codebook * heap) :=
  match inputs with
  | [] => Ok (field, words_by_cat, codebook, h)
  | (category, text) :: inputs' =>
      if decide (str_strip text = "")
      then core_inputs inputs' field words_by_cat codebook h
      else
        let profile := PROFILES category in
        let words := str_split (str_strip text) in
        let words_by_cat :=
          λ c, if decide (c = category) then Some words else words_by_cat c in
        '(field', codebook', h') ←
          core_words category profile words field codebook h;
        core_inputs inputs' field' words_by_cat codebook' h'
  end.

(** [itertools.combinations(l, 2)] *)
Fixpoint combinations2 {A} (l : list A) : list (A * A) :=
  match l with
  | [] => []
  | x :: l' => ((λ y, (x, y)) <$> l') ++ combinations2 l'
  end.

(** The cross-concept binding particles. *)
Fixpoint bind_pairs (pairs : list (string * string)) (field : ParticleField)
    (codebook : Codebook) (h : heap) (rng : RandomState)
  : result (ParticleField * Codebook * heap) :=
  match pairs with
  | [] => Ok (field, codebook, h)
  | (w1, w2) :: pairs' =>
      '(v1, codebook1, h1) ← encode codebook (str_lower w1) h;
      '(v2, codebook2, h2) ← encode codebook1 (str_lower w2) h1;
      let blended := vadd (vscale 0.5 (h2 !!! v1)) (vscale 0.5 (h2 !!! v2)) in
      '(noise, rng') ← choice (dim codebook2) rng;
      let blended :=
        np_sign <$> vadd (vscale 0.6 blended) (vscale 0.4 noise) in
      bind_pairs pairs'
        (add field {| position := blended; charge := 0.6; temperature := 0.6;
                      label := w1 +:+ "+" +:+ w2; category := INTENT;
                      mass := 0.8; frozen := false |})
        codebook2 h2 rng'
  end.

(** The emotional colouring of the intent words by the emotion word [ew],
    whose vector is [ev]. *)
Fixpoint color_intents (ew : string) (ev : loc) (intent_words : list string)
    (field : ParticleField) (codebook : Codebook) (h : heap)
    (rng : RandomState)
  : result (ParticleField * Codebook * heap * RandomState) :=
  match intent_words with
  | [] => Ok (field, codebook, h, rng)
  | iw :: intent_words' =>
      '(iv, codebook1, h1) ← encode codebook (str_lower iw) h;
      let colored := vadd (vscale 0.4 (h1 !!! iv)) (vscale 0.6 (h1 !!! ev)) in
      '(noise, rng') ← choice (dim codebook1) rng;
      let colored :=
        np_sign <$> vadd (vscale 0.65 colored) (vscale 0.35 noise) in
      color_intents ew ev intent_words'
        (add field {| position := colored; charge := 0.5; temperature := 0.7;
                      label := iw +:+ "~" +:+ ew; category := EMOTION;
                      mass := 0.7; frozen := false |})
        codebook1 h1 rng'
  end.

Fixpoint color_emotions (emotion_words intent_words : list string)
    (field : ParticleField) (codebook : Codebook) (h : heap)
    (rng : RandomState) : result (ParticleField * Codebook * heap) :=
  match emotion_words with
  | [] => Ok (field, codebook, h)
  | ew :: emotion_words' =>
      '(ev, codebook1, h1) ← encode codebook (str_lower ew) h;
      '(field', codebook2, h2, rng') ←
        color_intents ew ev (take 3 intent_words) field codebook1 h1 rng;
      color_emotions emotion_words' intent_words field' codebook2 h2 rng'
  end.

(** The knowledge inference particles. *)
Fixpoint infer_particles (expansions : list (string * string * string))
    (field : ParticleField) (codebook : Codebook) (h : heap)
    (rng : RandomState) : result (ParticleField * Codebook * heap) :=
  match expansions with
  | [] => Ok (field, codebook, h)
  | (source, relation, inferred) :: expansions' =>
      '(inf_vec, codebook1, h1) ← encode codebook (str_lower inferred) h;
      '(src_vec, codebook2, h2) ← encode codebook1 (str_lower source) h1;
      let blended :=
        vadd (vscale 0.3 (h2 !!! src_vec)) (vscale 0.7 (h2 !!! inf_vec)) in
      '(noise, rng') ← choice (dim codebook2) rng;
      let blended :=
        np_sign <$> vadd (vscale 0.7 blended) (vscale 0.3 noise) in
      infer_particles expansions'
        (add field {| position := blended; charge := 0.4; temperature := 0.5;
                      label := inferred +:+ "[" +:+ relation +:+ ":"
                               +:+ source +:+ "]";
                      category := CONTEXT; mass := 1.2; frozen := false |})
        codebook2 h2 rng'
  end.

(** The three stages of [create_plasma] after the core particles. *)
Definition cross_binding (intent_words : list string) (field : ParticleField)
    (codebook : Codebook) (h : heap)
  : result (ParticleField * Codebook * heap) :=
  if decide (2 <= length intent_words)%nat
  then bind_pairs (combinations2 intent_words) field codebook h
                  (RandomState_seeded 42)
  else Ok (field, codebook, h).

Definition emotional_coloring (emotion_words intent_words : list string)
    (field : ParticleField) (codebook : Codebook) (h : heap)
  : result (ParticleField * Codebook * heap) :=
  if decide (emotion_words ≠ [] ∧ intent_words ≠ [])
  then color_emotions emotion_words intent_words field codebook h
                      (RandomState_seeded 99)
  else Ok (field, codebook, h).

Definition knowledge_inference
    (knowledge : option (list string → Z → list (string * string * string)))
    (all_concepts : list string) (field : ParticleField)
    (codebook : Codebook) (h : heap)
  : result (ParticleField * Codebook * heap) :=
  match knowledge with
  | Some expand_concepts =>
      let expansions := expand_concepts all_concepts 6%Z in
      infer_particles expansions field codebook h (RandomState_seeded 77)
  | None => Ok (field, codebook, h)
  end.

(** [create_plasma]; [knowledge], when given, is the method
    [expand_concepts] of the knowledge object. *)
Definition create_plasma (intent emotion context persona : string)
    (codebook : Codebook)
    (knowledge : option (list string → Z → list (string * string * string)))
    (h : heap) : result (ParticleField * Codebook * heap) :=
  let inputs := [(INTENT, intent); (EMOTION, emotion); (CONTEXT, context);
                 (PERSONA, persona)] in
  core ← core_inputs inputs [] (λ _, None) codebook h;
  let '(field, words_by_cat, codebook, h) := core in
  let intent_words := default [] (words_by_cat INTENT) in
  bound ← cross_binding intent_words field codebook h;
  let '(field, codebook, h) := bound in
  let emotion_words := default [] (words_by_cat EMOTION) in
  colored ← emotional_coloring emotion_words intent_words field codebook h;
  let '(field, codebook, h) := colored in
  let all_concepts := intent_words ++ default [] (words_by_cat CONTEXT) in
  knowledge_inference knowledge all_concepts field codebook h.

(** ** The states the properties are about *)

(** The states of a codebook and of the heap that the constructor, with a
    dimension the generator accepts, and calls of [encode] lead to; arrays
    allocated by others leave the state reachable, writes into the arrays the
    codebook has handed out do not. *)
Inductive codebook_reachable : Codebook → heap → Prop :=
| reachable_init (d sd : Z) (cb : Codebook) (h : heap) :
    (0 <= d)%Z → Codebook_init d sd = Ok cb → codebook_reachable cb h
| reachable_encode (cb cb' : Codebook) (s : string) (l : loc) (h h' : heap) :
    codebook_reachable cb h → encode cb s h = Ok (l, cb', h') →
    codebook_reachable cb' h'
| reachable_alloc (cb : Codebook) (h : heap) (v : ndarray) :
    codebook_reachable cb h → codebook_reachable cb (h ++ [v]).

(** The state a codebook is in between calls: a dimension that the generator
    accepts, and a cache whose arrays are bipolar vectors of that
    dimension. *)
Definition codebook_wf (cb : Codebook) (h : heap) : Prop :=
  (0 <= dim cb)%Z ∧
  ∀ s l, _memory cb !! s = Some l →
         ∃ v, h !! l = Some v ∧ hdv (Z.to_nat (dim cb)) v.

(** Every particle of the field is frozen. *)
Definition all_frozen (f : ParticleField) : Prop :=
  Forall (λ p, frozen p = true) f.

(** The references of the cache lie inside the heap and differ from symbol
    to symbol: [encode] allocates a fresh array for every new symbol. *)
Definition codebook_ordered (cb : Codebook) (h : heap) : Prop :=
  (∀ s l, _memory cb !! s = Some l → (l < length h)%nat) ∧
  (∀ s1 s2 l, _memory cb !! s1 = Some l → _memory cb !! s2 = Some l →
              s1 = s2).

(** [q] is the particle [p], except that it may have been frozen. *)
Definition frozen_or_same (p q : Particle) : Prop :=
  position q = position p ∧ charge q = charge p ∧
  temperature q = temperature p ∧ label q = label p ∧
  category q = category p ∧ mass q = mass p ∧
  (frozen p = true → frozen q = true).

(** The field [f'] is the field [f] with some more particles frozen. *)
Definition only_freezes (f f' : ParticleField) : Prop :=
  Forall2 frozen_or_same f f'.

(** The particles that the nuclei hold, nucleus after nucleus. *)
Definition absorbed_all (nuclei : list CrystalNucleus) : list nat :=
  concat (absorbed_particles <$> nuclei).

(** The nuclei [nuclei'] and the field [f'] hold the particles that
    [nuclei] and [f] hold: what is no longer free has been absorbed, and
    nothing else of the field has changed. *)
Definition conserves (nuclei : list CrystalNucleus) (f : ParticleField)
    (nuclei' : list CrystalNucleus) (f' : ParticleField) : Prop :=
  absorbed_all nuclei' ++ free_particles f'
  ≡ₚ absorbed_all nuclei ++ free_particles f ∧
  only_freezes f f'.

(** The state in which [_force_merge_small] gives up: no nucleus other than
    the weakest scores above -1, the score to beat, as its merge target. *)
Definition no_merge_target (nuclei : list CrystalNucleus) : Prop :=
  ∀ smallest j other,
    nuclei !! first_min_index strength nuclei = Some smallest →
    nuclei !! j = Some other → j ≠ first_min_index strength nuclei →
    similarity (center smallest) (center other) + 0.1 * strength other <= -1.

(** The particles of a plasma: free, at bipolar positions of dimension
    [D]. *)
Definition plasma_ok (D : nat) (field : ParticleField) : Prop :=
  Forall (λ p, hdv D (position p) ∧ frozen p = false) field.

(** [Crystal.particles] *)
Definition particles (crystal : Crystal) : list nat :=
  absorbed_particles (nucleus crystal).

(** The particles of the crystals of a list and of their children. *)
Definition crystal_particles (crystals : list Crystal) : list nat :=
  concat ((λ c, particles c ++ concat (particles <$> children c))
            <$> crystals).

(** * Properties *)

(** ** Bipolar vectors *)

Lemma bipolar_sqr (x : R) : bipolar x → x * x = 1.
Proof. intros [-> | ->]; lra. Qed.

Lemma dot_self_bipolar (v : ndarray) :
  Forall bipolar v → dot v v = INR (length v).
Proof.
  unfold dot, Rsum. induction 1 as [|x v Hx Hv IH]; [done|].
  cbn [zip_with foldr length]. rewrite IH, S_INR, (bipolar_sqr x Hx). lra.
Qed.

Lemma norm_bipolar (v : ndarray) :
  Forall bipolar v → norm v = sqrt (INR (length v)).
Proof. intros Hv. unfold norm. by rewrite dot_self_bipolar. Qed.

Lemma norm_bipolar_pos (v : ndarray) :
  Forall bipolar v → (0 < length v)%nat → 0 < norm v.
Proof.
  intros Hv Hlen. rewrite norm_bipolar by done.
  apply sqrt_lt_R0, lt_0_INR. lia.
Qed.

Lemma norm_bipolar_sqr (v : ndarray) :
  Forall bipolar v → norm v * norm v = INR (length v).
Proof.
  intros Hv. rewrite norm_bipolar by done. apply sqrt_sqrt, pos_INR.
Qed.

(** Between bipolar vectors of one dimension [D >= 1] the cosine is the dot
    product over [D]. *)
Lemma similarity_bipolar (a b : ndarray) :
  Forall bipolar a → Forall bipolar b → length a = length b →
  (0 < length a)%nat →
  similarity a b = dot a b / INR (length a).
Proof.
  intros Ha Hb Hlen Hpos. unfold similarity.
  pose proof (norm_bipolar_pos a Ha Hpos) as Hna.
  pose proof (norm_bipolar_pos b Hb ltac:(lia)) as Hnb.
  case_decide as Hz; [lra|].
  rewrite (norm_bipolar b Hb), <- Hlen, <- (norm_bipolar a Ha).
  by rewrite norm_bipolar_sqr.
Qed.

Lemma similarity_self_bipolar (a : ndarray) :
  Forall bipolar a → (0 < length a)%nat → similarity a a = 1.
Proof.
  intros Ha Hpos. rewrite similarity_bipolar, dot_self_bipolar by done.
  apply Rdiv_diag. apply not_0_INR. lia.
Qed.

(** [bind] stays in bipolar space. *)
Lemma bind_bipolar (a b : ndarray) :
  Forall bipolar a → Forall bipolar b → Forall bipolar (bind a b).
Proof.
  intros Ha. revert b. unfold bind.
  induction Ha as [|x a Hx Ha IH]; intros [|y b] Hb; simpl; try done.
  apply Forall_cons in Hb as [Hy Hb]. constructor; [|by apply IH].
  destruct Hx as [-> | ->], Hy as [-> | ->]; unfold bipolar; lra.
Qed.

Lemma bind_involutive (a b : ndarray) :
  Forall bipolar b → length a = length b → bind (bind a b) b = a.
Proof.
  intros Hb. revert a. unfold bind.
  induction Hb as [|y b Hy Hb IH]; intros [|x a] Hlen; simplify_eq/=; [done|].
  rewrite IH by done. f_equal. rewrite Rmult_assoc, (bipolar_sqr y Hy). lra.
Qed.

(** The dot product of two distinct bipolar vectors of one dimension stays
    below that dimension. *)
Lemma dot_bipolar_le (a b : ndarray) :
  Forall bipolar a → Forall bipolar b → length a = length b →
  dot a b <= INR (length a).
Proof.
  intros Ha. revert b. unfold dot, Rsum.
  induction Ha as [|x a Hx Ha IH]; intros b Hb Hlen; [cbn; lra|].
  destruct b as [|y b]; [discriminate|]. injection Hlen as Hlen.
  apply Forall_cons in Hb as [Hy Hb]. specialize (IH b Hb Hlen).
  cbn [zip_with foldr length]. rewrite S_INR.
  destruct Hx as [-> | ->], Hy as [-> | ->]; lra.
Qed.

Lemma dot_bipolar_lt (a b : ndarray) :
  Forall bipolar a → Forall bipolar b → length a = length b → a ≠ b →
  dot a b < INR (length a).
Proof.
  intros Ha. revert b.
  induction Ha as [|x a Hx Ha IH]; intros b Hb Hlen Hne.
  { destruct b; [done | discriminate]. }
  destruct b as [|y b]; [discriminate|]. injection Hlen as Hlen.
  apply Forall_cons in Hb as [Hy Hb].
  change (dot (x :: a) (y :: b)) with (x * y + dot a b).
  pose proof (dot_bipolar_le a b Ha Hb Hlen) as Hle.
  cbn [length]. rewrite S_INR.
  destruct (decide (x = y)) as [<-|Hxy].
  - assert (a ≠ b) as Hab by congruence. specialize (IH b Hb Hlen Hab).
    rewrite (bipolar_sqr x Hx). lra.
  - assert (x * y = -1) as ->
      by (destruct Hx as [-> | ->], Hy as [-> | ->]; lra).
    lra.
Qed.

Lemma np_sign_mix (b x : R) :
  bipolar b → bipolar x → np_sign (0.7 * b + 0.3 * x) = b.
Proof.
  intros [-> | ->] [-> | ->]; unfold np_sign; repeat case_decide; lra.
Qed.

Lemma sign_mix_base (base noise : ndarray) :
  Forall bipolar base → Forall bipolar noise → length base = length noise →
  np_sign <$> vadd (vscale 0.7 base) (vscale 0.3 noise) = base.
Proof.
  intros Hb. revert noise. unfold vadd, vscale.
  induction Hb as [|b base Hb Hbase IH]; intros [|x noise] Hn Hlen;
    simplify_eq/=; [done|].
  apply Forall_cons in Hn as [Hx Hn].
  by rewrite IH, np_sign_mix.
Qed.

(** ** Codebook: the cache and the vectors it hands out *)

Lemma choice_ok (size : Z) (rng : RandomState) :
  (0 <= size)%Z →
  ∃ v rng', choice size rng = Ok (v, rng') ∧ hdv (Z.to_nat size) v.
Proof.
  intros Hsize. unfold choice. case_decide; [lia|].
  eexists _, _. split; [done|]. split.
  - by rewrite length_fmap, length_seq.
  - apply Forall_fmap, Forall_forall. intros k _. simpl.
    destruct (mt_index _ _); [by left | by right].
Qed.


Lemma Codebook_init_wf (d sd : Z) (h : heap) :
  (0 <= d)%Z →
  ∃ cb, Codebook_init d sd = Ok cb ∧ codebook_wf cb h.
Proof.
  intros Hd. eexists. split; [done|]. split; [done|].
  intros s l. simpl. by rewrite lookup_empty.
Qed.

Lemma encode_cached (cb : Codebook) (s : string) (l : loc) (h : heap) :
  _memory cb !! s = Some l → encode cb s h = Ok (l, cb, h).
Proof. intros Hs. unfold encode. by rewrite Hs. Qed.

Lemma encode_ok (cb : Codebook) (s : string) (h : heap) :
  codebook_wf cb h →
  ∃ l cb' h' v,
    encode cb s h = Ok (l, cb', h') ∧
    _memory cb' !! s = Some l ∧ dim cb' = dim cb ∧
    h' !! l = Some v ∧ hdv (Z.to_nat (dim cb)) v ∧
    codebook_wf cb' h'.
Proof.
  intros [Hdim Hmem]. unfold encode.
  destruct (_memory cb !! s) as [l|] eqn:Hs.
  - destruct (Hmem s l Hs) as (v & Hv & Hhdv).
    exists l, cb, h, v. by split_and!.
  - destruct (choice_ok (dim cb) (RandomState_seeded
        (Z.land (Z.lxor (sha256_le64 s) (seed cb)) 0xFFFFFFFF)) Hdim)
      as (v & rng' & -> & Hv).
    simpl. eexists _, _, _, v. split; [done|]. simpl.
    split; [by rewrite lookup_insert_eq|]. split; [done|].
    split; [by rewrite lookup_app_r, Nat.sub_diag|]. split; [done|].
    split; [done|]. simpl. intros s' l' Hs'.
    destruct (decide (s = s')) as [<-|Hne].
    + rewrite lookup_insert_eq in Hs'. injection Hs' as <-.
      exists v. by rewrite lookup_app_r, Nat.sub_diag.
    + rewrite lookup_insert_ne in Hs' by done.
      destruct (Hmem s' l' Hs') as (v' & Hv' & Hhdv').
      exists v'. split; [|done]. by apply lookup_app_l_Some.
Qed.

Lemma codebook_wf_alloc (cb : Codebook) (h : heap) (v : ndarray) :
  codebook_wf cb h → codebook_wf cb (h ++ [v]).
Proof.
  intros [Hdim Hmem]. split; [done|]. intros s l Hs.
  destruct (Hmem s l Hs) as (u & Hu & Hhdv).
  exists u. split; [|done]. by apply lookup_app_l_Some.
Qed.

(** Every reachable state is well formed. *)
Lemma codebook_reachable_wf (cb : Codebook) (h : heap) :
  codebook_reachable cb h → codebook_wf cb h.
Proof.
  induction 1 as [d sd cb h Hd Hinit|cb cb' s l h h' _ IH He|cb h v _ IH].
  - destruct (Codebook_init_wf d sd h Hd) as (cb0 & Hcb0 & Hwf). congruence.
  - destruct (encode_ok cb s h IH) as (l0 & cb0 & h0 & v & He0 & _ & _ & _ & _ & Hwf).
    congruence.
  - by apply codebook_wf_alloc.
Qed.

(** C2.  For a codebook in a state the constructor and [encode] lead to,
    two calls of [encode(s)] in a row return the same array, the second call
    changes neither the codebook nor any array, and every element of the
    array is -1 or +1. *)
Theorem encode_twice_identical (cb : Codebook) (s : string) (h : heap) :
  codebook_reachable cb h →
  ∃ l cb1 h1 v,
    encode cb s h = Ok (l, cb1, h1) ∧
    encode cb1 s h1 = Ok (l, cb1, h1) ∧
    h1 !! l = Some v ∧ Forall bipolar v.
Proof.
  intros Hwf%codebook_reachable_wf.
  destruct (encode_ok cb s h Hwf) as (l & cb1 & h1 & v & He & Hs & _ & Hv & Hhdv & _).
  exists l, cb1, h1, v. split; [done|].
  split; [by apply encode_cached|]. split; [done|]. apply Hhdv.
Qed.

(** C7, as the code has it.  The array [encode(s)] returns is the cached
    array itself: whatever a caller writes into it is what the next
    [encode(s)] returns, in the same array. *)
Theorem encode_returns_cached_array (cb : Codebook) (s : string) (h : heap)
    (w : ndarray) :
  codebook_reachable cb h →
  ∃ l cb1 h1,
    encode cb s h = Ok (l, cb1, h1) ∧
    encode cb1 s (<[l := w]> h1) = Ok (l, cb1, <[l := w]> h1) ∧
    <[l := w]> h1 !! l = Some w.
Proof.
  intros Hwf%codebook_reachable_wf.
  destruct (encode_ok cb s h Hwf) as (l & cb1 & h1 & v & He & Hs & _ & Hv & _).
  exists l, cb1, h1. split; [done|]. split; [by apply encode_cached|].
  apply list_lookup_insert_eq. by eapply lookup_lt_Some.
Qed.

(** C3.  For bipolar vectors [a] and [b] of one dimension [D >= 1], binding
    twice with [b] gives back a vector whose cosine with [a] exceeds
    0.99. *)
Theorem bind_self_inverse (a b : ndarray) :
  Forall bipolar a → Forall bipolar b → length a = length b →
  (0 < length a)%nat →
  similarity (bind (bind a b) b) a > 0.99.
Proof.
  intros Ha Hb Hlen Hpos.
  rewrite bind_involutive by done.
  rewrite similarity_self_bipolar by done. lra.
Qed.

Lemma decompose_loop_ok (d : Z) (base : ndarray) (k : nat)
    (rng : RandomState) :
  (0 <= d)%Z → hdv (Z.to_nat d) base →
  ∃ ps, decompose_loop d base k rng = Ok ps ∧
        length ps = k ∧ Forall (λ p, p = base) ps.
Proof.
  intros Hd [Hlen Hbase]. revert rng.
  induction k as [|k IH]; intros rng; simpl.
  - by exists [].
  - destruct (choice_ok d rng Hd) as (noise & rng' & -> & Hnl & Hnoise).
    simpl. destruct (IH rng') as (ps & -> & Hps & Hall). simpl.
    eexists. split; [done|]. split; [simpl; lia|].
    constructor; [|done]. apply sign_mix_base; [done..|lia].
Qed.

Lemma decompose_ok (cb : Codebook) (s : string) (n : Z) (h : heap) :
  codebook_wf cb h →
  ∃ l cb' h' base ps,
    encode cb s h = Ok (l, cb', h') ∧ h' !! l = Some base ∧
    hdv (Z.to_nat (dim cb)) base ∧
    decompose cb s n h = Ok (ps, cb', h') ∧
    length ps = Z.to_nat n ∧ Forall (λ p, p = base) ps.
Proof.
  intros Hwf. pose proof Hwf as [Hdim _].
  destruct (encode_ok cb s h Hwf)
    as (l & cb' & h' & base & He & _ & Hd & Hbase & Hhdv & _).
  exists l, cb', h', base. unfold decompose. rewrite He. simpl.
  rewrite (list_lookup_total_correct _ _ _ Hbase), Hd.
  destruct (decompose_loop_ok (dim cb) base (Z.to_nat n)
              (RandomState_seeded (Z.land (py_hash s) 0xFFFFFFFF)) Hdim Hhdv)
    as (ps & -> & Hlen & Hall).
  exists ps. by split_and!.
Qed.

(** C9.  With a dimension [D >= 1], [decompose(s, n)] for [n >= 1] returns
    exactly [n] vectors, and each has a cosine above 0.3 with the vector
    [encode(s)] returns. *)
Theorem decompose_similar_to_base (cb : Codebook) (s : string) (n : Z)
    (h : heap) :
  codebook_reachable cb h → (0 < dim cb)%Z → (1 <= n)%Z →
  ∃ l cb' h' base ps,
    encode cb s h = Ok (l, cb', h') ∧ h' !! l = Some base ∧
    decompose cb s n h = Ok (ps, cb', h') ∧
    Z.of_nat (length ps) = n ∧
    Forall (λ p, similarity p base > 0.3) ps.
Proof.
  intros Hwf%codebook_reachable_wf Hdim Hn.
  destruct (decompose_ok cb s n h Hwf)
    as (l & cb' & h' & base & ps & He & Hbase & [Hlen Hbip] & Hdec & Hps & Hall).
  exists l, cb', h', base, ps. split_and!; try done; [lia|].
  eapply Forall_impl; [exact Hall|]. intros p ->.
  rewrite similarity_self_bipolar; [lra|done|lia].
Qed.


(** ** Bundling *)

Lemma hdv_lookup (D : nat) (u : ndarray) (j : nat) :
  hdv D u → (j < D)%nat → bipolar (u !!! j).
Proof.
  intros [Hlen Hu] Hj.
  destruct (lookup_lt_is_Some_2 u j ltac:(lia)) as [x Hx].
  rewrite (list_lookup_total_correct _ _ _ Hx).
  by eapply Forall_lookup_1.
Qed.

Lemma fmap_seq_lookup_total {A} `{!Inhabited A} (l : list A) :
  (λ j, l !!! j) <$> seq 0 (length l) = l.
Proof.
  apply list_eq. intros i. rewrite list_lookup_fmap.
  destruct (decide (i < length l)%nat) as [Hi|Hi].
  - rewrite lookup_seq_lt by done. simpl.
    destruct (lookup_lt_is_Some_2 l i Hi) as [x Hx].
    by rewrite Hx, (list_lookup_total_correct _ _ _ Hx).
  - rewrite lookup_seq_ge by lia. simpl.
    by rewrite lookup_ge_None_2 by lia.
Qed.

Lemma np_stack_hdv (D : nat) (vecs : list ndarray) :
  vecs ≠ [] → Forall (hdv D) vecs → np_stack vecs = Ok vecs.
Proof.
  intros Hne Hall. destruct vecs as [|v vs]; [done|]. simpl.
  apply Forall_cons in Hall as [[Hv _] Hvs].
  rewrite decide_True; [done|].
  eapply Forall_impl; [exact Hvs|]. intros u [Hu _]. lia.
Qed.

(** The votes of column [j], weighted by the sign [a] has there: every
    occurrence of [a] brings +1 and every other vector at least -1. *)
Lemma column_votes (D : nat) (a : ndarray) (vecs : list ndarray) (j : nat) :
  hdv D a → Forall (hdv D) vecs → (j < D)%nat →
  2 * INR (length (filter (λ u, u = a) vecs)) - INR (length vecs)
  <= Rsum ((λ u : ndarray, u !!! j) <$> vecs) * (a !!! j).
Proof.
  intros Ha Hall Hj. induction Hall as [|u vecs Hu Hvecs IH].
  - simpl. lra.
  - rewrite filter_cons. cbn [fmap list_fmap Rsum foldr length].
    fold (Rsum ((λ u : ndarray, u !!! j) <$> vecs)).
    rewrite S_INR. pose proof (hdv_lookup D a j Ha Hj) as Haj.
    case_decide as Hua.
    + subst u. cbn [length]. rewrite S_INR.
      rewrite Rmult_plus_distr_r, (bipolar_sqr _ Haj). lra.
    + pose proof (hdv_lookup D u j Hu Hj) as Huj.
      rewrite Rmult_plus_distr_r.
      assert (-1 <= u !!! j * a !!! j)
        by (destruct Haj as [-> | ->], Huj as [-> | ->]; lra).
      lra.
Qed.

Lemma np_sign_majority (x y : R) : bipolar y → 0 < x * y → np_sign x = y.
Proof.
  intros [-> | ->] Hxy; unfold np_sign; repeat case_decide; lra.
Qed.

(** When [a] makes up more than half of the inputs, every column sum has the
    sign of [a]: no tie is left to the generator and the bundle is [a]. *)
Lemma bundle_majority (D : nat) (a : ndarray) (vecs : list ndarray)
    (g : RandomState) :
  hdv D a → Forall (hdv D) vecs →
  (length vecs < 2 * length (filter (λ u, u = a) vecs))%nat →
  bundle vecs g = Ok (a, g).
Proof.
  intros Ha Hall Hmaj.
  assert (vecs ≠ []) as Hne by (intros ->; simpl in Hmaj; lia).
  assert (Hcol : ∀ j, (j < D)%nat →
            0 < Rsum ((λ u : ndarray, u !!! j) <$> vecs) * (a !!! j)).
  { intros j Hj. pose proof (column_votes D a vecs j Ha Hall Hj) as Hv.
    apply lt_INR in Hmaj. rewrite mult_INR in Hmaj. simpl in Hmaj. lra. }
  unfold bundle. rewrite (np_stack_hdv D) by done. simpl.
  destruct vecs as [|v vs]; [done|].
  pose proof (Forall_inv Hall) as [Hv _].
  assert (np_sum_axis0 (v :: vs)
          = (λ j, Rsum ((λ u : ndarray, u !!! j) <$> v :: vs)) <$> seq 0 D)
    as -> by (unfold np_sum_axis0; by rewrite Hv).
  rewrite <- !list_fmap_compose.
  assert (existsb (λ z : bool, z)
            ((λ x, bool_decide (x = 0))
               ∘ (λ j, Rsum ((λ u : ndarray, u !!! j) <$> v :: vs))
               <$> seq 0 D) = false) as ->.
  { apply not_true_is_false. intros Hex.
    apply existsb_exists in Hex as (z & Hin & ->).
    apply list_elem_of_In, list_elem_of_fmap in Hin as (j & Hz & Hj).
    apply elem_of_seq in Hj. symmetry in Hz.
    apply bool_decide_eq_true_1 in Hz.
    specialize (Hcol j ltac:(lia)).
    rewrite (Hz : Rsum ((λ u : ndarray, u !!! j) <$> v :: vs) = 0) in Hcol.
    lra. }
  f_equal. f_equal. destruct Ha as [Hlen Hbip].
  rewrite <- (fmap_seq_lookup_total a), Hlen at 1.
  apply list_fmap_ext. intros i j Hj. apply lookup_seq in Hj as [-> Hj].
  simpl. apply np_sign_majority.
  - by apply (hdv_lookup D); [split|].
  - by apply Hcol.
Qed.

Lemma similarity_majority (D : nat) (a b : ndarray) :
  hdv D a → hdv D b → a ≠ b → similarity a a > similarity a b.
Proof.
  intros [Hla Ha] [Hlb Hb] Hne.
  assert (0 < length a)%nat as Hpos.
  { destruct a, b; simpl in *; try done; lia. }
  rewrite similarity_self_bipolar by done.
  rewrite similarity_bipolar by (done || lia).
  pose proof (dot_bipolar_lt a b Ha Hb ltac:(lia) Hne) as Hlt.
  assert (0 < INR (length a)) as HD by (apply lt_0_INR; lia).
  apply Rlt_gt. apply Rmult_lt_reg_r with (INR (length a)); [done|].
  unfold Rdiv. rewrite Rmult_assoc, Rinv_l by lra. lra.
Qed.

(** C4.  For distinct bipolar vectors [a] and [b] of one dimension,
    [bundle(a, a, b)] is strictly closer to [a] than to [b]; and so is the
    bundle of any inputs of that dimension among which [a] occurs more than
    half of the time. *)
Theorem bundle_closer_to_majority (D : nat) (a b : ndarray)
    (g : RandomState) :
  hdv D a → hdv D b → a ≠ b →
  (∃ r g', bundle [a; a; b] g = Ok (r, g') ∧
           similarity r a > similarity r b) ∧
  (∀ vecs : list ndarray,
     Forall (hdv D) vecs →
     (length vecs < 2 * length (filter (λ u, u = a) vecs))%nat →
     ∃ r g', bundle vecs g = Ok (r, g') ∧ similarity r a > similarity r b).
Proof.
  intros Ha Hb Hne.
  assert (Hgen : ∀ vecs : list ndarray,
     Forall (hdv D) vecs →
     (length vecs < 2 * length (filter (λ u, u = a) vecs))%nat →
     ∃ r g', bundle vecs g = Ok (r, g') ∧ similarity r a > similarity r b).
  { intros vecs Hall Hmaj. exists a, g.
    split; [by apply (bundle_majority D)|]. by apply (similarity_majority D). }
  split; [|exact Hgen]. apply Hgen.
  - by repeat apply Forall_cons_2.
  - rewrite !filter_cons, filter_nil.
    rewrite !decide_True by done. rewrite decide_False by done. simpl. lia.
Qed.

(** ** Density peaks *)

Lemma filter_or_perm {A} (P Q : A → Prop) `{!∀ x, Decision (P x)}
    `{!∀ x, Decision (Q x)} (l : list A) :
  (∀ x, x ∈ l → P x → Q x → False) →
  filter (λ x, P x ∨ Q x) l ≡ₚ filter P l ++ filter Q l.
Proof.
  induction l as [|x l IH]; intros Hdisj; [done|].
  rewrite !filter_cons.
  assert (IH' : filter (λ x, P x ∨ Q x) l ≡ₚ filter P l ++ filter Q l)
    by (apply IH; intros y Hy; apply Hdisj; by right).
  pose proof (Hdisj x ltac:(left)) as Hx.
  repeat case_decide; try prop_tauto.
  - simpl. by rewrite IH'.
  - rewrite IH'. by rewrite Permutation_middle.
Qed.

Lemma lookup_total_out_of_range (used : list bool) (j : nat) :
  (length used <= j)%nat → used !!! j = true.
Proof.
  intros Hj. by rewrite list_lookup_total_alt, lookup_ge_None_2.
Qed.

Lemma length_mark (used : list bool) (js : list nat) :
  length (mark used js) = length used.
Proof.
  revert used. induction js as [|j js IH]; intros used; [done|].
  simpl. unfold mark in IH. by rewrite IH, length_insert.
Qed.

Lemma mark_lookup_total (used : list bool) (js : list nat) (j : nat) :
  mark used js !!! j = true ↔ used !!! j = true ∨ j ∈ js.
Proof.
  revert used. induction js as [|i js IH]; intros used; simpl.
  - split; [by left|]. intros [?|Hin]; [done|]. by apply elem_of_nil in Hin.
  - unfold mark in IH. rewrite IH, list_lookup_total_insert.
    rewrite elem_of_cons. case_decide as Hi.
    + destruct Hi as [-> _]. prop_tauto.
    + split; [prop_tauto|]. intros [?|[->|?]]; [by left| |by right].
      left. destruct (decide (i < length used)%nat); [prop_tauto|].
      apply lookup_total_out_of_range. lia.
Qed.

Lemma filter_all {A} (P : A → Prop) `{!∀ x, Decision (P x)} (l : list A) :
  (∀ x, P x) → filter P l = l.
Proof.
  intros HP. induction l as [|x l IH]; [done|].
  by rewrite filter_cons, decide_True, IH.
Qed.

Lemma filter_ext_all {A} (P : A → Prop) `{!∀ x, Decision (P x)} (l : list A) :
  (∀ x, x ∈ l → P x) → filter P l = l.
Proof.
  induction l as [|x l IH]; intros HP; [done|].
  rewrite filter_cons, decide_True by (apply HP; by left).
  f_equal. apply IH. intros y Hy. apply HP. by right.
Qed.

Lemma filter_none {A} (P : A → Prop) `{!∀ x, Decision (P x)} (l : list A) :
  (∀ x, x ∈ l → ¬ P x) → filter P l = [].
Proof.
  induction l as [|x l IH]; intros HP; [done|].
  rewrite filter_cons, decide_False by (apply HP; by left).
  apply IH. intros y Hy. apply HP. by right.
Qed.

Lemma concat_singletons {A B} (g : A → B) (l : list A) :
  concat ((λ x, [g x]) <$> l) = g <$> l.
Proof. induction l as [|x l IH]; [done|]. cbn. by f_equal. Qed.

Section PeakInvariant.

Variable f : ParticleField.
Variable free : list nat.
Variable sim : list (list R).
Variable densities : ndarray.
Variable min_distance : R.

(** A seed of positive density is within [min_distance] of itself. *)
Hypothesis seed_near_itself :
  ∀ idx d, densities !! idx = Some d → 0 < d →
           min_distance <= (sim !!! idx) !!! idx.

(** The particles marked used. *)
Definition taken (used : list bool) : list nat :=
  (free !!!.) <$> filter (λ j, used !!! j = true) (seq 0 (length free)).

(** The peaks hold exactly the particles marked used. *)
Definition peaks_cover (st : list DensityPeak * list bool) : Prop :=
  length st.2 = length free ∧
  concat (contributing_particles <$> st.1) ≡ₚ taken st.2.

Lemma taken_mark (Q : nat → Prop) `{!∀ j, Decision (Q j)}
    (used : list bool) :
  (∀ j, Q j → used !!! j = false) →
  taken (mark used (filter Q (seq 0 (length free))))
  ≡ₚ taken used ++ ((free !!!.) <$> filter Q (seq 0 (length free))).
Proof.
  intros HQ. unfold taken. rewrite <- fmap_app. apply fmap_Permutation.
  rewrite <- filter_or_perm.
  - erewrite filter_ext_elem; [reflexivity|]. intros j Hj. simpl.
    rewrite mark_lookup_total, list_elem_of_filter.
    clear float_sub min_distance seed_near_itself. tauto.
  - intros j _ Hu Hq. apply HQ in Hq. congruence.
Qed.

Lemma peak_step_cover (st : list DensityPeak * list bool) :
  peaks_cover st →
  match peak_step f free sim densities min_distance st with
  | Break st' | Continue st' => peaks_cover st'
  end.
Proof.
  destruct st as [peaks used]. intros [Hlen Hperm]. simpl in *.
  unfold peak_step.
  destruct (ext_le0 _) eqn:Hle; [by split|].
  destruct (masked_of densities used !!! np_argmax (masked_of densities used))
    as [|d] eqn:Hm; [discriminate|].
  simpl in Hle. apply bool_decide_eq_false_1 in Hle.
  apply masked_Fin in Hm as [Hu Hd].
  set (idx := np_argmax (masked_of densities used)) in *.
  unfold collect. rewrite collect_spec by apply NoDup_seq.
  set (S := filter (sel sim min_distance idx used) (seq 0 (length free))).
  assert (idx ∈ S) as Hidx.
  { apply list_elem_of_filter. split.
    - split; [by apply lookup_total_false|].
      eapply seed_near_itself; [done|lra].
    - apply elem_of_seq. apply lookup_lt_Some in Hu. lia. }
  assert (peaks_cover
            (peaks ++ [{| peak_position := position (f !!! (free !!! idx));
                          density := densities !!! idx;
                          contributing_particles := (free !!!.) <$> S |}],
             mark used S)) as Hcover.
  { split; simpl.
    - by rewrite length_mark.
    - rewrite fmap_app, concat_app. simpl. rewrite app_nil_r.
      rewrite Hperm. symmetry. apply taken_mark. by intros j [? _]. }
  destruct ((free !!!.) <$> S) as [|c cs] eqn:HS.
  { apply fmap_nil_inv in HS. rewrite HS in Hidx.
    by apply elem_of_nil in Hidx. }
  by destruct (forallb _ _).
Qed.

Lemma peak_loop_cover (st : list DensityPeak * list bool) :
  peaks_cover st →
  peaks_cover (peak_loop f free sim densities min_distance st).
Proof.
  remember (unused st.2) as m eqn:Hm. revert st Hm.
  induction m as [m IH] using lt_wf_ind. intros st -> Hst.
  rewrite peak_loop_eq.
  pose proof (peak_step_cover st Hst) as Hstep.
  destruct (peak_step f free sim densities min_distance st) as [st'|st']
    eqn:Hs; [done|].
  eapply IH; [|done..]. by eapply peak_step_continue.
Qed.

Lemma orphan_spec (js : list nat) :
  NoDup js → ∀ peaks used,
  foldl (orphan_body f free densities) (peaks, used) js =
    (peaks ++ ((λ j, {| peak_position := position (f !!! (free !!! j));
                        density := densities !!! j;
                        contributing_particles := [free !!! j] |})
                 <$> filter (λ j, used !!! j = false) js),
     mark used (filter (λ j, used !!! j = false) js)).
Proof.
  induction 1 as [|j js Hj Hjs IH]; intros peaks used; simpl.
  - by rewrite app_nil_r.
  - assert (Hext : filter (λ i, <[j := true]> used !!! i = false) js
                   = filter (λ i, used !!! i = false) js).
    { apply filter_ext_elem. intros i Hi.
      rewrite list_lookup_total_insert_ne; [done|]. intros ->. done. }
    rewrite filter_cons. destruct (used !!! j) eqn:Huj; simpl.
    + by rewrite IH.
    + rewrite IH, Hext. by rewrite <- app_assoc.
Qed.

Lemma orphan_pass_cover (st : list DensityPeak * list bool) :
  peaks_cover st →
  concat (contributing_particles <$> (orphan_pass f free densities st).1)
  ≡ₚ free.
Proof.
  destruct st as [peaks used]. intros [Hlen Hperm]. simpl in *.
  unfold orphan_pass. rewrite orphan_spec by apply NoDup_seq. simpl.
  rewrite fmap_app, concat_app, <- list_fmap_compose.
  change (contributing_particles ∘ _) with (λ j, [free !!! j]).
  rewrite (concat_singletons (λ j, free !!! j)).
  rewrite Hperm. unfold taken. rewrite <- fmap_app.
  transitivity ((free !!!.) <$> seq 0 (length free));
    [|by rewrite fmap_seq_lookup_total].
  apply fmap_Permutation. rewrite <- filter_or_perm.
  - rewrite filter_all; [done|]. intros j. destruct (used !!! j); auto.
  - intros j _ Hu Hq. congruence.
Qed.

End PeakInvariant.

Lemma dot_zeros_l (row charges : ndarray) :
  Forall (λ x, x = 0) row → dot row charges = 0.
Proof.
  intros Hrow. revert charges. unfold dot, Rsum.
  induction Hrow as [|x row -> Hrow IH]; intros [|c charges]; simpl;
    try done.
  rewrite IH. lra.
Qed.

(** *** The peaks partition the free particles *)

Lemma free_particles_lt (f : ParticleField) (p : nat) :
  p ∈ free_particles f → (p < length f)%nat ∧ frozen (f !!! p) = false.
Proof.
  unfold free_particles. rewrite list_elem_of_filter, elem_of_seq. intros [? ?].
  split; [lia|done].
Qed.

Lemma NoDup_free_particles (f : ParticleField) : NoDup (free_particles f).
Proof. apply NoDup_filter, NoDup_seq. Qed.

Lemma taken_initial (free : list nat) :
  taken free (replicate (length free) false) = [].
Proof.
  unfold taken. rewrite filter_none; [done|].
  intros j Hj. apply elem_of_seq in Hj.
  by rewrite lookup_total_replicate_2 by lia.
Qed.

Lemma elem_of_concat {A} (ls : list (list A)) (x : A) :
  x ∈ concat ls ↔ ∃ l, l ∈ ls ∧ x ∈ l.
Proof.
  induction ls as [|l ls IH]; simpl.
  - split; [by intros ?%elem_of_nil|]. by intros (l & ?%elem_of_nil & _).
  - rewrite elem_of_app, IH. split.
    + intros [Hx|(l' & Hl' & Hx)]; [exists l|exists l'];
        (split; [|done]); [by left|by right].
    + intros (l' & Hl' & Hx). apply elem_of_cons in Hl' as [->|Hl'];
        [by left|right; by exists l'].
Qed.

Lemma NoDup_concat_unique {A} (ls : list (list A)) (k1 k2 : nat)
    (l1 l2 : list A) (x : A) :
  NoDup (concat ls) → ls !! k1 = Some l1 → ls !! k2 = Some l2 →
  x ∈ l1 → x ∈ l2 → k1 = k2.
Proof.
  revert k1 k2. induction ls as [|l ls IH]; intros k1 k2 Hnd H1 H2 Hx1 Hx2;
    [done|].
  simpl in Hnd. apply NoDup_app in Hnd as (_ & Hdisj & Hnd).
  destruct k1 as [|k1], k2 as [|k2]; simplify_eq/=; [done| | |].
  - exfalso. apply (Hdisj x Hx1). apply elem_of_concat. exists l2.
    split; [|done]. by eapply list_elem_of_lookup_2.
  - exfalso. apply (Hdisj x Hx2). apply elem_of_concat. exists l1.
    split; [|done]. by eapply list_elem_of_lookup_2.
  - f_equal. by eapply IH.
Qed.

(** C5, as the code has it.  The greedy extraction of [compute_density]
    and its pass over the orphans partition the free particles whenever
    every particle of positive density has, in the similarity matrix, a
    similarity with itself of at least [min_distance], whatever the matrix
    and the densities are otherwise: the contributor lists of the peaks are
    together a rearrangement of the free particles, every free particle is
    in the list of one peak and of no other, and no frozen particle is in
    any list.  These peaks are what [compute_density] returns when [sim] and
    [densities] are the matrix and the densities it has computed from the
    positions and the charges of the free particles.  A seed whose
    similarity with itself is below [min_distance] is marked used without a
    peak; the statement leaves such fields out. *)
Theorem compute_density_partitions_free (f : ParticleField)
    (min_distance : R) (sim : list (list R)) (densities : ndarray) :
  (∀ i d, densities !! i = Some d → 0 < d →
          min_distance <= (sim !!! i) !!! i) →
  let peaks := greedy_peaks f (free_particles f) sim densities min_distance in
  (∀ positions,
     np_stack ((λ p, position (f !!! p)) <$> free_particles f)
     = Ok positions →
     sim = sim_matrix positions →
     densities = densities_of sim ((λ p, charge (f !!! p)) <$> free_particles f) →
     compute_density f min_distance = Ok peaks) ∧
  concat (contributing_particles <$> peaks) ≡ₚ free_particles f ∧
  (∀ p, p ∈ free_particles f →
        ∃ k peak, peaks !! k = Some peak ∧
                  p ∈ contributing_particles peak ∧
                  ∀ k' peak', peaks !! k' = Some peak' →
                              p ∈ contributing_particles peak' → k' = k) ∧
  (∀ p peak, p ∈ frozen_particles f → peak ∈ peaks →
             p ∉ contributing_particles peak).
Proof.
  intros Hseed peaks.
  split.
  { intros positions Hstack -> ->. unfold compute_density.
    destruct (free_particles f) as [|p0 free0] eqn:Hfree; [discriminate|].
    rewrite Hstack. reflexivity. }
  assert (concat (contributing_particles <$> peaks) ≡ₚ free_particles f)
    as Hperm.
  { unfold peaks, greedy_peaks.
    apply orphan_pass_cover, (peak_loop_cover f (free_particles f) sim).
    - exact Hseed.
    - split; simpl; [by rewrite length_replicate|].
      by rewrite taken_initial. }
  split; [done|].
  assert (NoDup (concat (contributing_particles <$> peaks))) as Hnd
    by (rewrite Hperm; apply NoDup_free_particles).
  split.
  - intros p Hp. rewrite <- Hperm in Hp.
    apply elem_of_concat in Hp as (l & Hl & Hpl).
    apply list_elem_of_fmap in Hl as (peak & -> & Hpeak).
    apply list_elem_of_lookup in Hpeak as [k Hk].
    exists k, peak. split; [done|]. split; [done|].
    intros k' peak' Hk' Hp'.
    eapply (NoDup_concat_unique _ k' k _ _ p Hnd);
      rewrite ?list_lookup_fmap, ?Hk, ?Hk'; done.
  - intros p peak Hfrozen Hpeak Hp.
    assert (p ∈ free_particles f) as Hfree.
    { rewrite <- Hperm. apply elem_of_concat.
      exists (contributing_particles peak). split; [|done].
      apply list_elem_of_fmap. by exists peak. }
    apply free_particles_lt in Hfree as [_ Hfree].
    apply list_elem_of_filter in Hfrozen as [Hfrozen _]. congruence.
Qed.

(** ** Empty input *)

(** C6.  [compute_density] returns the empty list for a field without free
    particles, [nucleate] returns the empty list when there is no peak, and
    [crystallize] returns the empty list for an empty list of nuclei; none
    raises, and [crystallize] does not enter its loop. *)
Theorem empty_propagates :
  (∀ (f : ParticleField) (min_distance : R),
     free_particles f = [] → compute_density f min_distance = Ok []) ∧
  (∀ (f : ParticleField) (codebook : Codebook) (min_density_distance : R),
     compute_density f min_density_distance = Ok [] →
     nucleate f codebook min_density_distance = Ok ([], f)) ∧
  (∀ (fuel : nat) (f : ParticleField) (codebook : Codebook)
     (cooling_rate min_temperature : R) (max_crystals : Z),
     crystallize fuel f [] codebook cooling_rate min_temperature max_crystals
     = Some ([], f)).
Proof.
  split_and!.
  - intros f md Hfree. unfold compute_density. by rewrite Hfree.
  - intros f cb md Hcd. unfold nucleate. by rewrite Hcd.
  - done.
Qed.

(** ** Frozen particles *)

Lemma length_freeze (f : ParticleField) (p : nat) :
  length (freeze f p) = length f.
Proof. apply length_alter. Qed.

Lemma frozen_freeze (f : ParticleField) (p i : nat) :
  frozen (freeze f p !!! i) = true ↔
  frozen (f !!! i) = true ∨ (i = p ∧ (p < length f)%nat).
Proof.
  unfold freeze. rewrite list_lookup_total_alter. case_decide as Hp; simpl.
  - destruct Hp as [-> Hp]. split; [by right|done].
  - split; [by left|]. intros [?|[-> ?]]; [done|]. prop_tauto.
Qed.

Lemma frozen_foldl_freeze (ps : list nat) (f : ParticleField) (i : nat) :
  frozen (foldl freeze f ps !!! i) = true ↔
  frozen (f !!! i) = true ∨ (i ∈ ps ∧ (i < length f)%nat).
Proof.
  revert f. induction ps as [|p ps IH]; intros f; simpl.
  - split; [by left|]. intros [?|[?%elem_of_nil _]]; done.
  - rewrite IH, frozen_freeze, length_freeze, elem_of_cons. split.
    + intros [[?|[-> ?]]|[? ?]]; [by left|right|right]; prop_tauto.
    + intros [?|[[->|?] ?]]; [left; by left|left; by right|by right].
Qed.

Lemma length_foldl_freeze (ps : list nat) (f : ParticleField) :
  length (foldl freeze f ps) = length f.
Proof.
  revert f. induction ps as [|p ps IH]; intros f; [done|].
  simpl. by rewrite IH, length_freeze.
Qed.

Lemma foldl_freeze_concat {A} (g : A → list nat) (l : list A)
    (f : ParticleField) :
  foldl (λ f x, foldl freeze f (g x)) f l = foldl freeze f (concat (g <$> l)).
Proof.
  revert f. induction l as [|x l IH]; intros f; [done|].
  simpl. by rewrite IH, foldl_app.
Qed.

Lemma all_frozen_lookup (f : ParticleField) :
  all_frozen f ↔ ∀ i, (i < length f)%nat → frozen (f !!! i) = true.
Proof.
  unfold all_frozen. rewrite Forall_lookup. split.
  - intros Hall i Hi. destruct (lookup_lt_is_Some_2 f i Hi) as [p Hp].
    rewrite (list_lookup_total_correct _ _ _ Hp). by eapply Hall.
  - intros Hall i p Hp. rewrite <- (list_lookup_total_correct _ _ _ Hp).
    apply Hall. by eapply lookup_lt_Some.
Qed.

Lemma free_particles_elem (f : ParticleField) (i : nat) :
  i ∈ free_particles f ↔ (i < length f)%nat ∧ frozen (f !!! i) = false.
Proof.
  unfold free_particles. rewrite list_elem_of_filter, elem_of_seq.
  split; intros [? ?]; split; (done || lia).
Qed.

Lemma all_frozen_no_free (f : ParticleField) :
  all_frozen f ↔ free_particles f = [].
Proof.
  rewrite all_frozen_lookup. split.
  - intros Hall. apply filter_none. intros i Hi%elem_of_seq.
    rewrite Hall by lia. done.
  - intros Hfree i Hi. destruct (frozen (f !!! i)) eqn:Hfr; [done|].
    assert (i ∈ free_particles f) as Hin by by apply free_particles_elem.
    rewrite Hfree in Hin. by apply elem_of_nil in Hin.
Qed.

Lemma stable_insert_perm {A} (before : A → A → bool) (x : A) (l : list A) :
  stable_insert before x l ≡ₚ x :: l.
Proof.
  induction l as [|y l IH]; [done|]. simpl.
  destruct (before y x); [|done]. rewrite IH. apply Permutation_swap.
Qed.

Lemma stable_sort_perm {A} (before : A → A → bool) (l : list A) :
  stable_sort before l ≡ₚ l.
Proof.
  induction l as [|x l IH]; [done|]. simpl.
  by rewrite stable_insert_perm, IH.
Qed.

(** ** Crystallization leaves no particle free *)

Lemma _merge_nearby_nuclei_cons (thr : R) (ni : CrystalNucleus)
    (rest : list CrystalNucleus) :
  _merge_nearby_nuclei thr (ni :: rest)
  = (merge_scan thr ni rest).1
    :: _merge_nearby_nuclei thr (merge_scan thr ni rest).2.
Proof.
  rewrite _merge_nearby_nuclei_equation_2.
  unfold _merge_nearby_nuclei_unfold_clause_2.
  generalize (inspect (merge_scan thr ni rest)).
  intros [[ni' rest'] Hscan]. simpl. by rewrite Hscan.
Qed.

Lemma _force_merge_small_eq (max_crystals : Z)
    (nuclei : list CrystalNucleus) :
  _force_merge_small max_crystals nuclei =
    match force_merge_step max_crystals nuclei with
    | Break nuclei' => nuclei'
    | Continue nuclei' => _force_merge_small max_crystals nuclei'
    end.
Proof.
  rewrite _force_merge_small_equation_1.
  unfold _force_merge_small_unfold_clause_1.
  generalize (inspect (force_merge_step max_crystals nuclei)).
  intros [[nuclei'|nuclei'] Hstep]; simpl; by rewrite Hstep.
Qed.

Lemma _merge_nearby_nuclei_nonempty (thr : R) (nuclei : list CrystalNucleus) :
  nuclei ≠ [] → _merge_nearby_nuclei thr nuclei ≠ [].
Proof.
  destruct nuclei as [|ni rest]; [done|]. intros _.
  by rewrite _merge_nearby_nuclei_cons.
Qed.

Lemma absorb_pass_length (temperature : R) (free : list nat)
    (nuclei : list CrystalNucleus) (f : ParticleField) (rng : RandomState) :
  length (absorb_pass temperature free nuclei f rng).1.1 = length nuclei.
Proof.
  unfold absorb_pass.
  enough (∀ acc : list CrystalNucleus * ParticleField * RandomState,
            length (foldl (λ '(done, f, rng) nucleus,
                             let '(nucleus', f', rng') :=
                               foldl (absorb_body temperature)
                                     (nucleus, f, rng) free in
                             (done ++ [nucleus'], f', rng'))
                          acc nuclei).1.1
            = (length acc.1.1 + length nuclei)%nat) as Hgen
    by (by rewrite Hgen).
  induction nuclei as [|nucleus nuclei IH]; intros [[done f0] rng0]; simpl;
    [lia|].
  destruct (foldl (absorb_body temperature) (nucleus, f0, rng0) free)
    as [[nucleus' f'] rng'].
  rewrite IH. simpl. rewrite length_app. simpl. lia.
Qed.

Lemma cooling_loop_nonempty (fuel : nat) (cooling_rate min_temperature : R)
    (temperature : R) (nuclei nuclei' : list CrystalNucleus)
    (f f' : ParticleField) (rng : RandomState) :
  cooling_loop fuel cooling_rate min_temperature temperature nuclei f rng
  = Some (nuclei', f') →
  nuclei ≠ [] → nuclei' ≠ [].
Proof.
  revert temperature nuclei f rng.
  induction fuel as [|fuel IH]; intros temperature nuclei f rng; simpl.
  - case_decide; [destruct (free_particles f)|]; by intros [= <- <-].
  - case_decide; [destruct (free_particles f) as [|p free]|];
      try by intros [= <- <-].
    pose proof (absorb_pass_length temperature (p :: free) nuclei f rng)
      as Hlen.
    destruct (absorb_pass temperature (p :: free) nuclei f rng)
      as [[nuclei1 f1] rng1]. simpl in Hlen.
    intros Hloop Hne. eapply IH; [exact Hloop|].
    apply _merge_nearby_nuclei_nonempty. intros ->. by destruct nuclei.
Qed.

(** A frozen field stops the absorption loop before its first iteration,
    whatever the temperatures and the fuel. *)
Lemma cooling_loop_all_frozen (fuel : nat) (cooling_rate min_temperature : R)
    (temperature : R) (nuclei : list CrystalNucleus) (f : ParticleField)
    (rng : RandomState) :
  all_frozen f →
  cooling_loop fuel cooling_rate min_temperature temperature nuclei f rng
  = Some (nuclei, f).
Proof.
  intros Hfree%all_frozen_no_free.
  destruct fuel; simpl; rewrite Hfree; by case_decide.
Qed.

Lemma residual_fold_spec (ps : list nat) :
  ∀ (nuclei : list CrystalNucleus) (f : ParticleField),
    nuclei ≠ [] →
    ∀ i, frozen ((foldl residual_body (nuclei, f) ps).2 !!! i) = true ↔
         frozen (f !!! i) = true ∨ (i ∈ ps ∧ (i < length f)%nat).
Proof.
  induction ps as [|p ps IH]; intros nuclei f Hne i; simpl.
  - split; [by left|]. intros [?|[?%elem_of_nil _]]; done.
  - rewrite (bool_decide_eq_false_2 (nuclei = [])) by done.
    rewrite andb_true_r. destruct (frozen (f !!! p)) eqn:Hp; simpl.
    + rewrite IH by done. rewrite elem_of_cons. split.
      * intros [?|[? ?]]; [by left|right; prop_tauto].
      * intros [?|[[->|?] ?]]; [by left|by left|right; prop_tauto].
    + rewrite IH.
      * rewrite frozen_freeze, length_freeze, elem_of_cons. split.
        -- intros [[?|[-> ?]]|[? ?]]; [by left|right|right]; prop_tauto.
        -- intros [?|[[->|?] ?]]; [left; by left|left; by right|by right].
      * intros Hnil. apply (f_equal length) in Hnil.
        rewrite length_alter in Hnil. by destruct nuclei.
Qed.

Lemma residual_fold_length (ps : list nat) :
  ∀ (nuclei : list CrystalNucleus) (f : ParticleField),
    length (foldl residual_body (nuclei, f) ps).2 = length f.
Proof.
  induction ps as [|p ps IH]; intros nuclei f; simpl; [done|].
  destruct (negb (frozen (f !!! p)) && _); [|done].
  by rewrite IH, length_freeze.
Qed.

Lemma residual_pass_all_frozen (nuclei : list CrystalNucleus)
    (f : ParticleField) :
  nuclei ≠ [] → all_frozen (residual_pass nuclei f).2.
Proof.
  intros Hne. apply all_frozen_lookup. intros i Hi.
  unfold residual_pass in *. rewrite residual_fold_length in Hi.
  apply residual_fold_spec; [done|].
  destruct (frozen (f !!! i)) eqn:Hfr; [by left|right].
  split; [|done]. by apply free_particles_elem.
Qed.

(** When every cooling step lowers the temperature by at least [delta], the
    absorption loop ends: it returns once it has fuel for the iterations
    that take the temperature down to the minimum. *)
Lemma cooling_loop_terminates (cooling_rate min_temperature delta hi : R) :
  0 < delta →
  (∀ t, min_temperature < t → t <= hi →
        float_sub t cooling_rate <= t - delta) →
  ∀ (fuel : nat) (temperature : R) (nuclei : list CrystalNucleus)
    (f : ParticleField) (rng : RandomState),
    temperature <= hi →
    temperature - INR fuel * delta <= min_temperature →
    is_Some (cooling_loop fuel cooling_rate min_temperature temperature
                          nuclei f rng).
Proof.
  intros Hdelta Hsub. induction fuel as [|fuel IH];
    intros temperature nuclei f rng Hhi Hfuel; simpl.
  - simpl in Hfuel. rewrite decide_False by lra. done.
  - case_decide as Ht; [|done].
    destruct (free_particles f) as [|p free]; [done|].
    destruct (absorb_pass temperature (p :: free) nuclei f rng)
      as [[nuclei1 f1] rng1].
    pose proof (Hsub temperature Ht Hhi) as Hstep.
    apply IH; [lra|]. rewrite S_INR in Hfuel. lra.
Qed.

Lemma crystallize_returns (fuel : nat) (f : ParticleField)
    (nuclei : list CrystalNucleus) (codebook : Codebook)
    (cooling_rate min_temperature : R) (max_crystals : Z) (delta : R) :
  0 < delta →
  (∀ t, min_temperature < t → t <= 1.0 →
        float_sub t cooling_rate <= t - delta) →
  1.0 - INR fuel * delta <= min_temperature →
  ∃ crystals f2,
    crystallize fuel f nuclei codebook cooling_rate min_temperature
                max_crystals = Some (crystals, f2).
Proof.
  intros Hdelta Hsub Hfuel. unfold crystallize.
  destruct nuclei as [|n0 nuclei]; [by eexists _, _|].
  destruct (cooling_loop_terminates cooling_rate min_temperature delta 1.0
              Hdelta Hsub fuel 1.0 (_merge_nearby_nuclei 0.15 (n0 :: nuclei))
              f (RandomState_seeded 42) ltac:(lra) Hfuel)
    as [[nuclei1 f1] ->].
  cbn [mbind option_bind].
  destruct (residual_pass nuclei1 f1) as [nuclei2 f2]. by eexists _, _.
Qed.


(** * Further properties of the code *)

(** ** Cosine similarity *)

Lemma Rsum_app (a b : ndarray) : Rsum (a ++ b) = Rsum a + Rsum b.
Proof. induction a as [|x a IH]; simpl; [lra|]. rewrite IH. lra. Qed.

Lemma dot_comm (a b : ndarray) : dot a b = dot b a.
Proof.
  unfold dot. revert b.
  induction a as [|x a IH]; intros [|y b]; simpl; try done.
  rewrite IH. lra.
Qed.

Lemma dot_self_nonneg (a : ndarray) : 0 <= dot a a.
Proof. unfold dot. induction a as [|x a IH]; simpl; [lra|]. nra. Qed.

(** The Cauchy-Schwarz inequality, also for arrays of different lengths,
    where [zip_with] stops at the shorter one. *)
Lemma cauchy_schwarz (a b : ndarray) :
  dot a b * dot a b <= dot a a * dot b b.
Proof.
  revert b. induction a as [|x a IH]; intros [|y b].
  - unfold dot; simpl; lra.
  - unfold dot; simpl; lra.
  - pose proof (dot_self_nonneg (x :: a)). unfold dot in *; simpl in *; lra.
  - specialize (IH b).
    pose proof (dot_self_nonneg a) as Ha. pose proof (dot_self_nonneg b) as Hb.
    unfold dot in *. simpl.
    set (S := Rsum (zip_with Rmult a b)) in *.
    set (A := Rsum (zip_with Rmult a a)) in *.
    set (B := Rsum (zip_with Rmult b b)) in *.
    clearbody S A B.
    assert (2 * (x * y) * S <= x * x * B + y * y * A) as Hmix.
    { destruct (Rle_dec (2 * (x * y) * S) 0) as [Hneg|Hpos]; [nra|].
      apply Rnot_le_lt in Hpos.
      assert (0 <= x * x * B + y * y * A) as Hnn by nra.
      apply Rnot_lt_le. intros Hlt.
      assert ((x * x * B + y * y * A) * (x * x * B + y * y * A)
              < (2 * (x * y) * S) * (2 * (x * y) * S)) as Hsq by nra.
      assert (4 * (x * x) * (y * y) * (S * S)
              <= 4 * (x * x) * (y * y) * (A * B)) as Hs.
      { apply Rmult_le_compat_l; [nra|done]. }
      pose proof (Rle_0_sqr (x * x * B - y * y * A)) as Hd. unfold Rsqr in Hd.
      nra. }
    nra.
Qed.

Lemma dot_le_norms (a b : ndarray) : Rabs (dot a b) <= norm a * norm b.
Proof.
  unfold norm. rewrite <- sqrt_mult by apply dot_self_nonneg.
  rewrite <- sqrt_Rsqr_abs. apply sqrt_le_1_alt. unfold Rsqr.
  apply cauchy_schwarz.
Qed.

Lemma norm_nonneg (a : ndarray) : 0 <= norm a.
Proof. apply sqrt_pos. Qed.

Lemma similarity_le_1 (a b : ndarray) : -1 <= similarity a b <= 1.
Proof.
  unfold similarity. cbv zeta. case_decide as Hz; [lra|].
  pose proof (norm_nonneg a). pose proof (norm_nonneg b).
  assert (0 < norm a * norm b) as Hpos by (apply Rmult_lt_0_compat; lra).
  pose proof (dot_le_norms a b) as Hcs.
  assert (- (norm a * norm b) <= dot a b <= norm a * norm b) as Hb.
  { unfold Rabs in Hcs. destruct (Rcase_abs (dot a b)); lra. }
  split.
  - apply Rmult_le_reg_r with (norm a * norm b); [done|].
    unfold Rdiv. rewrite Rmult_assoc, Rinv_l by lra. lra.
  - apply Rmult_le_reg_r with (norm a * norm b); [done|].
    unfold Rdiv. rewrite Rmult_assoc, Rinv_l by lra. lra.
Qed.

(** X1: on two arrays of one length the cosine similarity does not depend
    on the order of its arguments; an array of norm zero has similarity 0
    with every array, where a division by zero would be; and the similarity
    never has the sign opposite to that of the dot product. *)
Theorem similarity_symmetric (a b : ndarray) :
  length a = length b →
  similarity a b = similarity b a ∧
  (norm a = 0 ∨ norm b = 0 → similarity a b = 0) ∧
  (0 < similarity a b → 0 < dot a b) ∧
  (similarity a b < 0 → dot a b < 0).
Proof.
  intros _. split_and!.
  - unfold similarity. cbv zeta. rewrite (dot_comm a b).
    rewrite (Rmult_comm (norm a)).
    destruct (decide (norm a = 0 ∨ norm b = 0)),
             (decide (norm b = 0 ∨ norm a = 0)); try done; prop_tauto.
  - intros Hz. unfold similarity. cbv zeta. by rewrite decide_True.
  - unfold similarity. cbv zeta. case_decide as Hz; [lra|].
    pose proof (norm_nonneg a). pose proof (norm_nonneg b).
    assert (0 < norm a * norm b) as Hpos by (apply Rmult_lt_0_compat; lra).
    intros Hs. destruct (Rle_or_lt (dot a b) 0) as [Hle|]; [|done].
    assert (dot a b / (norm a * norm b) <= 0); [|lra].
    unfold Rdiv. apply Rinv_0_lt_compat in Hpos. nra.
  - unfold similarity. cbv zeta. case_decide as Hz; [lra|].
    pose proof (norm_nonneg a). pose proof (norm_nonneg b).
    assert (0 < norm a * norm b) as Hpos by (apply Rmult_lt_0_compat; lra).
    intros Hs. destruct (Rle_or_lt 0 (dot a b)) as [Hle|]; [|done].
    assert (0 <= dot a b / (norm a * norm b)); [|lra].
    unfold Rdiv. apply Rinv_0_lt_compat in Hpos. nra.
Qed.

(** ** Cyclic permutation *)

Lemma length_permute (v : ndarray) (shift : Z) :
  length (permute v shift) = length v.
Proof. unfold permute. by rewrite length_fmap, length_seq. Qed.

Lemma permute_lookup_total (v : ndarray) (shift : Z) (i : nat) :
  (i < length v)%nat →
  permute v shift !!! i
  = v !!! Z.to_nat ((Z.of_nat i - shift) `mod` Z.of_nat (length v)).
Proof.
  intros Hi. unfold permute. cbv zeta.
  rewrite (list_lookup_total_fmap _ (seq 0 (length v)) i)
    by (by rewrite length_seq).
  by rewrite lookup_total_seq_lt.
Qed.

Lemma permute_ext (v w : ndarray) (shift : Z) :
  length w = length v →
  (∀ i, (i < length v)%nat →
        w !!! i
        = v !!! Z.to_nat ((Z.of_nat i - shift) `mod` Z.of_nat (length v))) →
  w = permute v shift.
Proof.
  intros Hlen Hw. apply list_eq_same_length with (length v);
    [by rewrite length_permute|done|].
  intros i x y Hi Hx Hy.
  apply list_lookup_total_correct in Hx, Hy.
  rewrite <- Hx, <- Hy, Hw, permute_lookup_total; done.
Qed.

Lemma permute_0 (v : ndarray) : permute v 0 = v.
Proof.
  symmetry. apply permute_ext; [done|]. intros i Hi.
  rewrite Z.sub_0_r, Z.mod_small by lia. by rewrite Nat2Z.id.
Qed.

Lemma permute_permute (v : ndarray) (s t : Z) :
  permute (permute v s) t = permute v (s + t).
Proof.
  apply permute_ext.
  - by rewrite !length_permute.
  - intros i Hi.
    assert (0 < Z.of_nat (length v))%Z as Hn by lia.
    pose proof (Z.mod_pos_bound (Z.of_nat i - t) _ Hn) as Hb.
    rewrite permute_lookup_total by (by rewrite length_permute).
    rewrite length_permute. rewrite permute_lookup_total by lia.
    f_equal. f_equal.
    rewrite Z2Nat.id by lia.
    rewrite Zminus_mod_idemp_l. f_equal. lia.
Qed.

(** [np.roll] as a rotation of the list. *)
Lemma permute_rotate (v : ndarray) (shift : Z) :
  let k := Z.to_nat ((- shift) `mod` Z.of_nat (length v)) in
  permute v shift = drop k v ++ take k v.
Proof.
  intros k. symmetry.
  destruct (decide (length v = 0%nat)) as [H0|H0].
  { apply length_zero_iff_nil in H0. subst v. by rewrite drop_nil, take_nil. }
  assert (0 < Z.of_nat (length v))%Z as Hn by lia.
  pose proof (Z.mod_pos_bound (- shift) _ Hn) as Hb.
  assert (k < length v)%nat as Hk by (unfold k; lia).
  apply permute_ext.
  - rewrite length_app, length_drop, length_take. lia.
  - intros i Hi.
    assert ((Z.of_nat i - shift) `mod` Z.of_nat (length v)
            = (Z.of_nat i + Z.of_nat k) `mod` Z.of_nat (length v))%Z as ->.
    { unfold k. rewrite Z2Nat.id by lia.
      rewrite Zplus_mod_idemp_r. f_equal; lia. }
    destruct (decide (i + k < length v)%nat) as [Hlt|Hge].
    + rewrite lookup_total_app_l by (rewrite length_drop; lia).
      rewrite lookup_total_drop.
      rewrite Z.mod_small by lia. f_equal. lia.
    + rewrite lookup_total_app_r by (rewrite length_drop; lia).
      rewrite length_drop, lookup_total_take_lt by lia.
      assert ((Z.of_nat i + Z.of_nat k) `mod` Z.of_nat (length v)
              = Z.of_nat i + Z.of_nat k - Z.of_nat (length v))%Z as ->.
      { symmetry. apply Zmod_unique with 1%Z; lia. }
      f_equal. lia.
Qed.

Lemma dot_app (a1 a2 b1 b2 : ndarray) :
  length a1 = length b1 →
  dot (a1 ++ a2) (b1 ++ b2) = dot a1 b1 + dot a2 b2.
Proof.
  intros Hlen. unfold dot. rewrite zip_with_app by done. apply Rsum_app.
Qed.

Lemma dot_permute (a b : ndarray) (shift : Z) :
  length a = length b → dot (permute a shift) (permute b shift) = dot a b.
Proof.
  intros Hlen. rewrite !permute_rotate. rewrite <- Hlen.
  set (k := Z.to_nat _).
  rewrite dot_app by (rewrite !length_drop; lia).
  rewrite <- (take_drop k a) at 3. rewrite <- (take_drop k b) at 3.
  rewrite dot_app by (rewrite !length_take; lia). lra.
Qed.

Lemma permute_bipolar (v : ndarray) (shift : Z) :
  Forall bipolar v → Forall bipolar (permute v shift).
Proof.
  intros Hv. rewrite permute_rotate. apply Forall_app. split.
  - by apply Forall_drop.
  - by apply Forall_take.
Qed.

Lemma permute_hdv (D : nat) (v : ndarray) (shift : Z) :
  hdv D v → hdv D (permute v shift).
Proof.
  intros [Hlen Hv]. split; [by rewrite length_permute|by apply permute_bipolar].
Qed.

(** X2: cyclic shifts compose by adding the shifts and the shift by 0 changes
    nothing, so [permute(., -s)] undoes [permute(., s)]; the length is kept. *)
Theorem permute_round_trip (v : ndarray) (s t : Z) :
  permute (permute v s) t = permute v (s + t) ∧
  permute (permute v s) (- s) = v ∧
  length (permute v s) = length v.
Proof.
  split; [apply permute_permute|]. split; [|apply length_permute].
  rewrite permute_permute, Z.add_opp_diag_r. apply permute_0.
Qed.

(** X3: shifting two arrays of one length by the same amount keeps their
    cosine similarity. *)
Theorem permute_preserves_similarity (a b : ndarray) (shift : Z) :
  length a = length b →
  similarity (permute a shift) (permute b shift) = similarity a b.
Proof.
  intros Hlen. unfold similarity, norm.
  by rewrite !dot_permute.
Qed.

(** ** Binding *)

Lemma dot_bind (a b c : ndarray) :
  Forall bipolar c → length a = length c → length b = length c →
  dot (bind a c) (bind b c) = dot a b.
Proof.
  intros Hc. revert a b.
  induction Hc as [|z c Hz Hc IH]; intros [|x a] [|y b] Ha Hb;
    simplify_eq/=; [done|].
  unfold dot, bind in *. simpl. rewrite IH by done.
  apply bipolar_sqr in Hz.
  replace (x * z * (y * z)) with (x * y * (z * z)) by ring. rewrite Hz. lra.
Qed.

(** X4: binding two arrays with the same bipolar key keeps their cosine
    similarity. *)
Theorem bind_preserves_similarity (a b c : ndarray) :
  Forall bipolar c → length a = length c → length b = length c →
  similarity (bind a c) (bind b c) = similarity a b.
Proof.
  intros Hc Ha Hb. unfold similarity, norm.
  by rewrite !dot_bind.
Qed.

(** ** Bundling *)

Lemma np_sign_bipolar (x : R) : x ≠ 0 → bipolar (np_sign x).
Proof.
  intros Hx. unfold np_sign, bipolar. repeat case_decide; [by left|by right|lra].
Qed.

Lemma assign_masked_nonzero (s r : ndarray) :
  Forall bipolar r →
  (length (filter (λ b : bool, b = true)
                  ((λ x : R, bool_decide (x = 0%R)) <$> s))
   <= length r)%nat →
  length (assign_masked s ((λ x : R, bool_decide (x = 0)) <$> s) r)
  = length s ∧
  Forall (λ x : R, x ≠ 0)
         (assign_masked s ((λ x : R, bool_decide (x = 0)) <$> s) r).
Proof.
  revert r. induction s as [|x s IH]; intros r Hr Hlen; [done|].
  rewrite fmap_cons in *. rewrite filter_cons in Hlen.
  destruct (decide (x = 0)) as [Hx|Hx].
  - rewrite bool_decide_eq_true_2 in * by done.
    rewrite decide_True in Hlen by done. simpl in Hlen.
    destruct r as [|y r]; [simpl in Hlen; lia|].
    apply Forall_cons in Hr as [Hy Hr].
    destruct (IH r Hr ltac:(simpl in Hlen; lia)) as [IH1 IH2].
    simpl. split; [by rewrite IH1|].
    apply Forall_cons. split; [|done]. destruct Hy; lra.
  - rewrite bool_decide_eq_false_2 in * by done.
    rewrite decide_False in Hlen by done.
    destruct (IH r Hr Hlen) as [IH1 IH2].
    simpl. split; [by rewrite IH1|].
    apply Forall_cons. by split.
Qed.

Lemma length_np_sum_axis0 (v : ndarray) (vs : list ndarray) :
  length (np_sum_axis0 (v :: vs)) = length v.
Proof. unfold np_sum_axis0. by rewrite length_fmap, length_seq. Qed.

Lemma bundle_stacked (v : ndarray) (vs : list ndarray) (g : RandomState) :
  np_stack (v :: vs) = Ok (v :: vs) →
  ∃ w g', bundle (v :: vs) g = Ok (w, g') ∧ hdv (length v) w.
Proof.
  intros Hst. unfold bundle. rewrite Hst. cbn [mbind result_bind].
  pose proof (length_np_sum_axis0 v vs) as Hs.
  set (s := np_sum_axis0 (v :: vs)) in *. clearbody s.
  destruct (existsb _ _) eqn:Hex.
  - set (k := length _).
    destruct (choice_ok (Z.of_nat k) g ltac:(lia)) as (r & g' & -> & Hr1 & Hr2).
    cbn [mbind result_bind]. eexists _, _. split; [done|].
    destruct (assign_masked_nonzero s r Hr2) as [Hl Hnz].
    { rewrite Hr1. fold k. lia. }
    split.
    + by rewrite length_fmap, Hl.
    + apply Forall_fmap. eapply Forall_impl; [exact Hnz|].
      intros x Hx. by apply np_sign_bipolar.
  - eexists _, _. split; [done|]. split; [by rewrite length_fmap|].
    apply Forall_fmap, Forall_forall. intros x Hx. simpl.
    apply np_sign_bipolar. intros ->.
    apply not_true_iff_false in Hex. apply Hex.
    apply existsb_exists. exists true. split; [|done].
    apply list_elem_of_In, list_elem_of_fmap. exists 0. split; [|done].
    by rewrite bool_decide_eq_true_2.
Qed.

(** X5: [bundle] returns exactly when its inputs stack, that is, when there
    is at least one and all have one length; the result then has that length
    and every entry of it is -1 or +1, whatever real entries the inputs
    have.  Without inputs, or with inputs of different lengths, it raises
    [ValueError]. *)
Theorem bundle_bipolar_or_raises (vecs : list ndarray) (g : RandomState) :
  match np_stack vecs with
  | Ok _ =>
      ∃ w g', bundle vecs g = Ok (w, g') ∧
              hdv (length (vecs !!! 0%nat)) w
  | Raise e => bundle vecs g = Raise e
  end.
Proof.
  destruct (np_stack vecs) as [m|e] eqn:Hst.
  - destruct vecs as [|v vs]; [discriminate|].
    assert (m = v :: vs) as ->.
    { unfold np_stack in Hst. case_decide; by simplify_eq. }
    by apply bundle_stacked.
  - unfold bundle. by rewrite Hst.
Qed.

(** ** The cache and the cleanup memory *)

Lemma elem_of_memory_items (cb : Codebook) (s : string) (l : loc) :
  (s, l) ∈ memory_items cb ↔ _memory cb !! s = Some l.
Proof.
  unfold memory_items. rewrite stable_sort_perm. apply elem_of_map_to_list.
Qed.

Lemma length_memory_items (cb : Codebook) :
  length (memory_items cb) = size (_memory cb).
Proof.
  unfold memory_items. rewrite stable_sort_perm. apply length_map_to_list.
Qed.

(** The loop of [cleanup] stops at the first entry of maximal similarity,
    unless no entry beats the initial score. *)
Lemma cleanup_fold_spec (h : heap) (v : ndarray) (l : list (string * loc)) :
  ∀ (a0 : string) (b0 : R),
    (foldl (cleanup_body h v) (a0, b0) l = (a0, b0) ∧
     Forall (λ y, similarity v (h !!! y.2) <= b0) l) ∨
    (∃ l1 x l2,
        l = l1 ++ x :: l2 ∧
        foldl (cleanup_body h v) (a0, b0) l
        = (x.1, similarity v (h !!! x.2)) ∧
        b0 < similarity v (h !!! x.2) ∧
        Forall (λ y, similarity v (h !!! y.2) < similarity v (h !!! x.2)) l1 ∧
        Forall (λ y, similarity v (h !!! y.2) <= similarity v (h !!! x.2)) l2).
Proof.
  induction l as [|[sym loc] l IH]; intros a0 b0; [by left|].
  cbn [foldl cleanup_body].
  destruct (decide (b0 < similarity v (h !!! loc))) as [Hlt|Hge].
  - right. destruct (IH sym (similarity v (h !!! loc)))
      as [[Hr Hall]|(l1 & x & l2 & -> & Hr & Hx & H1 & H2)].
    + exists [], (sym, loc), l. by split_and!.
    + exists ((sym, loc) :: l1), x, l2. split_and!; try done.
      * lra.
      * by constructor.
  - destruct (IH a0 b0)
      as [[Hr Hall]|(l1 & x & l2 & -> & Hr & Hx & H1 & H2)].
    + left. split; [done|]. constructor; [simpl; lra|done].
    + right. exists ((sym, loc) :: l1), x, l2. split_and!; try done.
      constructor; [simpl; lra|done].
Qed.

Lemma cleanup_spec (cb : Codebook) (h : heap) (v : ndarray) :
  (∀ s l, _memory cb !! s = Some l →
          similarity v (h !!! l) <= (cleanup cb h v).2) ∧
  (cleanup cb h v = ("", -1) ∨
   ∃ l, _memory cb !! (cleanup cb h v).1 = Some l ∧
        (cleanup cb h v).2 = similarity v (h !!! l)).
Proof.
  unfold cleanup.
  destruct (cleanup_fold_spec h v (memory_items cb) "" (-1))
    as [[Hr Hall]|(l1 & x & l2 & Hl & Hr & Hx & H1 & H2)]; rewrite Hr.
  - split; [|by left]. intros s l Hs. simpl.
    apply elem_of_memory_items in Hs.
    eapply Forall_forall in Hall; [|exact Hs]. done.
  - split.
    + intros s l Hs. simpl. apply elem_of_memory_items in Hs.
      rewrite Hl in Hs. apply elem_of_app in Hs as [Hs|Hs].
      * eapply Forall_forall in H1; [|exact Hs]. simpl in H1. lra.
      * apply elem_of_cons in Hs as [Heq|Hs]; [subst x; simpl; lra|].
        eapply Forall_forall in H2; [|exact Hs]. done.
    + right. exists x.2. split; [|done]. simpl.
      apply elem_of_memory_items. rewrite Hl. destruct x.
      apply elem_of_app. right. by left.
Qed.


Lemma similarity_1_bipolar (a b : ndarray) :
  Forall bipolar a → Forall bipolar b → length a = length b →
  (0 < length a)%nat → similarity a b = 1 → a = b.
Proof.
  intros Ha Hb Hlen Hpos Hsim.
  destruct (decide (a = b)) as [|Hne]; [done|].
  rewrite similarity_bipolar in Hsim by done.
  pose proof (dot_bipolar_lt a b Ha Hb Hlen Hne) as Hlt.
  assert (0 < INR (length a)) as Hn by (by apply lt_0_INR).
  assert (dot a b = INR (length a)) as Heq.
  { apply Rmult_eq_reg_r with (/ INR (length a)).
    - unfold Rdiv in Hsim. rewrite Hsim, Rinv_r; lra.
    - apply Rinv_neq_0_compat. lra. }
  lra.
Qed.

(** X7: for a codebook of dimension at least 1, [cleanup] of the vector of
    a cached symbol returns a cached symbol that has exactly that vector,
    together with the similarity that the vector has with itself. *)
Theorem cleanup_recovers_cached_vector (cb : Codebook) (h : heap)
    (s : string) (l : loc) :
  codebook_wf cb h → (0 < dim cb)%Z → _memory cb !! s = Some l →
  ∃ l', _memory cb !! (cleanup cb h (h !!! l)).1 = Some l' ∧
        h !!! l' = h !!! l ∧
        (cleanup cb h (h !!! l)).2 = similarity (h !!! l) (h !!! l).
Proof.
  intros [_ Hwf] Hdim Hs.
  destruct (Hwf s l Hs) as (v & Hv & Hlen & Hbip).
  rewrite (list_lookup_total_correct _ _ _ Hv).
  destruct (cleanup_spec cb h v) as [Hmax Hsym].
  pose proof (Hmax s l Hs) as Hself.
  rewrite (list_lookup_total_correct _ _ _ Hv) in Hself.
  rewrite similarity_self_bipolar by (done || lia).
  rewrite similarity_self_bipolar in Hself by (done || lia).
  destruct Hsym as [Hr|(l' & Hl' & Hr)].
  - rewrite Hr in Hself. simpl in Hself. lra.
  - exists l'. destruct (Hwf _ l' Hl') as (v' & Hv' & Hlen' & Hbip').
    rewrite (list_lookup_total_correct _ _ _ Hv') in *.
    pose proof (similarity_le_1 v v') as Hle.
    assert (similarity v v' = 1) as H1 by lra.
    split; [done|]. split; [|lra].
    symmetry. apply similarity_1_bipolar; try done; lia.
Qed.

(** *** Sorting *)

Lemma stable_insert_sorted {A} (key : A → R) (x : A) (l : list A) :
  StronglySorted (λ a b, key a <= key b) l →
  StronglySorted (λ a b, key a <= key b)
    (stable_insert (λ a b, bool_decide (key a < key b)) x l).
Proof.
  induction 1 as [|y l Hl IH Hy]; simpl.
  - repeat constructor.
  - case_bool_decide as Hlt.
    + constructor; [done|].
      rewrite stable_insert_perm. constructor; [lra|done].
    + constructor; [by constructor|].
      constructor; [lra|].
      eapply Forall_impl; [exact Hy|]. simpl. intros z Hz. lra.
Qed.

Lemma stable_sort_sorted {A} (key : A → R) (l : list A) :
  StronglySorted (λ a b, key a <= key b)
    (stable_sort (λ a b, bool_decide (key a < key b)) l).
Proof.
  induction l as [|x l IH]; simpl; [constructor|].
  by apply stable_insert_sorted.
Qed.


Lemma StronglySorted_weaken {A} (R1 R2 : A → A → Prop) (l : list A) :
  (∀ a b, R1 a b → R2 a b) → StronglySorted R1 l → StronglySorted R2 l.
Proof.
  intros HR. induction 1 as [|x l Hl IH Hx]; constructor; [done|].
  eapply Forall_impl; [exact Hx|]. apply HR.
Qed.





(** X10: [encode] never touches what the cache already holds: after any
    [encode], a symbol that was cached before has the same array with the
    same contents. *)
Theorem encode_keeps_cached_vectors (cb cb' : Codebook) (h h' : heap)
    (s s' : string) (l l' : loc) :
  codebook_wf cb h → encode cb s' h = Ok (l', cb', h') →
  _memory cb !! s = Some l →
  _memory cb' !! s = Some l ∧ h' !! l = h !! l ∧
  (length h <= length h')%nat.
Proof.
  intros [Hd Hwf] He Hs. unfold encode in He.
  destruct (_memory cb !! s') as [l0|] eqn:Hs'.
  - by simplify_eq.
  - destruct (choice_ok (dim cb) (RandomState_seeded
        (Z.land (Z.lxor (sha256_le64 s') (seed cb)) 0xFFFFFFFF)) Hd)
      as (w & rng' & Hc & _).
    rewrite Hc in He. cbn [mbind result_bind] in He. simplify_eq.
    destruct (Hwf s l Hs) as (u & Hu & _).
    split_and!.
    + simpl. rewrite lookup_insert_ne; [done|]. intros ->. congruence.
    + apply (lookup_app_l_Some _ [w]) in Hu as Hu'. congruence.
    + rewrite length_app. lia.
Qed.

(** ** Phrases *)

Lemma encode_words_ok (words : list string) :
  ∀ (cb : Codebook) (i : Z) (h : heap),
    codebook_wf cb h →
    ∃ ps cb' h',
      encode_words cb words i h = Ok (ps, cb', h') ∧
      length ps = length words ∧
      Forall (hdv (Z.to_nat (dim cb))) ps ∧
      dim cb' = dim cb ∧ codebook_wf cb' h'.
Proof.
  induction words as [|w words IH]; intros cb i h Hwf.
  - exists [], cb, h. by split_and!.
  - destruct (encode_ok cb (str_lower w) h Hwf)
      as (l & cb1 & h1 & v & He & _ & Hd1 & Hv & Hhdv & Hwf1).
    destruct (IH cb1 (i + 1)%Z h1 Hwf1)
      as (ps & cb2 & h2 & Hw & Hlen & Hps & Hd2 & Hwf2).
    cbn [encode_words]. rewrite He. cbn [mbind result_bind].
    rewrite Hw. cbn [mbind result_bind].
    eexists _, _, _. split; [done|]. split_and!.
    + simpl. by rewrite Hlen.
    + constructor.
      * rewrite (list_lookup_total_correct _ _ _ Hv). by apply permute_hdv.
      * by rewrite <- Hd1.
    + congruence.
    + done.
Qed.

Lemma similarity_zeros_l (D : nat) (u : ndarray) :
  similarity (replicate D 0) u = 0.
Proof.
  unfold similarity. cbv zeta. rewrite decide_True; [done|].
  left. unfold norm. rewrite dot_zeros_l; [apply sqrt_0|].
  apply Forall_replicate. done.
Qed.

(** X11: on a codebook in a state between calls, [encode_phrase] returns
    for every phrase, and returns an array of the dimension of the codebook.
    For a phrase with at least one word every entry of it is -1 or +1.  For
    a phrase without words it is the zero array, which has similarity 0 with
    every array, and neither the cache nor the generator is touched. *)
Theorem encode_phrase_dimension (cb : Codebook) (phrase : string)
    (h : heap) (g : RandomState) :
  codebook_wf cb h →
  ∃ v cb' h' g',
    encode_phrase cb phrase h g = Ok (v, cb', h', g') ∧
    length v = Z.to_nat (dim cb) ∧ codebook_wf cb' h' ∧
    match str_split (str_strip phrase) with
    | [] => v = replicate (Z.to_nat (dim cb)) 0 ∧
            (∀ u, similarity v u = 0) ∧ cb' = cb ∧ h' = h ∧ g' = g
    | _ :: _ => Forall bipolar v
    end.
Proof.
  intros Hwf. unfold encode_phrase.
  destruct (str_split (str_strip phrase)) as [|w words].
  - unfold np_zeros. destruct Hwf as [Hd Hmem].
    rewrite decide_False by lia. cbn [mbind result_bind].
    eexists _, _, _, _. split; [done|]. split_and!; try done.
    + by rewrite length_replicate.
    + intros u. apply similarity_zeros_l.
  - destruct (encode_words_ok (w :: words) cb 0 h Hwf)
      as (ps & cb' & h' & -> & Hlen & Hps & Hd & Hwf').
    cbn [mbind result_bind].
    destruct ps as [|p ps]; [done|].
    pose proof (Forall_inv Hps) as [Hp _].
    destruct (bundle_stacked p ps g) as (v & g' & -> & Hlv & Hv).
    { by apply (np_stack_hdv (Z.to_nat (dim cb))). }
    cbn [mbind result_bind].
    eexists _, _, _, _. split; [done|]. split_and!; try done.
    by rewrite Hlv.
Qed.

(** X12: a phrase of one word is encoded as that word in lower case: the
    result is the vector [encode] gives for it, and the generator is not
    used. *)
Theorem encode_phrase_single_word (cb : Codebook) (phrase w : string)
    (h : heap) (g : RandomState) :
  codebook_wf cb h → str_split (str_strip phrase) = [w] →
  ∃ l cb' h',
    encode cb (str_lower w) h = Ok (l, cb', h') ∧
    encode_phrase cb phrase h g = Ok (h' !!! l, cb', h', g).
Proof.
  intros Hwf Hw. unfold encode_phrase. rewrite Hw.
  destruct (encode_ok cb (str_lower w) h Hwf)
    as (l & cb1 & h1 & v & He & _ & Hd1 & Hv & Hhdv & Hwf1).
  exists l, cb1, h1. split; [done|].
  cbn [encode_words]. rewrite He. cbn [mbind result_bind].
  rewrite permute_0, (list_lookup_total_correct _ _ _ Hv).
  rewrite (bundle_majority (Z.to_nat (dim cb)) v [v] g); try done.
  - by constructor.
  - rewrite filter_cons, decide_True by done. simpl. lia.
Qed.

(** ** Cooling the field *)

Lemma length_cool_particle (rate : R) (f : ParticleField) (p : nat) :
  length (cool_particle rate f p) = length f.
Proof. unfold cool_particle. apply length_alter. Qed.

Lemma frozen_cool_particle (rate : R) (f : ParticleField) (p i : nat) :
  frozen (cool_particle rate f p !!! i) = frozen (f !!! i).
Proof.
  unfold cool_particle. rewrite list_lookup_total_alter.
  case_decide as Hp; [|done]. by destruct Hp as [-> _].
Qed.

Lemma free_particles_ext (f f' : ParticleField) :
  length f' = length f → (∀ i, frozen (f' !!! i) = frozen (f !!! i)) →
  free_particles f' = free_particles f.
Proof.
  intros Hlen Hfr. unfold free_particles. rewrite Hlen.
  apply filter_ext_elem. intros i _. by rewrite Hfr.
Qed.

Lemma foldl_cool_spec (rate : R) (ps : list nat) :
  NoDup ps → ∀ (f : ParticleField) (i : nat),
    length (foldl (cool_particle rate) f ps) = length f ∧
    frozen (foldl (cool_particle rate) f ps !!! i) = frozen (f !!! i) ∧
    (i ∉ ps → foldl (cool_particle rate) f ps !!! i = f !!! i) ∧
    (i ∈ ps → (i < length f)%nat →
     temperature (foldl (cool_particle rate) f ps !!! i)
     = Rmax 0 (temperature (f !!! i) - rate)).
Proof.
  induction 1 as [|p ps Hp Hps IH]; intros f i; simpl.
  - split_and!; try done. by intros ?%elem_of_nil.
  - destruct (IH (cool_particle rate f p) i) as (IH1 & IH2 & IH3 & IH4).
    rewrite length_cool_particle in *. rewrite frozen_cool_particle in IH2.
    split_and!; try done.
    + intros Hi. apply not_elem_of_cons in Hi as [Hne Hi].
      rewrite IH3 by done. unfold cool_particle.
      by rewrite list_lookup_total_alter_ne.
    + intros Hi Hlt. apply elem_of_cons in Hi as [->|Hi].
      * rewrite IH3 by done. unfold cool_particle.
        by rewrite list_lookup_total_alter_eq.
      * rewrite IH4 by done. unfold cool_particle.
        rewrite list_lookup_total_alter_ne; [done|]. by intros ->.
Qed.

Lemma Rsum_nonneg (l : ndarray) : Forall (λ x, 0 <= x) l → 0 <= Rsum l.
Proof. induction 1; simpl; lra. Qed.

(** X13: [cool] replaces the temperature of every free particle by
    [max(0, temperature - rate)] and leaves every frozen particle as it is;
    which particles are free does not change, and the temperature of the
    field afterwards is never negative, whatever the rate. *)
Theorem cool_floors_at_zero (f : ParticleField) (rate : R) :
  free_particles (cool f rate) = free_particles f ∧
  (∀ i, i ∈ free_particles f →
        temperature (cool f rate !!! i)
        = Rmax 0 (temperature (f !!! i) - rate)) ∧
  (∀ i, i ∉ free_particles f → cool f rate !!! i = f !!! i) ∧
  0 <= field_temperature (cool f rate).
Proof.
  pose proof (foldl_cool_spec rate (free_particles f)
                (NoDup_free_particles f) f) as Hspec.
  assert (free_particles (cool f rate) = free_particles f) as Hfree.
  { apply free_particles_ext; [apply Hspec, 0%nat|]. intros i. apply Hspec. }
  assert (∀ i, i ∈ free_particles f →
               temperature (cool f rate !!! i)
               = Rmax 0 (temperature (f !!! i) - rate)) as Htemp.
  { intros i Hi. apply Hspec; [done|].
    by apply free_particles_elem in Hi as [? _]. }
  split_and!; try done.
  - intros i Hi. by apply Hspec.
  - unfold field_temperature. rewrite Hfree.
    destruct (free_particles f) as [|p ps] eqn:Hps; [lra|].
    unfold np_mean. apply Rmult_le_pos.
    + apply Rsum_nonneg, Forall_fmap, Forall_forall. intros i Hi. simpl.
      rewrite Htemp by done. apply Rmax_l.
    + apply Rlt_le, Rinv_0_lt_compat, lt_0_INR.
      rewrite length_fmap. simpl. lia.
Qed.

(** ** The properties of a nucleus *)

(** The emotional intensity of a nucleus is a fraction between 0 and 1, and
    0 for a nucleus that has absorbed nothing. *)
Lemma emotional_intensity_is_fraction (f : ParticleField)
    (nucleus : CrystalNucleus) :
  0 <= emotional_intensity f nucleus <= 1 ∧
  (nucleus_size nucleus = 0%nat → emotional_intensity f nucleus = 0).
Proof.
  unfold emotional_intensity, nucleus_size.
  destruct (absorbed_particles nucleus) as [|p ps]; [split; [lra|done]|].
  split; [|done].
  set (l := p :: ps).
  assert (0 < INR (length l)) as Hpos by (apply lt_0_INR; simpl; lia).
  pose proof (length_filter (λ p, category (f !!! p) = EMOTION) l) as Hle.
  apply le_INR in Hle.
  pose proof (pos_INR (length (filter (λ p, category (f !!! p) = EMOTION) l))).
  split.
  - apply Rmult_le_pos; [done|]. by apply Rlt_le, Rinv_0_lt_compat.
  - apply Rmult_le_reg_r with (INR (length l)); [done|].
    unfold Rdiv. rewrite Rmult_assoc, Rinv_l by lra. lra.
Qed.

(** ** Peaks of any field *)

Section PeakSound.

Variable f : ParticleField.
Variable free : list nat.
Variable sim : list (list R).
Variable densities : ndarray.
Variable min_distance : R.

(** The peaks hold particles marked used, none of them twice, and no peak is
    empty. *)
Definition peaks_sound (st : list DensityPeak * list bool) : Prop :=
  length st.2 = length free ∧
  Forall (λ peak, contributing_particles peak ≠ []) st.1 ∧
  ∃ js, NoDup js ∧
        (∀ j, j ∈ js → st.2 !!! j = true ∧ (j < length free)%nat) ∧
        concat (contributing_particles <$> st.1) = (free !!!.) <$> js.

Lemma peaks_sound_extend (peaks : list DensityPeak) (used : list bool)
    (peak : DensityPeak) (S : list nat) :
  peaks_sound (peaks, used) →
  NoDup S → (∀ j, j ∈ S → used !!! j = false ∧ (j < length free)%nat) →
  contributing_particles peak = (free !!!.) <$> S → S ≠ [] →
  peaks_sound (peaks ++ [peak], mark used S).
Proof.
  intros (Hlen & Hne & js & Hjs & Hused & Hcat) HS HSu Hpeak HSne.
  simpl in *. split_and!; simpl.
  - by rewrite length_mark.
  - apply Forall_app. split; [done|]. constructor; [|done].
    rewrite Hpeak. intros Hnil. by apply fmap_nil_inv in Hnil.
  - exists (js ++ S). split_and!.
    + apply NoDup_app. split_and!; [done| |done].
      intros j Hj HjS. apply Hused in Hj as [Hj _].
      apply HSu in HjS as [HjS _]. congruence.
    + intros j Hj. apply elem_of_app in Hj as [Hj|Hj].
      * apply Hused in Hj as [Hj ?]. split; [|done].
        apply mark_lookup_total. by left.
      * split; [|by apply HSu]. apply mark_lookup_total. by right.
    + rewrite fmap_app, concat_app, Hcat, fmap_app. simpl.
      by rewrite app_nil_r, Hpeak.
Qed.

Lemma peak_step_sound (st : list DensityPeak * list bool) :
  peaks_sound st →
  match peak_step f free sim densities min_distance st with
  | Break st' | Continue st' => peaks_sound st'
  end.
Proof.
  destruct st as [peaks used]. intros Hst.
  unfold peak_step.
  destruct (ext_le0 _) eqn:Hle; [done|].
  set (idx := np_argmax (masked_of densities used)) in *.
  unfold collect. rewrite collect_spec by apply NoDup_seq.
  set (S := filter (sel sim min_distance idx used) (seq 0 (length free))).
  assert (NoDup S) as HS by apply NoDup_filter, NoDup_seq.
  assert (∀ j, j ∈ S → used !!! j = false ∧ (j < length free)%nat) as HSu.
  { intros j Hj. apply list_elem_of_filter in Hj as [[Hu _] Hj].
    apply elem_of_seq in Hj. split; [done|lia]. }
  simpl. destruct ((free !!!.) <$> S) as [|c cs] eqn:Hc.
  - apply fmap_nil_inv in Hc. rewrite Hc. simpl.
    destruct Hst as (Hlen & Hne & js & Hjs & Hused & Hcat). simpl in *.
    split_and!; simpl; [by rewrite length_insert|done|].
    exists js. split_and!; [done| |done].
    intros j Hj. apply Hused in Hj as [Hj ?]. split; [|done].
    rewrite list_lookup_total_insert. case_decide; [done|done].
  - assert (peaks_sound
              (peaks ++ [{| peak_position := position (f !!! (free !!! idx));
                            density := densities !!! idx;
                            contributing_particles := c :: cs |}],
               mark used S)) as Hnew.
    { apply peaks_sound_extend; try done.
      intros ->. discriminate. }
    by destruct (forallb _ _).
Qed.

Lemma peak_loop_sound (st : list DensityPeak * list bool) :
  peaks_sound st →
  peaks_sound (peak_loop f free sim densities min_distance st).
Proof.
  remember (unused st.2) as m eqn:Hm. revert st Hm.
  induction m as [m IH] using lt_wf_ind. intros st -> Hst.
  rewrite peak_loop_eq.
  pose proof (peak_step_sound st Hst) as Hstep.
  destruct (peak_step f free sim densities min_distance st) as [st'|st']
    eqn:Hs; [done|].
  eapply IH; [|done..]. by eapply peak_step_continue.
Qed.

Lemma orphan_body_sound (st : list DensityPeak * list bool) (j : nat) :
  (j < length free)%nat → peaks_sound st →
  peaks_sound (orphan_body f free densities st j).
Proof.
  destruct st as [peaks used]. intros Hj Hst. unfold orphan_body.
  destruct (used !!! j) eqn:Hu; simpl; [done|].
  change (<[j:=true]> used) with (mark used [j]).
  apply peaks_sound_extend; try done.
  - apply NoDup_singleton.
  - by intros ? ->%list_elem_of_singleton.
Qed.

Lemma orphan_pass_sound (st : list DensityPeak * list bool) :
  peaks_sound st → peaks_sound (orphan_pass f free densities st).
Proof.
  unfold orphan_pass.
  assert (Forall (λ j, j < length free)%nat (seq 0 (length free))) as Hall.
  { apply Forall_forall. intros j Hj. apply elem_of_seq in Hj. lia. }
  revert st. induction Hall as [|j js Hj Hjs IH]; intros st Hst; [done|].
  simpl. apply IH. by apply orphan_body_sound.
Qed.

End PeakSound.

Lemma compute_density_peaks_sound (f : ParticleField) (min_distance : R)
    (peaks : list DensityPeak) :
  compute_density f min_distance = Ok peaks →
  NoDup (concat (contributing_particles <$> peaks)) ∧
  (∀ p, p ∈ concat (contributing_particles <$> peaks) →
        p ∈ free_particles f) ∧
  Forall (λ peak, contributing_particles peak ≠ []) peaks.
Proof.
  unfold compute_density.
  destruct (free_particles f) as [|p0 free0] eqn:Hfree.
  { intros [= <-]. simpl. split_and!; [constructor| |done].
    by intros p ?%elem_of_nil. }
  rewrite <- Hfree.
  destruct (np_stack _) as [positions|e]; [|discriminate].
  cbn [mbind result_bind]. intros [= <-]. unfold greedy_peaks.
  set (sim := sim_matrix positions).
  set (densities := densities_of sim _).
  destruct (orphan_pass_sound f (free_particles f) densities
              (peak_loop f (free_particles f) sim densities min_distance
                 ([], replicate (length (free_particles f)) false)))
    as (_ & Hne & js & Hjs & Hused & Hcat).
  { apply peak_loop_sound. split_and!; simpl.
    - by rewrite length_replicate.
    - done.
    - exists []. split_and!; [constructor| |done]. by intros j ?%elem_of_nil. }
  rewrite Hcat. split_and!; [| |done].
  - apply NoDup_fmap_2_strong; [|done].
    intros i j Hi Hj Heq. apply Hused in Hi as [_ Hi], Hj as [_ Hj].
    pose proof (NoDup_free_particles f) as Hnd.
    destruct (lookup_lt_is_Some_2 _ _ Hi) as [x Hx].
    destruct (lookup_lt_is_Some_2 _ _ Hj) as [y Hy].
    rewrite (list_lookup_total_correct _ _ _ Hx),
            (list_lookup_total_correct _ _ _ Hy) in Heq. subst y.
    by eapply NoDup_lookup.
  - intros p Hp. apply list_elem_of_fmap in Hp as (j & -> & Hj).
    apply Hused in Hj as [_ Hj]. by apply list_elem_of_lookup_total_2.
Qed.

(** X15: whatever the positions and charges of the particles are, the peaks
    that [compute_density] returns hold only particles that are free, no
    particle is in two peaks or twice in one, and every peak holds at least
    one particle. *)
Theorem compute_density_peaks_disjoint (f : ParticleField) (min_distance : R)
    (peaks : list DensityPeak) :
  compute_density f min_distance = Ok peaks →
  NoDup (concat (contributing_particles <$> peaks)) ∧
  (∀ p, p ∈ concat (contributing_particles <$> peaks) →
        p ∈ free_particles f) ∧
  Forall (λ peak, contributing_particles peak ≠ []) peaks.
Proof. apply compute_density_peaks_sound. Qed.

(** ** What freezing leaves unchanged *)

Lemma frozen_or_same_refl (p : Particle) : frozen_or_same p p.
Proof. by repeat split. Qed.

Lemma frozen_or_same_trans (p q r : Particle) :
  frozen_or_same p q → frozen_or_same q r → frozen_or_same p r.
Proof.
  unfold frozen_or_same. intros (?&?&?&?&?&?&?) (?&?&?&?&?&?&?).
  split_and!; try congruence. auto.
Qed.

Lemma only_freezes_refl (f : ParticleField) : only_freezes f f.
Proof. apply Forall2_same_length_lookup_2; [done|].
  intros i p q Hp Hq. simplify_eq. apply frozen_or_same_refl.
Qed.

Lemma only_freezes_trans (f g k : ParticleField) :
  only_freezes f g → only_freezes g k → only_freezes f k.
Proof.
  unfold only_freezes. intros Hfg. revert k.
  induction Hfg as [|p q f g Hpq Hfg IH]; intros k Hgk.
  - by apply Forall2_nil_inv_l in Hgk as ->.
  - apply Forall2_cons_inv_l in Hgk as (r & k' & Hqr & Hgk & ->).
    constructor; [by eapply frozen_or_same_trans|by apply IH].
Qed.

Lemma only_freezes_freeze (f : ParticleField) (p : nat) :
  only_freezes f (freeze f p).
Proof.
  unfold only_freezes, freeze. apply Forall2_alter_r.
  - apply only_freezes_refl.
  - intros x y _ _ Hxy. unfold frozen_or_same in *. simpl. prop_tauto.
Qed.

Lemma only_freezes_foldl_freeze (ps : list nat) (f : ParticleField) :
  only_freezes f (foldl freeze f ps).
Proof.
  revert f. induction ps as [|p ps IH]; intros f; simpl.
  - apply only_freezes_refl.
  - eapply only_freezes_trans; [apply only_freezes_freeze|apply IH].
Qed.

Lemma only_freezes_length (f f' : ParticleField) :
  only_freezes f f' → length f' = length f.
Proof. intros Hf. symmetry. by eapply Forall2_length. Qed.

(** ** Nucleation on any field *)

Lemma absorbed_all_perm (nuclei nuclei' : list CrystalNucleus) :
  nuclei ≡ₚ nuclei' → absorbed_all nuclei ≡ₚ absorbed_all nuclei'.
Proof. intros Hp. unfold absorbed_all. by rewrite Hp. Qed.

Lemma nucleate_inv (f f1 : ParticleField) (codebook : Codebook)
    (min_density_distance : R) (nuclei : list CrystalNucleus) :
  nucleate f codebook min_density_distance = Ok (nuclei, f1) →
  ∃ peaks,
    compute_density f min_density_distance = Ok peaks ∧
    nuclei = stable_sort
               (λ a b, bool_decide (- strength a < - strength b))
               (nucleus_of_peak f <$> peaks) ∧
    f1 = foldl freeze f (absorbed_all nuclei).
Proof.
  unfold nucleate.
  destruct (compute_density f min_density_distance) as [peaks|e];
    [|discriminate].
  cbn [mbind result_bind]. intros He. exists peaks. split; [done|].
  destruct peaks as [|peak peaks]; injection He as <- <-.
  - done.
  - split; [done|]. unfold absorbed_all. by rewrite foldl_freeze_concat.
Qed.

(** X16: the nuclei that [nucleate] returns are ordered by strength, the
    strongest first, and each of them holds at least one particle. *)
Theorem nucleate_ordered_by_strength (f f1 : ParticleField)
    (codebook : Codebook) (min_density_distance : R)
    (nuclei : list CrystalNucleus) :
  nucleate f codebook min_density_distance = Ok (nuclei, f1) →
  StronglySorted (λ a b, strength b <= strength a) nuclei ∧
  Forall (λ nucleus, absorbed_particles nucleus ≠ []) nuclei.
Proof.
  intros (peaks & Hpeaks & -> & _)%nucleate_inv. split.
  - eapply StronglySorted_weaken;
      [|apply (stable_sort_sorted (λ a, - strength a))].
    simpl. intros; lra.
  - apply compute_density_peaks_sound in Hpeaks as (_ & _ & Hne).
    rewrite stable_sort_perm. apply Forall_fmap.
    eapply Forall_impl; [exact Hne|]. done.
Qed.

(** X17: [nucleate] changes nothing in the field except the flag [frozen],
    which it sets for exactly the particles that its nuclei hold; these were
    free before, and none of them is held twice. *)
Theorem nucleate_freezes_what_it_absorbs (f f1 : ParticleField)
    (codebook : Codebook) (min_density_distance : R)
    (nuclei : list CrystalNucleus) :
  nucleate f codebook min_density_distance = Ok (nuclei, f1) →
  only_freezes f f1 ∧
  NoDup (absorbed_all nuclei) ∧
  (∀ p, p ∈ absorbed_all nuclei → p ∈ free_particles f) ∧
  (∀ i, frozen (f1 !!! i) = true ↔
        frozen (f !!! i) = true ∨ i ∈ absorbed_all nuclei).
Proof.
  intros (peaks & Hpeaks & Hn & ->)%nucleate_inv.
  apply compute_density_peaks_sound in Hpeaks as (Hnd & Hfree & _).
  assert (absorbed_all nuclei ≡ₚ concat (contributing_particles <$> peaks))
    as Hperm.
  { rewrite Hn. rewrite (absorbed_all_perm _ _ (stable_sort_perm _ _)).
    unfold absorbed_all. by rewrite <- list_fmap_compose. }
  assert (∀ p, p ∈ absorbed_all nuclei → p ∈ free_particles f) as Hin.
  { intros p Hp. rewrite Hperm in Hp. by apply Hfree. }
  split_and!.
  - apply only_freezes_foldl_freeze.
  - by rewrite Hperm.
  - done.
  - intros i. rewrite frozen_foldl_freeze. split; [prop_tauto|].
    intros [?|Hi]; [by left|right]. split; [done|].
    by apply Hin, free_particles_elem in Hi as [? _].
Qed.

(** ** Attraction *)

Lemma _compute_attraction_similarity (f : ParticleField)
    (nucleus : CrystalNucleus) (particle : nat) :
  _compute_attraction f nucleus particle
  = let sim := similarity (center nucleus) (position (f !!! particle)) in
    if decide (sim <= 0) then 0
    else sim * (1 + total_charge f nucleus * charge (f !!! particle) * 0.01).
Proof.
  unfold _compute_attraction, similarity. cbv zeta.
  destruct (decide (norm (center nucleus) = 0
                    ∨ norm (position (f !!! particle)) = 0)); [|done].
  by rewrite decide_True by lra.
Qed.

(** X18: when the charge of the particle and the total charge of the nucleus
    do not have opposite signs, the attraction is at least the cosine
    similarity of particle and centre and never negative, and it is 0
    exactly when that similarity is not positive. *)
Theorem compute_attraction_nonnegative (f : ParticleField)
    (nucleus : CrystalNucleus) (particle : nat) :
  0 <= total_charge f nucleus * charge (f !!! particle) →
  Rmax 0 (similarity (center nucleus) (position (f !!! particle)))
  <= _compute_attraction f nucleus particle ∧
  (_compute_attraction f nucleus particle = 0 ↔
   similarity (center nucleus) (position (f !!! particle)) <= 0).
Proof.
  intros Hq. rewrite _compute_attraction_similarity. cbv zeta.
  set (sim := similarity _ _).
  set (q := total_charge f nucleus * charge (f !!! particle)) in *.
  clearbody sim q. case_decide as Hs.
  - rewrite Rmax_left by done. split; [lra|done].
  - rewrite Rmax_right by lra. split; [nra|]. split; [nra|lra].
Qed.

(** ** Merging nuclei *)

Lemma merge_scan_conserves (thr : R) (rest : list CrystalNucleus) :
  ∀ ni : CrystalNucleus,
    absorbed_particles (merge_scan thr ni rest).1
      ++ absorbed_all (merge_scan thr ni rest).2
    ≡ₚ absorbed_particles ni ++ absorbed_all rest ∧
    strength (merge_scan thr ni rest).1
      + Rsum (strength <$> (merge_scan thr ni rest).2)
    = strength ni + Rsum (strength <$> rest).
Proof.
  induction rest as [|nj rest IH]; intros ni; [done|].
  cbn [merge_scan]. case_decide.
  - destruct (IH (merge_pair ni nj)) as [IH1 IH2]. split.
    + rewrite IH1. unfold absorbed_all. rewrite fmap_cons.
      cbn [concat merge_pair absorbed_particles]. by rewrite <- app_assoc.
    + rewrite IH2, fmap_cons. cbn [Rsum foldr merge_pair strength].
      unfold Rsum. lra.
  - destruct (IH ni) as [IH1 IH2].
    destruct (merge_scan thr ni rest) as [ni' kept].
    cbn [fst snd] in *. split.
    + unfold absorbed_all in *. rewrite !fmap_cons. cbn [concat].
      rewrite !(Permutation_app_comm (absorbed_particles nj)).
      rewrite !app_assoc. by rewrite IH1.
    + rewrite !fmap_cons. cbn [Rsum foldr]. unfold Rsum in *. lra.
Qed.

Lemma merge_nearby_spec (thr : R)
    (nuclei : list CrystalNucleus) :
  absorbed_all (_merge_nearby_nuclei thr nuclei) ≡ₚ absorbed_all nuclei ∧
  Rsum (strength <$> _merge_nearby_nuclei thr nuclei)
  = Rsum (strength <$> nuclei) ∧
  (length (_merge_nearby_nuclei thr nuclei) <= length nuclei)%nat ∧
  (nuclei ≠ [] → _merge_nearby_nuclei thr nuclei ≠ []).
Proof.
  remember (length nuclei) as n eqn:Hn. revert nuclei Hn.
  induction n as [n IH] using lt_wf_ind. intros [|ni rest] ->.
  { by rewrite _merge_nearby_nuclei_equation_1. }
  rewrite _merge_nearby_nuclei_cons.
  pose proof (merge_scan_length thr ni rest) as Hlen.
  destruct (merge_scan_conserves thr rest ni) as [Hp Hs].
  destruct (IH (length (merge_scan thr ni rest).2) ltac:(simpl; lia)
              _ eq_refl) as (IH1 & IH2 & IH3 & _).
  split_and!.
  - unfold absorbed_all in *. rewrite fmap_cons. cbn [concat].
    rewrite IH1. exact Hp.
  - rewrite !fmap_cons. cbn [Rsum foldr]. unfold Rsum in *.
    rewrite IH2. exact Hs.
  - simpl. lia.
  - done.
Qed.


Lemma first_min_from_lt {A} (key : A → R) (l : list A) :
  ∀ (best_i : nat) (best : R) (i : nat),
    (best_i < i)%nat →
    (first_min_from key best_i best i l < i + length l)%nat.
Proof.
  induction l as [|x l IH]; intros best_i best i Hi; simpl; [lia|].
  case_decide.
  - specialize (IH i (key x) (S i) ltac:(lia)). lia.
  - specialize (IH best_i best (S i) ltac:(lia)). lia.
Qed.

Lemma first_min_index_lt {A} (key : A → R) (l : list A) :
  l ≠ [] → (first_min_index key l < length l)%nat.
Proof.
  destruct l as [|x l]; [done|]. intros _. unfold first_min_index.
  pose proof (first_min_from_lt key l 0 (key x) 1 ltac:(lia)). simpl. lia.
Qed.

Lemma first_max_index_lt {A} (key : A → R) (l : list A) :
  l ≠ [] → (first_max_index key l < length l)%nat.
Proof. apply first_min_index_lt. Qed.

(** The target that the search of [_force_merge_small] settles on is a
    nucleus of the list other than the weakest; while none is found the score
    to beat is still -1. *)
Lemma best_target_spec (s : nat) (smallest : CrystalNucleus)
    (nuclei : list CrystalNucleus) (jos : list (nat * CrystalNucleus)) :
  Forall (λ jo, nuclei !! jo.1 = Some jo.2) jos →
  ∀ acc : option nat * R,
    (∀ t, acc.1 = Some t → t ≠ s ∧ is_Some (nuclei !! t)) →
    (acc.1 = None → acc.2 = -1) →
    let r := foldl (best_target_body s smallest) acc jos in
    (∀ t, r.1 = Some t → t ≠ s ∧ is_Some (nuclei !! t)) ∧
    (r.1 = None → r.2 = -1) ∧
    (is_Some acc.1 → is_Some r.1) ∧
    (∀ jo, jo ∈ jos → jo.1 ≠ s →
           -1 < similarity (center smallest) (center jo.2)
                + 0.1 * strength jo.2 →
           is_Some r.1).
Proof.
  induction 1 as [|[j other] jos Hj Hjos IH]; intros acc Hacc Hnone; simpl.
  - split_and!; try done. by intros jo ?%elem_of_nil.
  - set (acc' := best_target_body s smallest acc (j, other)).
    assert ((∀ t, acc'.1 = Some t → t ≠ s ∧ is_Some (nuclei !! t)) ∧
            (acc'.1 = None → acc'.2 = -1) ∧
            (is_Some acc.1 → is_Some acc'.1) ∧
            (j ≠ s → -1 < similarity (center smallest) (center other)
                          + 0.1 * strength other → is_Some acc'.1))
      as (H1 & H2 & H3 & H4).
    { unfold acc', best_target_body. destruct acc as [bt bs]. simpl in *.
      destruct (decide (j = s)) as [->|Hne]; [by split_and!|].
      case_decide as Hlt; simpl.
      - split_and!; try done. intros t [= <-]. by split.
      - split_and!; try done. intros _ Hsc.
        destruct bt as [t|]; [done|]. rewrite Hnone in Hlt by done. lra. }
    destruct (IH acc' H1 H2) as (IH1 & IH2 & IH3 & IH4).
    split_and!; try done.
    + intros Ha. by apply IH3, H3.
    + intros jo Hjo Hne Hsc. apply elem_of_cons in Hjo as [->|Hjo].
      * apply IH3, H4; done.
      * by eapply IH4.
Qed.

Lemma best_target_initial (s : nat) (smallest : CrystalNucleus)
    (nuclei : list CrystalNucleus) (jos : list (nat * CrystalNucleus)) :
  Forall (λ jo, nuclei !! jo.1 = Some jo.2) jos →
  let r := foldl (best_target_body s smallest) (None, -1) jos in
  (∀ t, r.1 = Some t → t ≠ s ∧ is_Some (nuclei !! t)) ∧
  (∀ jo, jo ∈ jos → jo.1 ≠ s →
         -1 < similarity (center smallest) (center jo.2)
              + 0.1 * strength jo.2 →
         is_Some r.1).
Proof.
  intros Hjos.
  destruct (best_target_spec s smallest nuclei jos Hjos (None, -1))
    as (H1 & _ & _ & H4); [done..|]. by split.
Qed.

Lemma zip_seq_lookup {A} (l : list A) :
  Forall (λ jo, l !! jo.1 = Some jo.2) (zip (seq 0 (length l)) l).
Proof.
  apply Forall_forall. intros [j x] Hjx.
  apply list_elem_of_lookup in Hjx as [i Hi].
  apply lookup_zip_with_Some in Hi as (j' & x' & [= <- <-] & Hj & Hx).
  apply lookup_seq in Hj as [-> _]. done.
Qed.

Lemma alter_delete_conserves {A B} (g : A → list B) (F : A → A)
    (extra : list B) (l : list A) :
  ∀ (s t : nat) (xs xt : A),
    l !! s = Some xs → l !! t = Some xt → s ≠ t →
    g xs = extra → g (F xt) = g xt ++ extra →
    concat (g <$> delete s (alter F t l)) ≡ₚ concat (g <$> l).
Proof.
  induction l as [|y l IH]; intros s t xs xt Hs Ht Hne Hxs HF; [done|].
  destruct s as [|s], t as [|t]; simplify_eq/=.
  - clear IH. revert t xt Ht HF Hne.
    induction l as [|z l IHl]; intros [|t] xt Ht HF Hne; simplify_eq/=.
    + rewrite HF, <- app_assoc. apply Permutation_app_swap_app.
    + rewrite (IHl t xt Ht HF ltac:(done)). apply Permutation_app_swap_app.
  - rewrite HF. rewrite <- app_assoc. apply Permutation_app_head.
    clear IH HF Hne. revert s Hs.
    induction l as [|z l IHl]; intros [|s] Hs; simplify_eq/=; [done|].
    rewrite <- (IHl s Hs). apply Permutation_app_swap_app.
  - apply Permutation_app_head. apply (IH s t xs xt); try done. congruence.
Qed.

Lemma zip_seq_elem {A} (l : list A) (j : nat) (x : A) :
  l !! j = Some x → (j, x) ∈ zip (seq 0 (length l)) l.
Proof.
  intros Hj. apply list_elem_of_lookup. exists j.
  apply lookup_zip_with_Some. exists j, x. split_and!; [done| |done].
  apply lookup_seq. split; [done|]. by apply lookup_lt_Some in Hj.
Qed.

(** An iteration of [_force_merge_small] that merges moves the particles of
    the weakest nucleus into its target and removes it. *)
Lemma force_merge_step_spec (max_crystals : Z)
    (nuclei : list CrystalNucleus) :
  match force_merge_step max_crystals nuclei with
  | Break nuclei' => nuclei' = nuclei
  | Continue nuclei' =>
      (max_crystals < Z.of_nat (length nuclei))%Z ∧
      (2 <= length nuclei)%nat ∧
      absorbed_all nuclei' ≡ₚ absorbed_all nuclei ∧
      S (length nuclei') = length nuclei ∧
      (Forall (λ n, 0 < strength n) nuclei →
       Forall (λ n, 0 < strength n) nuclei')
  end.
Proof.
  unfold force_merge_step. case_decide as Hlen; [|done].
  set (s := first_min_index strength nuclei).
  destruct (nuclei !! s) as [smallest|] eqn:Hs; [|done].
  destruct (best_target_initial s smallest nuclei
              (zip (seq 0 (length nuclei)) nuclei) (zip_seq_lookup nuclei))
    as (Ht & _).
  destruct (foldl _ _ _) as [[t|] score]; [|done].
  destruct (Ht t eq_refl) as [Hne [target Htarget]].
  split_and!.
  - done.
  - apply lookup_lt_Some in Hs, Htarget. lia.
  - unfold absorbed_all.
    apply (alter_delete_conserves absorbed_particles
             (λ target, merge_small target smallest)
             (absorbed_particles smallest) nuclei s t smallest target);
      done.
  - rewrite length_delete.
    + rewrite length_alter. apply lookup_lt_Some in Hs. lia.
    + apply lookup_lt_is_Some. rewrite length_alter.
      by apply lookup_lt_Some in Hs.
  - intros Hpos. apply Forall_delete. apply Forall_alter; [done|].
    intros x _ Hx. simpl.
    eapply Forall_lookup_1 in Hpos; [|exact Hs]. simpl in Hpos. lra.
Qed.

(** An iteration of [_force_merge_small] that does not merge: the cap is
    met, or no target was found. *)
Lemma force_merge_step_break (max_crystals : Z)
    (nuclei nuclei' : list CrystalNucleus) :
  force_merge_step max_crystals nuclei = Break nuclei' →
  nuclei' = nuclei ∧
  ((Z.of_nat (length nuclei) <= max_crystals)%Z ∨ no_merge_target nuclei).
Proof.
  unfold force_merge_step. case_decide as Hlen;
    [|intros [= <-]; split; [done|left; lia]].
  set (s := first_min_index strength nuclei).
  destruct (nuclei !! s) as [smallest|] eqn:Hs.
  - destruct (best_target_initial s smallest nuclei
                (zip (seq 0 (length nuclei)) nuclei) (zip_seq_lookup nuclei))
      as (_ & Hex).
    destruct (foldl _ _ _) as [[t|] score]; [discriminate|].
    intros [= <-]. split; [done|]. right.
    intros smallest' j other Hs' Hother Hne. fold s in Hs', Hne.
    assert (smallest' = smallest) as -> by congruence.
    apply Rnot_lt_le. intros Hscore.
    destruct (Hex (j, other)) as [t Ht]; [by apply zip_seq_elem|done..].
  - intros [= <-]. split; [done|]. right.
    intros smallest j other Hs'. fold s in Hs'. congruence.
Qed.

Lemma force_merge_spec (max_crystals : Z)
    (nuclei : list CrystalNucleus) :
  absorbed_all (_force_merge_small max_crystals nuclei)
  ≡ₚ absorbed_all nuclei ∧
  (length (_force_merge_small max_crystals nuclei) <= length nuclei)%nat ∧
  (nuclei ≠ [] → _force_merge_small max_crystals nuclei ≠ []).
Proof.
  remember (length nuclei) as n eqn:Hn. revert nuclei Hn.
  induction n as [n IH] using lt_wf_ind. intros nuclei ->.
  rewrite _force_merge_small_eq.
  pose proof (force_merge_step_spec max_crystals nuclei) as Hstep.
  destruct (force_merge_step max_crystals nuclei) as [nuclei'|nuclei'].
  - by subst nuclei'.
  - destruct Hstep as (Hmc & H2 & Hperm & Hlen & _).
    destruct (IH (length nuclei') ltac:(lia) nuclei' eq_refl)
      as (IH1 & IH2 & IH3).
    split_and!.
    + by rewrite IH1.
    + lia.
    + intros _. apply IH3. intros ->. simpl in Hlen. lia.
Qed.


Lemma force_merge_stops (max_crystals : Z) (nuclei : list CrystalNucleus) :
  (Nat.min (length nuclei) (Nat.max 1 (Z.to_nat max_crystals))
   <= length (_force_merge_small max_crystals nuclei))%nat ∧
  ((Z.of_nat (length (_force_merge_small max_crystals nuclei))
    <= max_crystals)%Z
   ∨ no_merge_target (_force_merge_small max_crystals nuclei)).
Proof.
  remember (length nuclei) as n eqn:Hn. revert nuclei Hn.
  induction n as [n IH] using lt_wf_ind. intros nuclei ->.
  rewrite _force_merge_small_eq.
  pose proof (force_merge_step_spec max_crystals nuclei) as Hstep.
  pose proof (force_merge_step_break max_crystals nuclei) as Hbreak.
  destruct (force_merge_step max_crystals nuclei) as [nuclei'|nuclei'].
  - destruct (Hbreak nuclei' eq_refl) as [-> Hstop]. split; [lia|done].
  - destruct Hstep as (Hmc & H2 & _ & Hlen & _).
    destruct (IH (length nuclei') ltac:(lia) nuclei' eq_refl) as [IH1 IH2].
    split; [lia|done].
Qed.

(** X21: [_force_merge_small] never merges below the cap, and it stops above
    the cap only in a state in which no nucleus scores above -1 as a target
    for the weakest one: the nuclei left are as many as there were, or as
    the cap asks for, or more than the cap with no target among them.  One
    nucleus is always left. *)
Theorem force_merge_small_count (max_crystals : Z)
    (nuclei : list CrystalNucleus) :
  nuclei ≠ [] →
  let merged := _force_merge_small max_crystals nuclei in
  (Nat.min (length nuclei) (Nat.max 1 (Z.to_nat max_crystals))
   <= length merged <= length nuclei)%nat ∧
  ((Z.of_nat (length merged) <= max_crystals)%Z ∨ no_merge_target merged).
Proof.
  intros _ merged.
  destruct (force_merge_stops max_crystals nuclei) as [Hlow Hstop].
  destruct (force_merge_spec max_crystals nuclei) as (_ & Hup & _).
  by split_and!.
Qed.

(** ** Crystallization: what happens to the particles *)

Lemma filter_eq_seq (n p : nat) :
  (p < n)%nat → filter (λ i, i = p) (seq 0 n) = [p].
Proof.
  intros Hp.
  replace n with (p + S (n - S p))%nat by lia.
  rewrite seq_app, filter_app. simpl. rewrite filter_cons.
  rewrite decide_True by done.
  rewrite !filter_none; [done|..].
  - intros i Hi. apply elem_of_seq in Hi. lia.
  - intros i Hi. apply elem_of_seq in Hi. lia.
Qed.

(** Freezing a free particle takes it out of the free particles. *)
Lemma free_particles_freeze (f : ParticleField) (p : nat) :
  frozen (f !!! p) = false → (p < length f)%nat →
  free_particles f ≡ₚ p :: free_particles (freeze f p).
Proof.
  intros Hfr Hp. unfold free_particles. rewrite length_freeze.
  transitivity (filter (λ i, i = p) (seq 0 (length f))
                ++ filter (λ i, frozen (freeze f p !!! i) = false)
                          (seq 0 (length f)));
    [|by rewrite filter_eq_seq].
  rewrite <- filter_or_perm.
  - erewrite filter_ext_elem; [reflexivity|]. intros i _. simpl.
    destruct (decide (i = p)) as [->|Hne].
    + split; [by left|done].
    + unfold freeze. rewrite list_lookup_total_alter_ne by done.
      split; [by right|]. intros [?|?]; done.
  - intros i _ -> Hi. unfold freeze in Hi.
    rewrite list_lookup_total_alter_eq in Hi by done. done.
Qed.

Lemma conserves_refl (nuclei : list CrystalNucleus) (f : ParticleField) :
  conserves nuclei f nuclei f.
Proof. split; [done|apply only_freezes_refl]. Qed.

Lemma conserves_trans (n1 n2 n3 : list CrystalNucleus)
    (f1 f2 f3 : ParticleField) :
  conserves n1 f1 n2 f2 → conserves n2 f2 n3 f3 → conserves n1 f1 n3 f3.
Proof.
  intros [H1 H2] [H3 H4]. split; [by rewrite H3|].
  by eapply only_freezes_trans.
Qed.

Lemma absorb_body_conserves (temperature : R) (nucleus : CrystalNucleus)
    (f : ParticleField) (rng : RandomState) (particle : nat) :
  (particle < length f)%nat →
  conserves [nucleus] f
    [(absorb_body temperature (nucleus, f, rng) particle).1.1]
    (absorb_body temperature (nucleus, f, rng) particle).1.2.
Proof.
  intros Hp. unfold absorb_body.
  destruct (frozen (f !!! particle)) eqn:Hfr; [apply conserves_refl|].
  destruct (random rng) as [u rng'].
  case_decide; [|apply conserves_refl]. split; simpl.
  - unfold absorbed_all. simpl. rewrite !app_nil_r.
    rewrite (free_particles_freeze f particle) by done.
    rewrite <- app_assoc. done.
  - apply only_freezes_freeze.
Qed.

Lemma absorb_fold_conserves (temperature : R) (free : list nat) :
  ∀ (nucleus : CrystalNucleus) (f : ParticleField) (rng : RandomState),
    Forall (λ p, p < length f)%nat free →
    conserves [nucleus] f
      [(foldl (absorb_body temperature) (nucleus, f, rng) free).1.1]
      (foldl (absorb_body temperature) (nucleus, f, rng) free).1.2.
Proof.
  induction free as [|p free IH]; intros nucleus f rng Hfree;
    [apply conserves_refl|].
  apply Forall_cons in Hfree as [Hp Hfree]. cbn [foldl].
  pose proof (absorb_body_conserves temperature nucleus f rng p Hp) as Hstep.
  destruct (absorb_body temperature (nucleus, f, rng) p)
    as [[nucleus1 f1] rng1]. simpl in Hstep.
  eapply conserves_trans; [exact Hstep|]. apply IH.
  destruct Hstep as [_ Hlen%only_freezes_length]. by rewrite Hlen.
Qed.

Lemma absorbed_all_app (n1 n2 : list CrystalNucleus) :
  absorbed_all (n1 ++ n2) = absorbed_all n1 ++ absorbed_all n2.
Proof. unfold absorbed_all. by rewrite fmap_app, concat_app. Qed.

Lemma absorb_pass_conserves (temperature : R) (free : list nat)
    (nuclei : list CrystalNucleus) (f : ParticleField) (rng : RandomState) :
  Forall (λ p, p < length f)%nat free →
  conserves nuclei f
    (absorb_pass temperature free nuclei f rng).1.1
    (absorb_pass temperature free nuclei f rng).1.2.
Proof.
  unfold absorb_pass.
  enough (∀ (done : list CrystalNucleus) (f0 : ParticleField)
            (rng0 : RandomState),
            Forall (λ p, p < length f0)%nat free →
            let r := foldl (λ '(done, f, rng) nucleus,
                              let '(nucleus', f', rng') :=
                                foldl (absorb_body temperature)
                                      (nucleus, f, rng) free in
                              (done ++ [nucleus'], f', rng'))
                           (done, f0, rng0) nuclei in
            conserves (done ++ nuclei) f0 r.1.1 r.1.2) as Hgen
    by (intros Hfree; apply (Hgen [] f rng Hfree)).
  induction nuclei as [|nucleus nuclei IH]; intros done f0 rng0 Hfree.
  - simpl. rewrite app_nil_r. apply conserves_refl.
  - cbn [foldl].
    pose proof (absorb_fold_conserves temperature free nucleus f0 rng0 Hfree)
      as [Hperm Hfr].
    destruct (foldl (absorb_body temperature) (nucleus, f0, rng0) free)
      as [[nucleus' f'] rng']. simpl in Hperm, Hfr.
    eapply conserves_trans; [|apply IH].
    + split; [|done]. cbn [fst snd].
      change (nucleus :: nuclei) with ([nucleus] ++ nuclei).
      rewrite <- (app_assoc done [nucleus'] nuclei).
      rewrite !absorbed_all_app, <- !app_assoc.
      apply Permutation_app_head.
      rewrite (Permutation_app_swap_app (absorbed_all [nucleus'])).
      rewrite (Permutation_app_swap_app (absorbed_all [nucleus])).
      by apply Permutation_app_head.
    + apply only_freezes_length in Hfr. by rewrite Hfr.
Qed.

Lemma free_particles_bound (f : ParticleField) :
  Forall (λ p, p < length f)%nat (free_particles f).
Proof.
  apply Forall_forall. intros p Hp.
  by apply free_particles_elem in Hp as [? _].
Qed.

Lemma cooling_loop_conserves (fuel : nat) (cooling_rate min_temperature : R) :
  ∀ (temperature : R) (nuclei nuclei' : list CrystalNucleus)
    (f f' : ParticleField) (rng : RandomState),
    cooling_loop fuel cooling_rate min_temperature temperature nuclei f rng
    = Some (nuclei', f') →
    conserves nuclei f nuclei' f'.
Proof.
  induction fuel as [|fuel IH]; intros temperature nuclei nuclei' f f' rng;
    simpl.
  - case_decide; [destruct (free_particles f)|]; intros [= <- <-];
      apply conserves_refl.
  - case_decide; [destruct (free_particles f) as [|p free] eqn:Hfree|];
      try (intros [= <- <-]; apply conserves_refl).
    pose proof (absorb_pass_conserves temperature (p :: free) nuclei f rng)
      as Hpass.
    rewrite <- Hfree in Hpass. specialize (Hpass (free_particles_bound f)).
    rewrite Hfree in Hpass.
    destruct (absorb_pass temperature (p :: free) nuclei f rng)
      as [[nuclei1 f1] rng1]. simpl in Hpass.
    intros Hloop%IH.
    eapply conserves_trans; [exact Hpass|].
    eapply conserves_trans; [|exact Hloop].
    split; [|apply only_freezes_refl].
    apply Permutation_app_tail, merge_nearby_spec.
Qed.

Lemma alter_conserves {A B} (g : A → list B) (F : A → A) (extra : list B)
    (l : list A) :
  ∀ (t : nat) (xt : A),
    l !! t = Some xt → g (F xt) = g xt ++ extra →
    concat (g <$> alter F t l) ≡ₚ extra ++ concat (g <$> l).
Proof.
  induction l as [|z l IH]; intros [|t] xt Ht HF; simplify_eq/=.
  - rewrite HF, <- app_assoc. apply Permutation_app_swap_app.
  - rewrite (IH t xt Ht HF). apply Permutation_app_swap_app.
Qed.

Lemma residual_body_conserves (nuclei : list CrystalNucleus)
    (f : ParticleField) (particle : nat) :
  (particle < length f)%nat →
  conserves nuclei f (residual_body (nuclei, f) particle).1
                     (residual_body (nuclei, f) particle).2.
Proof.
  intros Hp. unfold residual_body.
  destruct (frozen (f !!! particle)) eqn:Hfr; [apply conserves_refl|].
  case_bool_decide as Hne; [apply conserves_refl|]. simpl.
  set (best := first_max_index _ nuclei).
  assert (best < length nuclei)%nat as Hbest by by apply first_max_index_lt.
  destruct (lookup_lt_is_Some_2 _ _ Hbest) as [nb Hnb].
  split; [|apply only_freezes_freeze].
  unfold absorbed_all.
  rewrite (alter_conserves absorbed_particles _ [particle] nuclei best nb)
    by done.
  rewrite (free_particles_freeze f particle) by done.
  simpl. by rewrite Permutation_middle.
Qed.

Lemma residual_fold_conserves (ps : list nat) :
  ∀ (nuclei : list CrystalNucleus) (f : ParticleField),
    Forall (λ p, p < length f)%nat ps →
    conserves nuclei f (foldl residual_body (nuclei, f) ps).1
                       (foldl residual_body (nuclei, f) ps).2.
Proof.
  induction ps as [|p ps IH]; intros nuclei f Hps; [apply conserves_refl|].
  apply Forall_cons in Hps as [Hp Hps]. cbn [foldl].
  pose proof (residual_body_conserves nuclei f p Hp) as Hstep.
  destruct (residual_body (nuclei, f) p) as [nuclei1 f1]. simpl in Hstep.
  eapply conserves_trans; [exact Hstep|]. apply IH.
  destruct Hstep as [_ Hlen%only_freezes_length]. by rewrite Hlen.
Qed.

Lemma residual_fold_nonempty (ps : list nat) :
  ∀ (nuclei : list CrystalNucleus) (f : ParticleField),
    nuclei ≠ [] → (foldl residual_body (nuclei, f) ps).1 ≠ [].
Proof.
  induction ps as [|p ps IH]; intros nuclei f Hne; [done|]. simpl.
  destruct (negb (frozen (f !!! p)) && _); [|by apply IH].
  apply IH. intros Hnil. apply (f_equal length) in Hnil.
  rewrite length_alter in Hnil. by destruct nuclei.
Qed.

Lemma residual_pass_conserves (nuclei : list CrystalNucleus)
    (f : ParticleField) :
  conserves nuclei f (residual_pass nuclei f).1 (residual_pass nuclei f).2.
Proof. apply residual_fold_conserves, free_particles_bound. Qed.

(** The stages of [crystallize] on a non-empty list of nuclei: the nuclei
    that the absorption and the merges end with, and the crystals built from
    them. *)
Lemma crystallize_inv (fuel : nat) (f f2 : ParticleField)
    (nuclei : list CrystalNucleus) (codebook : Codebook)
    (cooling_rate min_temperature : R) (max_crystals : Z)
    (crystals : list Crystal) :
  nuclei ≠ [] →
  crystallize fuel f nuclei codebook cooling_rate min_temperature max_crystals
  = Some (crystals, f2) →
  ∃ final : list CrystalNucleus,
    conserves nuclei f final f2 ∧ all_frozen f2 ∧ final ≠ [] ∧
    crystals
    = stable_sort
        (λ a b, bool_decide (- strength (nucleus a) < - strength (nucleus b)))
        (_recursive_nest
           (_detect_shapes
              (build_crystal f2
                 <$> filter (λ nucleus, absorbed_particles nucleus ≠ [])
                            final))).
Proof.
  intros Hne. unfold crystallize. destruct nuclei as [|n0 nuclei]; [done|].
  destruct (cooling_loop fuel cooling_rate min_temperature 1.0
              (_merge_nearby_nuclei 0.15 (n0 :: nuclei)) f
              (RandomState_seeded 42)) as [[nuclei1 f1]|] eqn:Hloop;
    [|discriminate].
  cbn [mbind option_bind].
  pose proof (residual_pass_conserves nuclei1 f1) as Hres.
  pose proof (residual_pass_all_frozen nuclei1 f1) as Hfrozen.
  pose proof (residual_fold_nonempty (free_particles f1) nuclei1 f1) as Hne2.
  fold (residual_pass nuclei1 f1) in Hne2.
  destruct (residual_pass nuclei1 f1) as [nuclei2 f2'].
  intros [= <- <-].
  assert (nuclei1 ≠ []) as Hne1.
  { eapply cooling_loop_nonempty; [exact Hloop|].
    by apply _merge_nearby_nuclei_nonempty. }
  exists (_force_merge_small max_crystals nuclei2). split_and!.
  - eapply conserves_trans; [|eapply conserves_trans].
    + split; [|apply only_freezes_refl].
      apply Permutation_app_tail.
      apply (merge_nearby_spec 0.15 (n0 :: nuclei)).
    + by apply cooling_loop_conserves in Hloop.
    + eapply conserves_trans; [exact Hres|].
      split; [|apply only_freezes_refl].
      apply Permutation_app_tail. apply force_merge_spec.
  - by apply Hfrozen.
  - apply force_merge_spec. by apply Hne2.
  - done.
Qed.


Lemma crystallize_frame (fuel : nat) (f f2 : ParticleField)
    (nuclei : list CrystalNucleus) (codebook : Codebook)
    (cooling_rate min_temperature : R) (max_crystals : Z)
    (crystals : list Crystal) :
  crystallize fuel f nuclei codebook cooling_rate min_temperature max_crystals
  = Some (crystals, f2) →
  only_freezes f f2 ∧ (nuclei ≠ [] → all_frozen f2).
Proof.
  destruct (decide (nuclei = [])) as [->|Hne].
  - intros [= _ <-]. split; [apply only_freezes_refl|done].
  - intros (final & [_ Hfr] & Hall & _)%crystallize_inv; done.
Qed.

(** X22: whenever [crystallize] returns, it has changed nothing in the
    field except the flag [frozen], which it only ever sets: the position,
    charge, temperature, label, category and mass of every particle are
    afterwards what they were before, and a particle that was frozen stays
    frozen.  Given at least one nucleus, the field it returns has every
    particle frozen, also those that no nucleus attracts.  Nothing is said
    of a run that does not return, as with a cooling rate of zero and a
    particle that the loop never absorbs. *)
Theorem crystallize_only_freezes (fuel : nat) (f f2 : ParticleField)
    (nuclei : list CrystalNucleus) (codebook : Codebook)
    (cooling_rate min_temperature : R) (max_crystals : Z)
    (crystals : list Crystal) :
  crystallize fuel f nuclei codebook cooling_rate min_temperature max_crystals
  = Some (crystals, f2) →
  only_freezes f f2 ∧ (nuclei ≠ [] → all_frozen f2).
Proof. apply crystallize_frame. Qed.

(** X23: the crystals that [crystallize] returns are ordered by strength,
    the strongest first. *)
Theorem crystallize_ordered_by_strength (fuel : nat) (f f2 : ParticleField)
    (nuclei : list CrystalNucleus) (codebook : Codebook)
    (cooling_rate min_temperature : R) (max_crystals : Z)
    (crystals : list Crystal) :
  crystallize fuel f nuclei codebook cooling_rate min_temperature max_crystals
  = Some (crystals, f2) →
  StronglySorted
    (λ a b, strength (nucleus b) <= strength (nucleus a)) crystals.
Proof.
  destruct (decide (nuclei = [])) as [->|Hne].
  - intros [= <- _]. constructor.
  - intros (final & _ & _ & _ & ->)%crystallize_inv; [|done].
    eapply StronglySorted_weaken;
      [|apply (stable_sort_sorted (λ a, - strength (nucleus a)))].
    simpl. intros; lra.
Qed.

(** ** Shapes *)

(** X24: [_detect_shapes] gives every crystal one of the four shapes and
    changes nothing else but the contrast partner: the nucleus, the number
    of concepts, the emotional charge, the residual temperature and the
    children stay as they are.  A crystal with at most
    one concept is a fragment.  A crystal gets the shape "contrast" only
    together with a partner, which is another crystal of the list, never the
    crystal itself, and one whose centre has a similarity below 0.05 with
    its own or whose emotional charge differs from its own by more than
    0.3. *)
Theorem detect_shapes_assigns_shape (crystals : list Crystal) (i : nat)
    (c c' : Crystal) :
  crystals !! i = Some c → _detect_shapes crystals !! i = Some c' →
  nucleus c' = nucleus c ∧ element_count c' = element_count c ∧
  crystal_emotional_charge c' = crystal_emotional_charge c ∧
  crystal_residual_temperature c' = crystal_residual_temperature c ∧
  children c' = children c ∧
  (shape c' = "fragment" ∨ shape c' = "contrast" ∨ shape c' = "parallel"
   ∨ shape c' = "simple") ∧
  ((element_count c <= 1)%nat → shape c' = "fragment") ∧
  (shape c' ≠ "contrast" → contrast_partner c' = contrast_partner c) ∧
  (shape c' = "contrast" →
   ∃ j other,
     contrast_partner c' = Some j ∧ j ≠ i ∧ crystals !! j = Some other ∧
     (similarity (center (nucleus c)) (center (nucleus other)) < 0.05
      ∨ 0.3 < Rabs (crystal_emotional_charge c
                     - crystal_emotional_charge other))).
Proof.
  intros Hc. unfold _detect_shapes. rewrite list_lookup_imap, Hc. simpl.
  intros [= <-].
  destruct (decide (element_count c <= 1)%nat) as [H1|H1].
  { simpl. split_and!; try done; auto. }
  destruct (find (contrasts i c) (zip (seq 0 (length crystals)) crystals))
    as [[j other]|] eqn:Hfind.
  - simpl. split_and!; try done; auto.
    intros _. exists j, other.
    apply find_some in Hfind as [Hin Hcon].
    apply list_elem_of_In in Hin.
    pose proof (zip_seq_lookup crystals) as Hzip.
    eapply Forall_forall in Hzip; [|exact Hin]. simpl in Hzip.
    unfold contrasts in Hcon.
    apply andb_prop in Hcon as [Hne Hcon].
    apply negb_true_iff, bool_decide_eq_false_1 in Hne.
    split_and!; try done.
    apply orb_prop in Hcon as [Hs|He].
    + left. by apply bool_decide_eq_true_1 in Hs.
    + right. by apply bool_decide_eq_true_1 in He.
  - destruct (decide (4 <= element_count c)%nat);
      [|destruct (decide (2 <= element_count c)%nat)];
      simpl; split_and!; try done; auto.
Qed.

(** ** Nesting *)

#[local] Instance CrystalNucleus_inhabited : Inhabited CrystalNucleus :=
  populate {| center := []; strength := 0; emotional_charge := None;
              absorbed_particles := []; nucleus_label := "" |}.

#[local] Instance Crystal_inhabited : Inhabited Crystal :=
  populate (mkCrystal inhabitant "simple" 0 0 0 None []).

(** The parent that [_recursive_nest] finds for a crystal is another
    crystal of the list, with at least three concepts, for a crystal with at
    most two, and closer than the threshold. *)
Lemma parent_of_spec (crystals : list Crystal) (i j : nat) (child : Crystal) :
  parent_of crystals i child = Some j →
  (element_count child <= 2)%nat ∧ j ≠ i ∧
  ∃ parent, crystals !! j = Some parent ∧
            (3 <= element_count parent)%nat ∧
            0.25 < similarity (center (nucleus child))
                              (center (nucleus parent)).
Proof.
  unfold parent_of. case_decide as Hec; [done|].
  intros Hj. split; [lia|].
  pose proof (zip_seq_lookup crystals) as Hzip.
  revert Hj Hzip. generalize (zip (seq 0 (length crystals)) crystals).
  intros jps.
  enough (∀ acc : option nat * R,
            0.25 <= acc.2 →
            (∀ j, acc.1 = Some j →
                  j ≠ i ∧ ∃ parent, crystals !! j = Some parent ∧
                    (3 <= element_count parent)%nat ∧
                    0.25 < similarity (center (nucleus child))
                                      (center (nucleus parent))) →
            Forall (λ jo, crystals !! jo.1 = Some jo.2) jps →
            (foldl (best_parent_body i child) acc jps).1 = Some j →
            j ≠ i ∧ ∃ parent, crystals !! j = Some parent ∧
              (3 <= element_count parent)%nat ∧
              0.25 < similarity (center (nucleus child))
                                (center (nucleus parent))) as Hgen.
  { intros Hj Hzip. apply (Hgen (None, 0.25)); simpl; try done; lra. }
  induction jps as [|[k parent] jps IH]; intros [bp bs] Hbs Hacc Hzip;
    simpl in *.
  - intros ->. by apply Hacc.
  - apply Forall_cons in Hzip as [Hk Hzip]. simpl in Hk.
    destruct (bool_decide (i = k) || bool_decide (element_count parent < 3)%nat)
      eqn:Hskip; [by apply IH|].
    apply orb_false_elim in Hskip as [Hik Hlt].
    apply bool_decide_eq_false_1 in Hik, Hlt.
    case_decide as Hsim; [|by apply IH].
    apply IH; simpl; try done; [lra|].
    intros ? [= <-]. split; [done|]. exists parent. split_and!; [done|lia|lra].
Qed.

Lemma reflexive_eq {A} (l k : list A) : l = k → l ≡ₚ k.
Proof. by intros ->. Qed.

Lemma filter_fmap_comm {A B} (g : A → B) (P : B → Prop)
    `{!∀ y, Decision (P y)} (l : list A) :
  filter P (g <$> l) = g <$> filter (λ x, P (g x)) l.
Proof.
  induction l as [|x l IH]; [done|].
  rewrite fmap_cons, !filter_cons, IH. by case_decide.
Qed.

Lemma zip_fmap_seq {A B} `{!Inhabited A} `{!Inhabited B} (a : list A)
    (b : list B) :
  length a = length b →
  zip a b = (λ j, (a !!! j, b !!! j)) <$> seq 0 (length a).
Proof.
  intros Hlen.
  rewrite <- (fmap_seq_lookup_total a) at 1.
  rewrite <- (fmap_seq_lookup_total b) at 1. rewrite <- Hlen.
  generalize (seq 0 (length a)). intros l.
  induction l as [|x l IH]; [done|]. cbn. by f_equal.
Qed.

(** The crystals that a filter on the parents selects, by their indices. *)
Lemma zip_filter_index {A B} `{!Inhabited A} `{!Inhabited B} (Q : A → Prop)
    {HQ : ∀ x, Decision (Q x)} (a : list A) (b : list B) :
  length a = length b →
  snd <$> filter (λ pc, Q pc.1) (zip a b)
  = (b !!!.) <$> filter (λ j, Q (a !!! j)) (seq 0 (length a)).
Proof.
  intros Hlen. rewrite zip_fmap_seq by done.
  rewrite (filter_fmap_comm (λ j, (a !!! j, b !!! j)) (λ pc, Q pc.1)).
  by rewrite <- list_fmap_compose.
Qed.

Lemma concat_fmap_app_perm {A B} (a b : A → list B) (l : list A) :
  concat ((λ x, a x ++ b x) <$> l)
  ≡ₚ concat (a <$> l) ++ concat (b <$> l).
Proof.
  induction l as [|x l IH]; [done|]. cbn. rewrite IH.
  rewrite <- !app_assoc. apply Permutation_app_head.
  apply Permutation_app_swap_app.
Qed.

(** Grouping by key: the groups of the keys of [J] hold together what has
    a key at all, when every key that occurs is in [J]. *)
Lemma concat_groups_perm {B} (K : nat → option nat) (w : nat → list B)
    (J I : list nat) :
  NoDup J → (∀ i j, i ∈ I → K i = Some j → j ∈ J) →
  concat ((λ j, concat (w <$> filter (λ i, K i = Some j) I)) <$> J)
  ≡ₚ concat (w <$> filter (λ i, is_Some (K i)) I).
Proof.
  intros HJ. induction I as [|i I IH]; intros HK.
  - simpl. clear HJ HK. induction J as [|j J IHJ]; [done|]. by cbn.
  - assert (IH' := IH ltac:(intros ? ? ?; apply HK; by right)).
    rewrite filter_cons. destruct (K i) as [j0|] eqn:Hi.
    + rewrite decide_True by done. cbn. rewrite <- IH'.
      destruct (list_elem_of_split J j0 (HK i j0 ltac:(left) Hi))
        as (J1 & J2 & ->).
      apply NoDup_app in HJ as (_ & HJ1 & HJ2).
      apply NoDup_cons in HJ2 as [HJ2 _].
      assert (∀ J' : list nat, j0 ∉ J' →
                (λ j, concat (w <$> filter (λ i0, K i0 = Some j) (i :: I)))
                  <$> J'
                = (λ j, concat (w <$> filter (λ i0, K i0 = Some j) I)) <$> J')
        as Hext.
      { intros J' HJ'. apply list_fmap_ext. intros ? j Hj. simpl.
        rewrite filter_cons, decide_False; [done|].
        rewrite Hi. intros [= ->]. apply HJ'.
        by eapply list_elem_of_lookup_2. }
      rewrite !fmap_app, !fmap_cons, !concat_app. cbn.
      rewrite !Hext by (done || (intros Hin; apply (HJ1 j0 Hin); by left)).
      rewrite decide_True by done. cbn.
      rewrite <- !app_assoc. apply Permutation_app_swap_app.
    + rewrite decide_False by (by intros [? ?]). rewrite <- IH'.
      apply reflexive_eq. f_equal. apply list_fmap_ext. intros ? j Hj. simpl.
      rewrite filter_cons, decide_False; [done|]. by rewrite Hi.
Qed.

(** [_recursive_nest] by indices: the crystals without a parent, each with
    the crystals whose parent it is. *)
Lemma _recursive_nest_index (crystals : list Crystal) :
  ¬ (length crystals < 2)%nat →
  let K := λ i, parent_of crystals i (crystals !!! i) in
  let idx := seq 0 (length crystals) in
  _recursive_nest crystals
  = (λ j, {| nucleus := nucleus (crystals !!! j);
             shape := shape (crystals !!! j);
             element_count := element_count (crystals !!! j);
             crystal_emotional_charge :=
               crystal_emotional_charge (crystals !!! j);
             crystal_residual_temperature :=
               crystal_residual_temperature (crystals !!! j);
             contrast_partner := contrast_partner (crystals !!! j);
             children :=
               children (crystals !!! j)
               ++ ((crystals !!!.) <$> filter (λ i, K i = Some j) idx) |})
      <$> filter (λ j, K j = None) idx.
Proof.
  intros Hlen K idx. unfold _recursive_nest. rewrite decide_False by done.
  cbv zeta.
  set (parents := imap (parent_of crystals) crystals).
  assert (length parents = length crystals) as Hpl by apply length_imap.
  assert (∀ i, i ∈ idx → parents !!! i = K i) as Hparents.
  { intros i Hi. apply elem_of_seq in Hi. unfold parents.
    by rewrite (list_lookup_total_imap (parent_of crystals) crystals i)
      by lia. }
  rewrite (zip_filter_index (λ o, o = None) parents) by
    (by rewrite !length_imap).
  rewrite Hpl. fold idx.
  match goal with
  | |- ?g1 <$> ?l1 = ?g2 <$> ?l2 => transitivity (g2 <$> l1)
  end.
  - apply list_fmap_ext. intros ? j Hj. simpl.
    apply list_elem_of_lookup_2, list_elem_of_filter in Hj as [_ Hj].
    apply elem_of_seq in Hj.
    rewrite (list_lookup_total_imap _ crystals j) by lia. f_equal.
    f_equal.
    etransitivity;
      [apply (zip_filter_index (HQ := λ o, decide_rel (=) o (Some j))
                (λ o, o = Some j) parents crystals Hpl)|].
    rewrite Hpl. fold idx. f_equal.
    apply filter_ext_elem. intros i' Hi. by rewrite Hparents.
  - f_equal. apply filter_ext_elem. intros i Hi. by rewrite Hparents.
Qed.

Lemma childless_lookup (crystals : list Crystal) (i : nat) :
  Forall (λ c, children c = []) crystals → children (crystals !!! i) = [].
Proof.
  intros Hch. destruct (crystals !! i) as [c|] eqn:Hc.
  - rewrite (list_lookup_total_correct _ _ _ Hc).
    by eapply Forall_lookup_1 in Hch.
  - rewrite list_lookup_total_alt, Hc. done.
Qed.

Lemma _recursive_nest_spec (crystals : list Crystal) :
  Forall (λ c, children c = []) crystals →
  crystal_particles (_recursive_nest crystals)
  ≡ₚ crystal_particles crystals ∧
  Forall (λ c,
            Forall (λ child,
                      child ∈ crystals ∧
                      (element_count child <= 2)%nat ∧
                      (3 <= element_count c)%nat ∧
                      0.25 < similarity (center (nucleus child))
                                        (center (nucleus c)))
                   (children c))
         (_recursive_nest crystals).
Proof.
  intros Hch.
  destruct (decide (length crystals < 2)%nat) as [Hlen|Hlen].
  { unfold _recursive_nest. rewrite decide_True by done. split; [done|].
    eapply Forall_impl; [exact Hch|]. simpl. by intros c ->. }
  rewrite _recursive_nest_index by done. cbv zeta.
  set (K := λ i, parent_of crystals i (crystals !!! i)).
  set (idx := seq 0 (length crystals)).
  set (w := λ i, particles (crystals !!! i)).
  split.
  - unfold crystal_particles at 1. rewrite <- list_fmap_compose.
    transitivity
      (concat ((λ j, w j ++ concat (w <$> filter (λ i, K i = Some j) idx))
                 <$> filter (λ j, K j = None) idx)).
    { apply reflexive_eq. f_equal. apply list_fmap_ext. intros ? j _. simpl.
      rewrite childless_lookup by done. simpl.
      by rewrite <- list_fmap_compose. }
    rewrite concat_fmap_app_perm.
    rewrite concat_groups_perm.
    + rewrite <- concat_app, <- fmap_app.
      transitivity (concat (w <$> idx)).
      * assert (filter (λ i, is_Some (K i)) idx
                = filter (λ i, ¬ K i = None) idx) as ->.
        { apply filter_ext_elem. intros i _.
          rewrite <- not_eq_None_Some. done. }
        by rewrite filter_app_complement.
      * apply reflexive_eq. unfold crystal_particles.
        rewrite <- (fmap_seq_lookup_total crystals) at 1.
        rewrite <- list_fmap_compose. f_equal.
        apply list_fmap_ext. intros ? j _. simpl.
        rewrite childless_lookup by done. by rewrite app_nil_r.
    + apply NoDup_filter, NoDup_seq.
    + intros i j _ Hij. apply parent_of_spec in Hij
        as (_ & _ & parent & Hp & Hec & _).
      apply list_elem_of_filter. split.
      * unfold K, parent_of.
        rewrite (list_lookup_total_correct _ _ _ Hp).
        rewrite decide_True by lia. done.
      * apply elem_of_seq. apply lookup_lt_Some in Hp. lia.
  - apply Forall_fmap, Forall_forall. intros j Hj. simpl.
    rewrite childless_lookup by done. simpl.
    apply Forall_fmap, Forall_forall. intros i Hi. simpl.
    apply list_elem_of_filter in Hi as [Hij Hi].
    apply elem_of_seq in Hi.
    apply parent_of_spec in Hij as (Hec & _ & parent & Hp & Hecp & Hsim).
    rewrite (list_lookup_total_correct _ _ _ Hp). split_and!; try done.
    apply list_elem_of_lookup_total_2. lia.
Qed.

(** X25: [_recursive_nest] neither loses nor duplicates a crystal's
    particles: for crystals that come without children, the particles of
    the crystals left at the top level and of their children are together
    the particles of all crystals.  Only a crystal of the list with at most
    two concepts becomes a child, and only of a crystal with at least three
    concepts whose centre has a similarity above 0.25 with its own. *)
Theorem recursive_nest_conserves (crystals : list Crystal) :
  Forall (λ c, children c = []) crystals →
  crystal_particles (_recursive_nest crystals)
  ≡ₚ crystal_particles crystals ∧
  Forall (λ c,
            Forall (λ child,
                      child ∈ crystals ∧
                      (element_count child <= 2)%nat ∧
                      (3 <= element_count c)%nat ∧
                      0.25 < similarity (center (nucleus child))
                                        (center (nucleus c)))
                   (children c))
         (_recursive_nest crystals).
Proof. apply _recursive_nest_spec. Qed.

(** ** From the particles to the crystals *)

Lemma _detect_shapes_keeps (crystals : list Crystal) :
  Forall2 (λ c c', nucleus c' = nucleus c ∧ children c' = children c)
          crystals (_detect_shapes crystals).
Proof.
  apply Forall2_same_length_lookup_2.
  - unfold _detect_shapes. by rewrite length_imap.
  - intros i c c' Hc. unfold _detect_shapes.
    rewrite list_lookup_imap, Hc. simpl. intros [= <-].
    destruct (decide (element_count c <= 1)%nat); [done|].
    destruct (find _ _) as [[j other]|]; [done|].
    destruct (decide (4 <= element_count c)%nat); [done|].
    by destruct (decide (2 <= element_count c)%nat).
Qed.

Lemma crystal_particles_Forall2 (cs cs' : list Crystal) :
  Forall2 (λ c c', nucleus c' = nucleus c ∧ children c' = children c)
          cs cs' →
  crystal_particles cs' = crystal_particles cs.
Proof.
  unfold crystal_particles, particles.
  induction 1 as [|c c' cs cs' [Hn Hc] _ IH]; [done|].
  cbn. by rewrite Hn, Hc, IH.
Qed.

Lemma crystal_particles_perm (cs cs' : list Crystal) :
  cs ≡ₚ cs' → crystal_particles cs ≡ₚ crystal_particles cs'.
Proof. intros Hp. unfold crystal_particles. by rewrite Hp. Qed.

Lemma absorbed_all_filter (nuclei : list CrystalNucleus) :
  absorbed_all (filter (λ nucleus, absorbed_particles nucleus ≠ []) nuclei)
  = absorbed_all nuclei.
Proof.
  unfold absorbed_all. induction nuclei as [|n nuclei IH]; [done|].
  rewrite filter_cons. case_decide as Hn; cbn; rewrite IH; [done|].
  by rewrite Hn.
Qed.

Lemma crystal_particles_build (f : ParticleField)
    (nuclei : list CrystalNucleus) :
  crystal_particles (build_crystal f <$> nuclei) = absorbed_all nuclei.
Proof.
  unfold crystal_particles, absorbed_all, particles.
  rewrite <- list_fmap_compose. f_equal. apply list_fmap_ext.
  intros ? n _. simpl. by rewrite app_nil_r.
Qed.

Lemma crystallize_particles (fuel : nat) (f f2 : ParticleField)
    (nuclei : list CrystalNucleus) (codebook : Codebook)
    (cooling_rate min_temperature : R) (max_crystals : Z)
    (crystals : list Crystal) :
  nuclei ≠ [] →
  crystallize fuel f nuclei codebook cooling_rate min_temperature max_crystals
  = Some (crystals, f2) →
  crystal_particles crystals ≡ₚ absorbed_all nuclei ++ free_particles f.
Proof.
  intros Hne (final & [Hperm _] & Hfrozen & _ & ->)%crystallize_inv; [|done].
  apply all_frozen_no_free in Hfrozen. rewrite Hfrozen, app_nil_r in Hperm.
  rewrite <- Hperm.
  rewrite (crystal_particles_perm _ _ (stable_sort_perm _ _)).
  destruct (_recursive_nest_spec
              (_detect_shapes
                 (build_crystal f2
                    <$> filter (λ nucleus, absorbed_particles nucleus ≠ [])
                               final))) as [Hnest _].
  { pose proof (_detect_shapes_keeps
                  (build_crystal f2
                     <$> filter (λ nucleus, absorbed_particles nucleus ≠ [])
                                final)) as Hkeep.
    eapply Forall2_Forall_r; [exact Hkeep|].
    apply Forall_fmap, Forall_forall. intros n _ c' [_ Hc]. by rewrite Hc. }
  rewrite Hnest.
  rewrite (crystal_particles_Forall2 _ _ (_detect_shapes_keeps _)).
  by rewrite crystal_particles_build, absorbed_all_filter.
Qed.

(** X26: [crystallize] on at least one nucleus puts every particle into
    exactly one crystal: the particles of the crystals it returns and of
    their children are together the particles that the nuclei held and the
    particles that were free, each as often as there. *)
Theorem crystallize_conserves_particles (fuel : nat) (f f2 : ParticleField)
    (nuclei : list CrystalNucleus) (codebook : Codebook)
    (cooling_rate min_temperature : R) (max_crystals : Z)
    (crystals : list Crystal) :
  nuclei ≠ [] →
  crystallize fuel f nuclei codebook cooling_rate min_temperature max_crystals
  = Some (crystals, f2) →
  crystal_particles crystals ≡ₚ absorbed_all nuclei ++ free_particles f.
Proof. apply crystallize_particles. Qed.

Lemma free_particles_foldl_freeze (ps : list nat) :
  NoDup ps → ∀ f : ParticleField,
    (∀ p, p ∈ ps → p ∈ free_particles f) →
    free_particles f ≡ₚ ps ++ free_particles (foldl freeze f ps).
Proof.
  induction 1 as [|p ps Hp Hps IH]; intros f Hfree; [done|].
  pose proof (Hfree p ltac:(left)) as [Hlt Hfr]%free_particles_elem.
  rewrite (free_particles_freeze f p) by done. simpl.
  apply Permutation_skip. apply IH. intros q Hq.
  apply free_particles_elem. rewrite length_freeze.
  pose proof (Hfree q ltac:(by right)) as [Hq1 Hq2]%free_particles_elem.
  split; [done|]. unfold freeze.
  rewrite list_lookup_total_alter_ne; [done|]. by intros ->.
Qed.

Lemma pipeline_particles (f f1 f2 : ParticleField)
    (codebook : Codebook) (min_density_distance : R)
    (cooling_rate min_temperature : R) (max_crystals : Z) (fuel : nat)
    (nuclei : list CrystalNucleus) (crystals : list Crystal) :
  nucleate f codebook min_density_distance = Ok (nuclei, f1) →
  nuclei ≠ [] →
  crystallize fuel f1 nuclei codebook cooling_rate min_temperature
              max_crystals = Some (crystals, f2) →
  crystal_particles crystals ≡ₚ free_particles f ∧
  NoDup (crystal_particles crystals).
Proof.
  intros Hnuc Hne Hcry.
  apply crystallize_particles in Hcry; [|done].
  apply nucleate_inv in Hnuc as (peaks & Hpeaks & Hn & ->).
  apply compute_density_peaks_sound in Hpeaks as (Hnd & Hfree & _).
  assert (absorbed_all nuclei ≡ₚ concat (contributing_particles <$> peaks))
    as Hperm.
  { rewrite Hn. rewrite (absorbed_all_perm _ _ (stable_sort_perm _ _)).
    unfold absorbed_all. by rewrite <- list_fmap_compose. }
  assert (crystal_particles crystals ≡ₚ free_particles f) as Hall.
  { rewrite Hcry. symmetry. apply free_particles_foldl_freeze.
    - by rewrite Hperm.
    - intros p Hp. apply Hfree. by rewrite <- Hperm. }
  split; [done|]. rewrite Hall. apply NoDup_free_particles.
Qed.

(** X27: nucleation followed by crystallization, as the engine runs them,
    puts every particle that was free into exactly one crystal, whatever
    the positions and charges are, provided that nucleation finds a nucleus
    at all: the particles of the returned crystals and of their children
    are the free particles of the plasma, none of them twice. *)
Theorem pipeline_partitions_free_particles (f f1 f2 : ParticleField)
    (codebook : Codebook) (min_density_distance : R)
    (cooling_rate min_temperature : R) (max_crystals : Z) (fuel : nat)
    (nuclei : list CrystalNucleus) (crystals : list Crystal) :
  nucleate f codebook min_density_distance = Ok (nuclei, f1) →
  nuclei ≠ [] →
  crystallize fuel f1 nuclei codebook cooling_rate min_temperature
              max_crystals = Some (crystals, f2) →
  crystal_particles crystals ≡ₚ free_particles f ∧
  NoDup (crystal_particles crystals).
Proof. apply pipeline_particles. Qed.

(** ** The plasma *)

Lemma encode_heap_grows (cb cb' : Codebook) (h h' : heap) (s : string)
    (l : loc) :
  encode cb s h = Ok (l, cb', h') →
  ∀ l0 v0, h !! l0 = Some v0 → h' !! l0 = Some v0.
Proof.
  unfold encode. destruct (_memory cb !! s); [by intros [= _ _ <-]|].
  destruct (choice _ _) as [[v rng]|]; [|discriminate].
  cbn [mbind result_bind]. intros [= _ _ <-] l0 v0 Hl.
  by apply lookup_app_l_Some.
Qed.

(** An [encode] between calls: it returns, hands out a bipolar vector of
    the dimension of the codebook, leaves the codebook in a state between
    calls and every array of the heap as it is. *)
Lemma encode_step (cb : Codebook) (s : string) (h : heap) :
  codebook_wf cb h →
  ∃ l cb' h' v,
    encode cb s h = Ok (l, cb', h') ∧ dim cb' = dim cb ∧
    codebook_wf cb' h' ∧ h' !! l = Some v ∧ hdv (Z.to_nat (dim cb)) v ∧
    (∀ l0 v0, h !! l0 = Some v0 → h' !! l0 = Some v0).
Proof.
  intros Hwf.
  destruct (encode_ok cb s h Hwf)
    as (l & cb' & h' & v & He & _ & Hd & Hv & Hhdv & Hwf').
  exists l, cb', h', v. split_and!; try done.
  by eapply encode_heap_grows.
Qed.

(** The sign of a blend of two bipolar vectors with bipolar noise, for
    weights under which no entry cancels. *)
Lemma sign_blend_hdv (D : nat) (c1 c2 c3 c4 : R) (a b noise : ndarray) :
  (∀ x y z, bipolar x → bipolar y → bipolar z →
            c3 * (c1 * x + c2 * y) + c4 * z ≠ 0) →
  hdv D a → hdv D b → hdv D noise →
  hdv D (np_sign <$> vadd (vscale c3 (vadd (vscale c1 a) (vscale c2 b)))
                          (vscale c4 noise)).
Proof.
  intros Hnz [Hla Ha] [Hlb Hb] [Hln Hn]. subst D.
  revert b noise Hlb Hln Hb Hn.
  induction Ha as [|x a Hx Ha IH]; intros [|y b] [|z noise] Hlb Hln Hb Hn;
    simplify_eq/=; [done|].
  apply Forall_cons in Hb as [Hy Hb], Hn as [Hz Hn].
  destruct (IH b noise) as [IH1 IH2]; [done..|].
  unfold vadd, vscale in *. split.
  - simpl. by rewrite IH1.
  - constructor; [|done]. apply np_sign_bipolar. by apply Hnz.
Qed.

Lemma plasma_ok_add (D : nat) (field : ParticleField) (p : Particle) :
  plasma_ok D field → hdv D (position p) → frozen p = false →
  plasma_ok D (add field p).
Proof.
  intros Hf Hp Hfr. apply Forall_app. split; [done|]. by constructor.
Qed.

Lemma add_core_ok (D : nat) (category : ParticleCategory) (profile : Profile)
    (word : string) (field : ParticleField) (sub_vecs : list ndarray) :
  Forall (hdv D) sub_vecs → plasma_ok D field →
  plasma_ok D (add_core category profile word field sub_vecs).
Proof.
  intros Hvecs. unfold add_core.
  assert (Forall (λ iv : nat * ndarray, hdv D iv.2)
                 (zip (seq 0 (length sub_vecs)) sub_vecs)) as Hzip.
  { apply Forall_forall. intros [i v] Hiv.
    pose proof (zip_seq_lookup sub_vecs) as Hz.
    eapply Forall_forall in Hz; [|exact Hiv]. simpl in *.
    by eapply Forall_lookup_1 in Hvecs. }
  revert field. induction Hzip as [|[i v] ivs Hv Hivs IH]; intros field Hf;
    [done|].
  simpl. apply IH. by apply plasma_ok_add.
Qed.

Lemma core_words_ok (category : ParticleCategory) (profile : Profile)
    (words : list string) :
  ∀ (field : ParticleField) (cb : Codebook) (h : heap),
    codebook_wf cb h → plasma_ok (Z.to_nat (dim cb)) field →
    ∃ field' cb' h',
      core_words category profile words field cb h = Ok (field', cb', h') ∧
      dim cb' = dim cb ∧ codebook_wf cb' h' ∧
      plasma_ok (Z.to_nat (dim cb)) field'.
Proof.
  induction words as [|word words IH]; intros field cb h Hwf Hf.
  - by exists field, cb, h.
  - destruct (decompose_ok cb (str_lower word) (n_particles profile) h Hwf)
      as (l & cb1 & h1 & base & ps & He & _ & Hbase & Hdec & _ & Hps).
    destruct (encode_step cb (str_lower word) h Hwf)
      as (l' & cb1' & h1' & v & He' & Hd1 & Hwf1 & _).
    rewrite He in He'. injection He' as <- <- <-.
    cbn [core_words]. rewrite Hdec. cbn [mbind result_bind].
    destruct (IH (add_core category profile word field ps) cb1 h1 Hwf1)
      as (field' & cb' & h' & Hcw & Hd & Hwf' & Hf').
    { rewrite Hd1. apply add_core_ok; [|done].
      eapply Forall_impl; [exact Hps|]. simpl. by intros p ->. }
    exists field', cb', h'. rewrite Hd1 in *. split_and!; try done; congruence.
Qed.

Lemma core_inputs_ok (inputs : list (ParticleCategory * string)) :
  ∀ (field : ParticleField)
    (words_by_cat : ParticleCategory → option (list string))
    (cb : Codebook) (h : heap),
    codebook_wf cb h → plasma_ok (Z.to_nat (dim cb)) field →
    ∃ field' words_by_cat' cb' h',
      core_inputs inputs field words_by_cat cb h
      = Ok (field', words_by_cat', cb', h') ∧
      dim cb' = dim cb ∧ codebook_wf cb' h' ∧
      plasma_ok (Z.to_nat (dim cb)) field'.
Proof.
  induction inputs as [|[category text] inputs IH];
    intros field words_by_cat cb h Hwf Hf.
  - by exists field, words_by_cat, cb, h.
  - cbn [core_inputs]. case_decide; [by apply IH|]. cbv zeta.
    destruct (core_words_ok category (PROFILES category)
                (str_split (str_strip text)) field cb h Hwf Hf)
      as (field1 & cb1 & h1 & -> & Hd1 & Hwf1 & Hf1).
    cbn [mbind result_bind].
    rewrite <- Hd1 in Hf1.
    destruct (IH field1
                (λ c, if decide (c = category)
                      then Some (str_split (str_strip text))
                      else words_by_cat c) cb1 h1 Hwf1 Hf1)
      as (field' & wbc' & cb' & h' & -> & Hd & Hwf' & Hf').
    exists field', wbc', cb', h'. rewrite Hd1 in *. split_and!; try done; congruence.
Qed.

Lemma bind_pairs_ok (pairs : list (string * string)) :
  ∀ (field : ParticleField) (cb : Codebook) (h : heap) (rng : RandomState),
    codebook_wf cb h → plasma_ok (Z.to_nat (dim cb)) field →
    ∃ field' cb' h',
      bind_pairs pairs field cb h rng = Ok (field', cb', h') ∧
      dim cb' = dim cb ∧ codebook_wf cb' h' ∧
      plasma_ok (Z.to_nat (dim cb)) field'.
Proof.
  induction pairs as [|[w1 w2] pairs IH]; intros field cb h rng Hwf Hf.
  - by exists field, cb, h.
  - destruct (encode_step cb (str_lower w1) h Hwf)
      as (l1 & cb1 & h1 & v1 & He1 & Hd1 & Hwf1 & Hv1 & Hhdv1 & _).
    destruct (encode_step cb1 (str_lower w2) h1 Hwf1)
      as (l2 & cb2 & h2 & v2 & He2 & Hd2 & Hwf2 & Hv2 & Hhdv2 & Hgrow).
    apply Hgrow in Hv1.
    destruct (choice_ok (dim cb2) rng (proj1 Hwf2))
      as (noise & rng' & Hc & Hnoise).
    cbn [bind_pairs]. rewrite He1. cbn [mbind result_bind].
    rewrite He2. cbn [mbind result_bind]. rewrite Hc.
    cbn [mbind result_bind].
    rewrite (list_lookup_total_correct _ _ _ Hv1),
            (list_lookup_total_correct _ _ _ Hv2).
    assert (dim cb2 = dim cb) as Hd12 by congruence.
    rewrite Hd1 in Hhdv2. rewrite Hd12 in Hnoise.
    edestruct IH as (field' & cb' & h' & Hb & Hd & Hwf' & Hf');
      [exact Hwf2| |].
    2:{ exists field', cb', h'. rewrite Hb. rewrite Hd12 in Hf'.
        split_and!; try done; congruence. }
    rewrite Hd12. apply plasma_ok_add; [done| |done]. simpl.
    apply sign_blend_hdv; try done.
    intros x y z [-> | ->] [-> | ->] [-> | ->]; lra.
Qed.

Lemma color_intents_ok (ew : string) (ev : loc) (intent_words : list string) :
  ∀ (field : ParticleField) (cb : Codebook) (h : heap) (rng : RandomState)
    (e : ndarray),
    codebook_wf cb h → plasma_ok (Z.to_nat (dim cb)) field →
    h !! ev = Some e → hdv (Z.to_nat (dim cb)) e →
    ∃ field' cb' h' rng',
      color_intents ew ev intent_words field cb h rng
      = Ok (field', cb', h', rng') ∧
      dim cb' = dim cb ∧ codebook_wf cb' h' ∧
      plasma_ok (Z.to_nat (dim cb)) field'.
Proof.
  induction intent_words as [|iw intent_words IH];
    intros field cb h rng e Hwf Hf Hev He.
  - by exists field, cb, h, rng.
  - destruct (encode_step cb (str_lower iw) h Hwf)
      as (l1 & cb1 & h1 & v1 & He1 & Hd1 & Hwf1 & Hv1 & Hhdv1 & Hgrow).
    apply Hgrow in Hev.
    destruct (choice_ok (dim cb1) rng (proj1 Hwf1))
      as (noise & rng' & Hc & Hnoise).
    cbn [color_intents]. rewrite He1. cbn [mbind result_bind].
    rewrite Hc. cbn [mbind result_bind].
    rewrite (list_lookup_total_correct _ _ _ Hv1),
            (list_lookup_total_correct _ _ _ Hev).
    rewrite Hd1 in Hnoise.
    edestruct IH as (field' & cb' & h' & rng'' & Hb & Hd & Hwf' & Hf');
      [exact Hwf1| |exact Hev|by rewrite Hd1|].
    2:{ exists field', cb', h', rng''. rewrite Hb. rewrite Hd1 in Hf'.
        split_and!; try done; congruence. }
    rewrite Hd1. apply plasma_ok_add; [done| |done]. simpl.
    apply sign_blend_hdv; try done.
    intros x y z [-> | ->] [-> | ->] [-> | ->]; lra.
Qed.

Lemma color_emotions_ok (emotion_words intent_words : list string) :
  ∀ (field : ParticleField) (cb : Codebook) (h : heap) (rng : RandomState),
    codebook_wf cb h → plasma_ok (Z.to_nat (dim cb)) field →
    ∃ field' cb' h',
      color_emotions emotion_words intent_words field cb h rng
      = Ok (field', cb', h') ∧
      dim cb' = dim cb ∧ codebook_wf cb' h' ∧
      plasma_ok (Z.to_nat (dim cb)) field'.
Proof.
  induction emotion_words as [|ew emotion_words IH];
    intros field cb h rng Hwf Hf.
  - by exists field, cb, h.
  - destruct (encode_step cb (str_lower ew) h Hwf)
      as (l1 & cb1 & h1 & v1 & He1 & Hd1 & Hwf1 & Hv1 & Hhdv1 & _).
    cbn [color_emotions]. rewrite He1. cbn [mbind result_bind].
    rewrite <- Hd1 in Hf, Hhdv1.
    destruct (color_intents_ok ew l1 (take 3 intent_words) field cb1 h1 rng
                v1 Hwf1 Hf Hv1 Hhdv1)
      as (field2 & cb2 & h2 & rng2 & -> & Hd2 & Hwf2 & Hf2).
    cbn [mbind result_bind]. rewrite <- Hd2 in Hf2.
    destruct (IH field2 cb2 h2 rng2 Hwf2 Hf2)
      as (field' & cb' & h' & -> & Hd & Hwf' & Hf').
    exists field', cb', h'. split_and!; try done; [congruence|].
    by rewrite Hd2, Hd1 in Hf'.
Qed.

Lemma infer_particles_ok (expansions : list (string * string * string)) :
  ∀ (field : ParticleField) (cb : Codebook) (h : heap) (rng : RandomState),
    codebook_wf cb h → plasma_ok (Z.to_nat (dim cb)) field →
    ∃ field' cb' h',
      infer_particles expansions field cb h rng = Ok (field', cb', h') ∧
      dim cb' = dim cb ∧ codebook_wf cb' h' ∧
      plasma_ok (Z.to_nat (dim cb)) field'.
Proof.
  induction expansions as [|[[source relation] inferred] expansions IH];
    intros field cb h rng Hwf Hf.
  - by exists field, cb, h.
  - destruct (encode_step cb (str_lower inferred) h Hwf)
      as (l1 & cb1 & h1 & v1 & He1 & Hd1 & Hwf1 & Hv1 & Hhdv1 & _).
    destruct (encode_step cb1 (str_lower source) h1 Hwf1)
      as (l2 & cb2 & h2 & v2 & He2 & Hd2 & Hwf2 & Hv2 & Hhdv2 & Hgrow).
    apply Hgrow in Hv1.
    destruct (choice_ok (dim cb2) rng (proj1 Hwf2))
      as (noise & rng' & Hc & Hnoise).
    cbn [infer_particles]. rewrite He1. cbn [mbind result_bind].
    rewrite He2. cbn [mbind result_bind]. rewrite Hc.
    cbn [mbind result_bind].
    rewrite (list_lookup_total_correct _ _ _ Hv1),
            (list_lookup_total_correct _ _ _ Hv2).
    assert (dim cb2 = dim cb) as Hd12 by congruence.
    rewrite Hd1 in Hhdv2. rewrite Hd12 in Hnoise.
    edestruct IH as (field' & cb' & h' & Hb & Hd & Hwf' & Hf');
      [exact Hwf2| |].
    2:{ exists field', cb', h'. rewrite Hb. rewrite Hd12 in Hf'.
        split_and!; try done; congruence. }
    rewrite Hd12. apply plasma_ok_add; [done| |done]. simpl.
    apply sign_blend_hdv; try done.
    intros x y z [-> | ->] [-> | ->] [-> | ->]; lra.
Qed.

Lemma create_plasma_ok
    (intent emotion context persona : string) (cb : Codebook)
    (knowledge : option (list string → Z → list (string * string * string)))
    (h : heap) :
  codebook_wf cb h →
  ∃ field cb' h',
    create_plasma intent emotion context persona cb knowledge h
    = Ok (field, cb', h') ∧
    Forall (λ p, hdv (Z.to_nat (dim cb)) (position p) ∧ frozen p = false)
           field ∧
    dim cb' = dim cb ∧ codebook_wf cb' h'.
Proof.
  intros Hwf. unfold create_plasma. cbv zeta.
  destruct (core_inputs_ok
              [(INTENT, intent); (EMOTION, emotion); (CONTEXT, context);
               (PERSONA, persona)] [] (λ _, None) cb h Hwf)
    as (f1 & wbc & cb1 & h1 & -> & Hd1 & Hwf1 & Hf1); [constructor|].
  cbn [mbind result_bind]. rewrite <- Hd1 in Hf1.
  assert (∃ f2 cb2 h2,
            cross_binding (default [] (wbc INTENT)) f1 cb1 h1
            = Ok (f2, cb2, h2) ∧ dim cb2 = dim cb1 ∧ codebook_wf cb2 h2 ∧
            plasma_ok (Z.to_nat (dim cb1)) f2)
    as (f2 & cb2 & h2 & -> & Hd2 & Hwf2 & Hf2).
  { unfold cross_binding. case_decide; [by apply bind_pairs_ok|].
    by exists f1, cb1, h1. }
  cbn [mbind result_bind]. rewrite <- Hd2 in Hf2.
  assert (∃ f3 cb3 h3,
            emotional_coloring (default [] (wbc EMOTION))
                               (default [] (wbc INTENT)) f2 cb2 h2
            = Ok (f3, cb3, h3) ∧ dim cb3 = dim cb2 ∧ codebook_wf cb3 h3 ∧
            plasma_ok (Z.to_nat (dim cb2)) f3)
    as (f3 & cb3 & h3 & -> & Hd3 & Hwf3 & Hf3).
  { unfold emotional_coloring. case_decide; [by apply color_emotions_ok|].
    by exists f2, cb2, h2. }
  cbn [mbind result_bind]. rewrite <- Hd3 in Hf3.
  assert (∃ f4 cb4 h4,
            knowledge_inference knowledge
              (default [] (wbc INTENT) ++ default [] (wbc CONTEXT)) f3 cb3 h3
            = Ok (f4, cb4, h4) ∧ dim cb4 = dim cb3 ∧ codebook_wf cb4 h4 ∧
            plasma_ok (Z.to_nat (dim cb3)) f4)
    as (f4 & cb4 & h4 & -> & Hd4 & Hwf4 & Hf4).
  { unfold knowledge_inference. destruct knowledge as [expand|].
    - by apply infer_particles_ok.
    - by exists f3, cb3, h3. }
  exists f4, cb4, h4. split_and!; try done; [|congruence].
  by rewrite Hd3, Hd2, Hd1 in Hf4.
Qed.

(** X28: on a codebook in a state between calls, [create_plasma] returns
    for every input, with or without a knowledge object, and every particle
    of the plasma is free and has a bipolar position of the dimension of
    the codebook: no blend of concept vectors and noise leaves an entry at
    zero.  The codebook is afterwards again in a state between calls. *)
Theorem create_plasma_positions_bipolar
    (intent emotion context persona : string) (cb : Codebook)
    (knowledge : option (list string → Z → list (string * string * string)))
    (h : heap) :
  codebook_wf cb h →
  ∃ field cb' h',
    create_plasma intent emotion context persona cb knowledge h
    = Ok (field, cb', h') ∧
    Forall (λ p, hdv (Z.to_nat (dim cb)) (position p) ∧ frozen p = false)
           field ∧
    dim cb' = dim cb ∧ codebook_wf cb' h'.
Proof. apply create_plasma_ok. Qed.

(** ** The number of crystals *)

Lemma cooling_loop_length (fuel : nat) (cooling_rate min_temperature : R) :
  ∀ (temperature : R) (nuclei nuclei' : list CrystalNucleus)
    (f f' : ParticleField) (rng : RandomState),
    cooling_loop fuel cooling_rate min_temperature temperature nuclei f rng
    = Some (nuclei', f') →
    (length nuclei' <= length nuclei)%nat.
Proof.
  induction fuel as [|fuel IH]; intros temperature nuclei nuclei' f f' rng;
    simpl.
  - case_decide; [destruct (free_particles f)|]; intros [= <- <-]; lia.
  - case_decide; [destruct (free_particles f) as [|p free]|];
      try (intros [= <- <-]; lia).
    pose proof (absorb_pass_length temperature (p :: free) nuclei f rng)
      as Hlen.
    destruct (absorb_pass temperature (p :: free) nuclei f rng)
      as [[nuclei1 f1] rng1]. simpl in Hlen.
    intros Hloop%IH.
    pose proof (merge_nearby_spec 0.12 nuclei1) as (_ & _ & Hm & _). lia.
Qed.

Lemma residual_fold_nuclei_length (ps : list nat) :
  ∀ (nuclei : list CrystalNucleus) (f : ParticleField),
    length (foldl residual_body (nuclei, f) ps).1 = length nuclei.
Proof.
  induction ps as [|p ps IH]; intros nuclei f; [done|]. simpl.
  destruct (negb (frozen (f !!! p)) && _); [|by apply IH].
  by rewrite IH, length_alter.
Qed.

Lemma length__recursive_nest (crystals : list Crystal) :
  (length (_recursive_nest crystals) <= length crystals)%nat.
Proof.
  unfold _recursive_nest. case_decide; [done|]. cbv zeta.
  rewrite length_fmap.
  etransitivity; [apply length_filter|].
  rewrite length_zip_with, !length_imap. lia.
Qed.

(** X30: [crystallize] never returns more crystals than it was given
    nuclei, since the merges and the nesting only take nuclei and crystals
    away; and it returns at least one crystal when it was given a nucleus
    and there is a particle at all, held by a nucleus or free. *)
Theorem crystallize_crystal_count (fuel : nat) (f f2 : ParticleField)
    (nuclei : list CrystalNucleus) (codebook : Codebook)
    (cooling_rate min_temperature : R) (max_crystals : Z)
    (crystals : list Crystal) :
  crystallize fuel f nuclei codebook cooling_rate min_temperature max_crystals
  = Some (crystals, f2) →
  (length crystals <= length nuclei)%nat ∧
  (nuclei ≠ [] → absorbed_all nuclei ++ free_particles f ≠ [] →
   crystals ≠ []).
Proof.
  intros Hcry. split.
  - revert Hcry. unfold crystallize. destruct nuclei as [|n0 nuclei].
    { intros [= <- _]. simpl. lia. }
    destruct (cooling_loop fuel cooling_rate min_temperature 1.0
                (_merge_nearby_nuclei 0.15 (n0 :: nuclei)) f
                (RandomState_seeded 42)) as [[nuclei1 f1]|] eqn:Hloop;
      [|discriminate].
    cbn [mbind option_bind].
    apply cooling_loop_length in Hloop.
    pose proof (merge_nearby_spec 0.15 (n0 :: nuclei)) as (_ & _ & Hm & _).
    pose proof (residual_fold_nuclei_length (free_particles f1) nuclei1 f1)
      as Hres.
    fold (residual_pass nuclei1 f1) in Hres.
    destruct (residual_pass nuclei1 f1) as [nuclei2 f2']. simpl in Hres.
    intros [= <- <-].
    pose proof (force_merge_spec max_crystals nuclei2) as (_ & Hfm & _).
    rewrite (Permutation_length (stable_sort_perm _ _)).
    etransitivity; [apply length__recursive_nest|].
    unfold _detect_shapes. rewrite length_imap, length_fmap.
    etransitivity; [apply length_filter|]. lia.
  - intros Hne Hsome ->.
    apply crystallize_particles in Hcry; [|done].
    apply Permutation_nil_l in Hcry. done.
Qed.

(** ** From the inputs to the crystals *)

Lemma free_particles_all_free (f : ParticleField) :
  Forall (λ p, frozen p = false) f → free_particles f = seq 0 (length f).
Proof.
  intros Hfree. unfold free_particles. apply filter_ext_all.
  intros i Hi. apply elem_of_seq in Hi.
  destruct (lookup_lt_is_Some_2 f i ltac:(lia)) as [p Hp].
  rewrite (list_lookup_total_correct _ _ _ Hp).
  by eapply Forall_lookup_1 in Hfree.
Qed.

Lemma np_stack_same_length (D : nat) (vecs : list ndarray) :
  vecs ≠ [] → Forall (λ v : ndarray, length v = D) vecs →
  np_stack vecs = Ok vecs.
Proof.
  intros Hne Hall. destruct vecs as [|v vs]; [done|]. simpl.
  apply Forall_cons in Hall as [Hv Hvs].
  rewrite decide_True; [done|].
  eapply Forall_impl; [exact Hvs|]. simpl. intros u Hu. lia.
Qed.

(** On a field whose positions have one length, [np.stack] accepts them:
    [compute_density] and [nucleate] return. *)
Lemma compute_density_returns (D : nat) (f : ParticleField)
    (min_distance : R) :
  Forall (λ p, length (position p) = D) f →
  ∃ peaks, compute_density f min_distance = Ok peaks.
Proof.
  intros Hall. unfold compute_density.
  destruct (free_particles f) as [|p0 free0] eqn:Hfree; [by exists []|].
  rewrite <- Hfree.
  rewrite (np_stack_same_length D); [by eexists|by rewrite Hfree|].
  apply Forall_fmap, Forall_forall. intros p Hp. simpl.
  apply free_particles_lt in Hp as [Hp _].
  destruct (lookup_lt_is_Some_2 f p Hp) as [q Hq].
  rewrite (list_lookup_total_correct _ _ _ Hq).
  by eapply Forall_lookup_1 in Hall.
Qed.

Lemma nucleate_returns (D : nat) (f : ParticleField) (codebook : Codebook)
    (min_density_distance : R) :
  Forall (λ p, length (position p) = D) f →
  ∃ nuclei f1, nucleate f codebook min_density_distance = Ok (nuclei, f1).
Proof.
  intros Hall. unfold nucleate.
  destruct (compute_density_returns D f min_density_distance Hall)
    as [peaks ->].
  cbn [mbind result_bind]. destruct peaks; by eexists _, _.
Qed.

(** The field after [nucleate] and [crystallize], whatever the positions
    are: every particle frozen when a nucleus was found, the field as it
    was when none was. *)
Lemma pipeline_frozen (f f1 f2 : ParticleField)
    (codebook : Codebook) (min_density_distance : R)
    (cooling_rate min_temperature : R) (max_crystals : Z) (fuel : nat)
    (nuclei : list CrystalNucleus) (crystals : list Crystal) :
  nucleate f codebook min_density_distance = Ok (nuclei, f1) →
  crystallize fuel f1 nuclei codebook cooling_rate min_temperature
              max_crystals = Some (crystals, f2) →
  length f2 = length f ∧
  (∀ i, i ∈ absorbed_all nuclei → frozen (f1 !!! i) = true) ∧
  (nuclei ≠ [] → all_frozen f2) ∧
  (nuclei = [] → crystals = [] ∧ f2 = f).
Proof.
  intros Hnuc Hcry.
  pose proof (crystallize_frame _ _ _ _ _ _ _ _ _ Hcry) as [Hfr Hall].
  apply nucleate_inv in Hnuc as (peaks & Hpeaks & Hn & Hf1).
  assert (length f1 = length f) as Hlen
    by (rewrite Hf1; apply length_foldl_freeze).
  split_and!.
  - apply only_freezes_length in Hfr. congruence.
  - intros i Hi. rewrite Hf1. apply frozen_foldl_freeze. right.
    split; [done|].
    apply compute_density_peaks_sound in Hpeaks as (_ & Hfree & _).
    assert (i ∈ free_particles f) as Hin.
    { apply Hfree. rewrite Hn in Hi.
      rewrite (absorbed_all_perm _ _ (stable_sort_perm _ _)) in Hi.
      unfold absorbed_all in Hi. by rewrite <- list_fmap_compose in Hi. }
    by apply free_particles_elem in Hin as [? _].
  - exact Hall.
  - intros ->. simpl in Hcry. injection Hcry as <- <-. by subst f1.
Qed.

(** X29: the first three phases of the engine, run one after the other on a
    codebook in a state between calls.  [create_plasma] returns for every
    input, and on its plasma [nucleate] returns for every peak distance.
    [crystallize] then returns whenever each cooling step lowers the
    temperature by a fixed amount.  When [nucleate] has found a nucleus,
    every particle of the plasma is frozen in the end and is in exactly one
    crystal: the particles of the crystals and of their children are the
    particles of the plasma, each once.  When it has found none, there is
    no crystal and the plasma is as it was. *)
Theorem plasma_crystallizes_completely
    (intent emotion context persona : string) (cb : Codebook)
    (knowledge : option (list string → Z → list (string * string * string)))
    (h : heap) :
  codebook_wf cb h →
  ∃ field cb' h',
    create_plasma intent emotion context persona cb knowledge h
    = Ok (field, cb', h') ∧
    ∀ min_density_distance : R,
      ∃ nuclei f1,
        nucleate field cb' min_density_distance = Ok (nuclei, f1) ∧
        (∀ (fuel : nat) (cooling_rate min_temperature : R)
           (max_crystals : Z) (delta : R),
           0 < delta →
           (∀ t, min_temperature < t → t <= 1.0 →
                 float_sub t cooling_rate <= t - delta) →
           1.0 - INR fuel * delta <= min_temperature →
           ∃ crystals f2,
             crystallize fuel f1 nuclei cb' cooling_rate min_temperature
                         max_crystals = Some (crystals, f2)) ∧
        (∀ (fuel : nat) (cooling_rate min_temperature : R)
           (max_crystals : Z) (crystals : list Crystal) (f2 : ParticleField),
           crystallize fuel f1 nuclei cb' cooling_rate min_temperature
                       max_crystals = Some (crystals, f2) →
           length f2 = length field ∧
           (nuclei ≠ [] →
            all_frozen f2 ∧
            crystal_particles crystals ≡ₚ seq 0 (length field)) ∧
           (nuclei = [] → crystals = [] ∧ f2 = field)).
Proof.
  intros Hwf.
  destruct (create_plasma_ok intent emotion context persona cb knowledge h Hwf)
    as (field & cb' & h' & Hplasma & Hfield & _ & _).
  exists field, cb', h'. split; [done|]. intros md.
  assert (Forall (λ p, length (position p) = Z.to_nat (dim cb)) field)
    as Hpos.
  { eapply Forall_impl; [exact Hfield|]. by intros p [[? _] _]. }
  assert (Forall (λ p, frozen p = false) field) as Hfree.
  { eapply Forall_impl; [exact Hfield|]. by intros p [_ ?]. }
  destruct (nucleate_returns _ field cb' md Hpos) as (nuclei & f1 & Hnuc).
  exists nuclei, f1. split; [done|]. split.
  - intros fuel rate mt cap delta. apply crystallize_returns.
  - intros fuel rate mt cap crystals f2 Hcry.
    destruct (pipeline_frozen _ _ _ _ _ _ _ _ _ _ _ Hnuc Hcry)
      as (Hlen & _ & Hall & Hnone).
    split_and!; [done| |done].
    intros Hne. split; [by apply Hall|].
    rewrite <- free_particles_all_free by done.
    by eapply pipeline_particles.
Qed.

(** ** Two more readings of the same data *)

(** [Particle.similarity_to] is the codebook's similarity of the
    positions. *)
Lemma similarity_to_similarity (p q : Particle) :
  similarity_to p q = similarity (position p) (position q).
Proof. reflexivity. Qed.

(** [known_symbols] lists exactly the cached symbols, each once. *)
Lemma known_symbols_spec (cb : Codebook) (s : string) :
  (s ∈ known_symbols cb ↔ is_Some (_memory cb !! s)) ∧
  length (known_symbols cb) = size (_memory cb).
Proof.
  unfold known_symbols. split.
  - rewrite list_elem_of_fmap. split.
    + intros ([s' l] & -> & Hin). apply elem_of_memory_items in Hin. eauto.
    + intros [l Hl]. exists (s, l). split; [done|].
      by apply elem_of_memory_items.
  - by rewrite length_fmap, length_memory_items.
Qed.

(** ** The order of the cache *)

Lemma encode_ordered (cb cb' : Codebook) (h h' : heap) (s : string)
    (l : loc) :
  codebook_ordered cb h → encode cb s h = Ok (l, cb', h') →
  codebook_ordered cb' h'.
Proof.
  intros [Hlt Hinj]. unfold encode.
  destruct (_memory cb !! s) as [l0|] eqn:Hs; [by intros [= _ <- <-]|].
  destruct (choice _ _) as [[v rng]|]; [|discriminate].
  cbn [mbind result_bind]. intros [= _ <- <-]. split; simpl.
  - intros s1 l1. rewrite length_app. simpl.
    destruct (decide (s1 = s)) as [->|Hne].
    + rewrite lookup_insert_eq. intros [= <-]. lia.
    + rewrite lookup_insert_ne by done. intros Hl%Hlt. lia.
  - intros s1 s2 l1.
    destruct (decide (s1 = s)) as [->|Hne1], (decide (s2 = s)) as [->|Hne2];
      try done.
    + rewrite lookup_insert_eq, lookup_insert_ne by done.
      intros [= <-] Hl%Hlt. lia.
    + rewrite lookup_insert_eq, lookup_insert_ne by done.
      intros Hl%Hlt [= <-]. lia.
    + rewrite !lookup_insert_ne by done. apply Hinj.
Qed.

Lemma codebook_reachable_ordered (cb : Codebook) (h : heap) :
  codebook_reachable cb h → codebook_ordered cb h.
Proof.
  induction 1 as [d sd cb h Hd [= <-]|cb cb' s l h h' _ IH He|cb h v _ IH].
  - split; simpl; intros *; by rewrite lookup_empty.
  - by eapply encode_ordered.
  - destruct IH as [Hlt Hinj]. split; [|done].
    intros s l Hl%Hlt. rewrite length_app. lia.
Qed.

Lemma stable_sort_sorted_nat {A} (key : A → nat) (l : list A) :
  StronglySorted (λ a b, (key a <= key b)%nat)
    (stable_sort (λ a b, bool_decide (key a < key b)%nat) l).
Proof.
  induction l as [|x l IH]; simpl; [constructor|].
  revert IH. generalize (stable_sort (λ a b, bool_decide (key a < key b)%nat) l).
  intros k. induction 1 as [|y k Hk IH Hy]; simpl; [repeat constructor|].
  case_bool_decide as Hyx.
  - constructor; [done|]. rewrite stable_insert_perm.
    constructor; [lia|done].
  - constructor; [by constructor|]. constructor; [lia|].
    eapply Forall_impl; [exact Hy|]. simpl. intros; lia.
Qed.

Lemma StronglySorted_snoc {A} (R : A → A → Prop) (l : list A) (y : A) :
  StronglySorted R l → Forall (λ x, R x y) l → StronglySorted R (l ++ [y]).
Proof.
  induction 1 as [|x l Hl IH Hx]; intros Hy; simpl; [repeat constructor|].
  apply Forall_cons in Hy as [Hxy Hy].
  constructor; [by apply IH|]. apply Forall_app. split; [done|].
  by constructor.
Qed.

(** X20: [known_symbols] lists the symbols in the order in which they were
    first encoded: on a codebook reached by [encode] from the constructor,
    the first [encode] of a symbol appends it, with its fresh array, to the
    items of the cache, and so to [known_symbols]. *)
Theorem known_symbols_in_insertion_order (cb cb' : Codebook) (h h' : heap) (s : string)
    (l : loc) :
  codebook_reachable cb h → _memory cb !! s = None →
  encode cb s h = Ok (l, cb', h') →
  memory_items cb' = memory_items cb ++ [(s, l)] ∧
  known_symbols cb' = known_symbols cb ++ [s].
Proof.
  intros Hord%codebook_reachable_ordered Hs He.
  pose proof (encode_ordered _ _ _ _ _ _ Hord He) as [_ Hinj'].
  destruct Hord as [Hlt _].
  enough (memory_items cb' = memory_items cb ++ [(s, l)]) as Hitems.
  { split; [done|]. unfold known_symbols. by rewrite Hitems, fmap_app. }
  unfold encode in He. rewrite Hs in He.
  destruct (choice _ _) as [[v rng]|]; [|discriminate].
  cbn [mbind result_bind] in He. injection He as <- <- <-.
  unfold memory_items in *. simpl in *.
  assert (stable_sort (λ a b : string * loc, bool_decide (a.2 < b.2)%nat)
            (map_to_list (<[s:=length h]> (_memory cb)))
          ≡ₚ stable_sort (λ a b : string * loc, bool_decide (a.2 < b.2)%nat)
               (map_to_list (_memory cb)) ++ [(s, length h)]) as Hperm.
  { rewrite !stable_sort_perm, map_to_list_insert by done.
    by rewrite Permutation_cons_append. }
  apply (StronglySorted_unique_strong
           (λ a b : string * loc, (a.2 <= b.2)%nat)).
  - intros [s1 l1] [s2 l2] H1 H2 Hle1 Hle2. simpl in *.
    assert (l1 = l2) as <- by lia.
    rewrite <- Hperm in H2. rewrite stable_sort_perm in H1, H2.
    apply elem_of_map_to_list in H1, H2.
    f_equal. by eapply Hinj'.
  - apply (stable_sort_sorted_nat (λ a : string * loc, a.2)).
  - apply StronglySorted_snoc.
    + apply (stable_sort_sorted_nat (λ a : string * loc, a.2)).
    + apply Forall_forall. intros [s1 l1].
      rewrite stable_sort_perm, elem_of_map_to_list. simpl.
      intros Hl%Hlt. lia.
  - exact Hperm.
Qed.

(** ** The pipeline and the configuration *)

(** C1, as the code has it.  On a field whose positions have one length,
    [nucleate] returns, and it has frozen the particles that its nuclei
    hold; [crystallize] on these nuclei returns whenever each cooling step
    lowers the temperature by a fixed amount.  Whenever [nucleate] has found
    at least one nucleus, the field that [crystallize] returns has every
    particle frozen, whatever the positions, the charges, the peak distance,
    the cooling rate and the temperatures are: the pass after the absorption
    loop freezes each particle that is still free, also one that no nucleus
    attracts.  When [nucleate] has found no nucleus, [crystallize] returns
    no crystal and the field is as it was. *)
Theorem pipeline_freezes_every_particle (D : nat) (f : ParticleField)
    (codebook : Codebook) (min_density_distance : R) :
  Forall (λ p, length (position p) = D) f →
  ∃ nuclei f1,
    nucleate f codebook min_density_distance = Ok (nuclei, f1) ∧
    (∀ i, i ∈ absorbed_all nuclei → frozen (f1 !!! i) = true) ∧
    (∀ (fuel : nat) (cooling_rate min_temperature : R) (max_crystals : Z)
       (delta : R),
       0 < delta →
       (∀ t, min_temperature < t → t <= 1.0 →
             float_sub t cooling_rate <= t - delta) →
       1.0 - INR fuel * delta <= min_temperature →
       ∃ crystals f2,
         crystallize fuel f1 nuclei codebook cooling_rate min_temperature
                     max_crystals = Some (crystals, f2)) ∧
    (∀ (fuel : nat) (cooling_rate min_temperature : R) (max_crystals : Z)
       (crystals : list Crystal) (f2 : ParticleField),
       crystallize fuel f1 nuclei codebook cooling_rate min_temperature
                   max_crystals = Some (crystals, f2) →
       length f2 = length f ∧
       (nuclei ≠ [] → Forall (λ p, frozen p = true) f2) ∧
       (nuclei = [] → crystals = [] ∧ f2 = f)).
Proof.
  intros Hlen.
  destruct (nucleate_returns D f codebook min_density_distance Hlen)
    as (nuclei & f1 & Hnuc).
  exists nuclei, f1. split; [exact Hnuc|]. split_and!.
  - intros i Hi.
    apply nucleate_inv in Hnuc as (peaks & Hpeaks & Hn & Hf1).
    rewrite Hf1. apply frozen_foldl_freeze. right. split; [done|].
    apply compute_density_peaks_sound in Hpeaks as (_ & Hfree & _).
    assert (i ∈ free_particles f) as Hin.
    { apply Hfree. rewrite Hn in Hi.
      rewrite (absorbed_all_perm _ _ (stable_sort_perm _ _)) in Hi.
      unfold absorbed_all in Hi. by rewrite <- list_fmap_compose in Hi. }
    by apply free_particles_elem in Hin as [? _].
  - intros fuel cooling_rate min_temperature max_crystals delta.
    apply crystallize_returns.
  - intros fuel cooling_rate min_temperature max_crystals crystals f2 Hcry.
    destruct (pipeline_frozen _ _ _ _ _ _ _ _ _ _ _ Hnuc Hcry)
      as (Hl & _ & Hall & Hnone).
    by split_and!.
Qed.




End Core.

(** * The theorems at concrete inputs *)

(** ** The helpers on small inputs *)

Example base_concept_hash : base_concept "Mut#3" = "Mut".
Proof. reflexivity. Qed.

Example base_concept_tilde : base_concept "Mut~Angst" = "Mut".
Proof. reflexivity. Qed.

Example base_concept_plus : base_concept "Mut+Kraft" = "Mut".
Proof. reflexivity. Qed.

Example join_plus : join "+" ["Mut"; "Kraft"; "Angst"] = "Mut+Kraft+Angst".
Proof. reflexivity. Qed.

(** Ties keep the order of first occurrence, as [Counter.most_common]
    does. *)
Example most_common_ties :
  most_common 3 (Counter ["a"; "b"; "b"; "c"; "d"; "d"])
  = [("b", 2%nat); ("d", 2%nat); ("a", 1%nat)].
Proof. reflexivity. Qed.

Example free_particles_sample : free_particles Sample.field = [0; 1]%nat.
Proof. reflexivity. Qed.

Example frozen_particles_sample : frozen_particles Sample.field = [2]%nat.
Proof. reflexivity. Qed.

Example assign_masked_fills_in_order :
  assign_masked [0; 2; 0; -2] [true; false; true; false] [1; -1]
  = [1; 2; -1; -2].
Proof. reflexivity. Qed.

(** [np.argmax] takes the first of two equal maxima and never an entry
    masked by [-inf] while another is left. *)
Example np_argmax_first_maximum :
  np_argmax [NegInf; Fin 1; Fin 3; Fin 3] = 2%nat.
Proof.
  unfold np_argmax, argmax_from, ext_lt.
  rewrite (bool_decide_eq_true_2 (1 < 3)) by lra.
  by rewrite (bool_decide_eq_false_2 (3 < 3)) by lra.
Qed.

Example first_min_index_first_minimum :
  first_min_index (λ x : R, x) [2; 1; 1; 3] = 1%nat.
Proof.
  unfold first_min_index, first_min_from.
  rewrite (decide_True (P := 1 < 2)) by lra.
  rewrite (decide_False (P := 1 < 1)) by lra.
  by rewrite (decide_False (P := 3 < 1)) by lra.
Qed.

(** The stable sort by descending strength that [nucleate] and
    [crystallize] end with. *)
Example stable_sort_descending :
  stable_sort (λ a b : R * string, bool_decide (- a.1 < - b.1))
              [(1, "a"); (3, "b"); (1, "c"); (3, "d")]
  = [(3, "b"); (3, "d"); (1, "a"); (1, "c")].
Proof.
  unfold stable_sort. cbn [foldr].
  repeat (cbn [stable_insert fst];
          first [rewrite bool_decide_eq_true_2 by lra
                |rewrite bool_decide_eq_false_2 by lra]).
  done.
Qed.

(** ** [compute_density] on the sample field *)

Lemma sqrt2_sqr : sqrt 2 * sqrt 2 = 2.
Proof. apply sqrt_sqrt. lra. Qed.

Lemma sqrt2_ge_1 : 1 <= sqrt 2.
Proof. rewrite <- sqrt_1 at 1. apply sqrt_le_1_alt. lra. Qed.

(** The two free particles of the sample field are orthogonal. *)
Example sim_matrix_sample :
  sim_matrix [[1; 1]; [1; -1]] = [[1; 0]; [0; 1]].
Proof.
  unfold sim_matrix. cbn [fmap list_fmap zip_with].
  assert (norm [1; 1] = sqrt 2) as ->
    by (unfold norm, dot, Rsum; cbn; f_equal; lra).
  assert (norm [1; -1] = sqrt 2) as ->
    by (unfold norm, dot, Rsum; cbn; f_equal; lra).
  pose proof sqrt2_sqr as Hsqr. pose proof sqrt2_ge_1 as Hge.
  rewrite Rmax_left by lra.
  unfold vdiv, dot, Rsum. cbn [fmap list_fmap zip_with foldr].
  assert (Hq : ∀ x y, x / sqrt 2 * (y / sqrt 2) = x * y / 2).
  { intros x y. unfold Rdiv.
    replace (x * / sqrt 2 * (y * / sqrt 2))
      with (x * y * (/ sqrt 2 * / sqrt 2)) by ring.
    by rewrite <- Rinv_mult, Hsqr. }
  rewrite !Hq. repeat f_equal; lra.
Qed.

Example densities_sample :
  densities_of [[1; 0]; [0; 1]] [1; 1] = [1; 1].
Proof.
  unfold densities_of, dot, Rsum. cbn [fmap list_fmap zip_with foldr].
  rewrite (Rmax_left 1 0), (Rmax_left 0 0) by lra.
  repeat f_equal; lra.
Qed.

(** With any [min_distance] in (0, 1] each of the two free particles is the
    seed of a peak of its own; the frozen particle is in neither. *)
Example compute_density_sample (min_distance : R) :
  0 < min_distance → min_distance <= 1 →
  compute_density Sample.field min_distance
  = Ok [{| peak_position := [1; 1]; density := 1;
           contributing_particles := [0%nat] |};
        {| peak_position := [1; -1]; density := 1;
           contributing_particles := [1%nat] |}].
Proof.
  intros Hpos Hle. unfold compute_density.
  change (free_particles Sample.field) with [0; 1]%nat.
  change ((λ p, position (Sample.field !!! p)) <$> [0; 1]%nat)
    with [[1; 1]; [1; -1]].
  change ((λ p, charge (Sample.field !!! p)) <$> [0; 1]%nat) with [1; 1].
  cbn [np_stack length]. rewrite decide_True by (by repeat constructor).
  cbn [mbind result_bind]. rewrite sim_matrix_sample, densities_sample.
  f_equal. unfold greedy_peaks. cbn [length replicate].
  assert (Hyes : bool_decide (min_distance <= 1) = true)
    by (by apply bool_decide_eq_true_2).
  assert (Hno : bool_decide (min_distance <= 0) = false)
    by (apply bool_decide_eq_false_2; lra).
  assert (H10 : bool_decide (1 <= 0) = false)
    by (apply bool_decide_eq_false_2; lra).
  assert (H11 : bool_decide (1 < 1) = false)
    by (apply bool_decide_eq_false_2; lra).
  (* two iterations: particle 0 is the first seed, particle 1 the second *)
  do 2 (rewrite peak_loop_eq; unfold peak_step, collect, masked_of;
        repeat (cbn [length seq foldl collect_body zip_with np_argmax
                     argmax_from ext_lt ext_le0 lookup_total
                     list_lookup_total negb andb insert list_insert app
                     forallb];
                first [rewrite Hyes | rewrite Hno | rewrite H10
                      | rewrite H11])).
  reflexivity.
Qed.

(** [nucleate] turns the two peaks into two nuclei, in their order since
    their strengths are equal, and freezes the two free particles. *)
Example nucleate_sample (min_density_distance : R) :
  0 < min_density_distance → min_density_distance <= 1 →
  nucleate Sample.field Sample.cb min_density_distance
  = Ok ([{| center := [1; 1]; strength := 1; emotional_charge := None;
            absorbed_particles := [0%nat]; nucleus_label := "Mut" |};
         {| center := [1; -1]; strength := 1; emotional_charge := None;
            absorbed_particles := [1%nat]; nucleus_label := "Angst" |}],
        [Sample.particle [1; 1] "Mut#0" true;
         Sample.particle [1; -1] "Angst#0" true;
         Sample.particle [-1; -1] "Kraft#0" true]).
Proof.
  intros Hpos Hle. unfold nucleate.
  rewrite compute_density_sample by done. cbn [mbind result_bind].
  unfold stable_sort. cbn [fmap list_fmap foldr stable_insert].
  change (strength (nucleus_of_peak Sample.field _)) with 1.
  rewrite (bool_decide_eq_false_2 (- 1 < - 1)) by lra.
  reflexivity.
Qed.

Lemma similarity_sample_orthogonal : similarity [1; 1] [1; -1] = 0.
Proof.
  unfold similarity. case_decide; [done|].
  unfold dot, Rsum. cbn [zip_with foldr].
  replace (1 * 1 + (1 * -1 + 0)) with 0 by lra.
  apply Rdiv_0_l.
Qed.

(** [crystallize] on the outcome of [nucleate]: the two nuclei stay apart,
    nothing is left to absorb, and each nucleus becomes a fragment of one
    concept. *)
Example crystallize_sample (fuel : nat) :
  crystallize Sample.uniform Rminus fuel
    [Sample.particle [1; 1] "Mut#0" true;
     Sample.particle [1; -1] "Angst#0" true;
     Sample.particle [-1; -1] "Kraft#0" true]
    [{| center := [1; 1]; strength := 1; emotional_charge := None;
        absorbed_particles := [0%nat]; nucleus_label := "Mut" |};
     {| center := [1; -1]; strength := 1; emotional_charge := None;
        absorbed_particles := [1%nat]; nucleus_label := "Angst" |}]
    Sample.cb 0.05 0.01 4
  = Some
      ([{| nucleus :=
             {| center := [1; 1]; strength := 1; emotional_charge := None;
                absorbed_particles := [0%nat]; nucleus_label := "Mut" |};
           shape := "fragment"; element_count := 1;
           crystal_emotional_charge := 0;
           crystal_residual_temperature := np_mean [0.5];
           contrast_partner := None; children := [] |};
        {| nucleus :=
             {| center := [1; -1]; strength := 1; emotional_charge := None;
                absorbed_particles := [1%nat]; nucleus_label := "Angst" |};
           shape := "fragment"; element_count := 1;
           crystal_emotional_charge := 0;
           crystal_residual_temperature := np_mean [0.5];
           contrast_partner := None; children := [] |}],
       [Sample.particle [1; 1] "Mut#0" true;
        Sample.particle [1; -1] "Angst#0" true;
        Sample.particle [-1; -1] "Kraft#0" true]).
Proof.
  unfold crystallize.
  rewrite _merge_nearby_nuclei_cons. cbn [merge_scan center fst snd].
  rewrite similarity_sample_orthogonal.
  rewrite (decide_False (P := 0.15 <= 0)) by lra. cbn [fst snd merge_scan].
  rewrite _merge_nearby_nuclei_cons. cbn [merge_scan fst snd].
  rewrite _merge_nearby_nuclei_equation_1.
  rewrite cooling_loop_all_frozen by (by repeat constructor).
  cbn [mbind option_bind]. unfold residual_pass.
  change (free_particles _) with (@nil nat). cbn [foldl].
  rewrite _force_merge_small_eq. unfold force_merge_step.
  rewrite decide_False by (simpl; lia).
  rewrite !filter_cons, filter_nil. rewrite !decide_True by done.
  match goal with
  | |- Some (stable_sort _ (_recursive_nest (_detect_shapes ?cs)), _) = _ =>
      assert (_recursive_nest (_detect_shapes cs)
              = [{| nucleus :=
                      {| center := [1; 1]; strength := 1;
                         emotional_charge := None;
                         absorbed_particles := [0%nat];
                         nucleus_label := "Mut" |};
                    shape := "fragment"; element_count := 1;
                    crystal_emotional_charge := 0;
                    crystal_residual_temperature := np_mean [0.5];
                    contrast_partner := None; children := [] |};
                 {| nucleus :=
                      {| center := [1; -1]; strength := 1;
                         emotional_charge := None;
                         absorbed_particles := [1%nat];
                         nucleus_label := "Angst" |};
                    shape := "fragment"; element_count := 1;
                    crystal_emotional_charge := 0;
                    crystal_residual_temperature := np_mean [0.5];
                    contrast_partner := None; children := [] |}]) as ->
        by reflexivity
  end.
  unfold stable_sort. cbn [foldr stable_insert nucleus strength].
  rewrite (bool_decide_eq_false_2 (- 1 < - 1)) by lra.
  reflexivity.
Qed.

(** ** The absorption loop on a field with a free particle *)

(** A nucleus that holds particle 0, and a free particle 1 at the same
    position: the attraction is 1.01, the first threshold is 1.0 * 0.5, so
    the first pass absorbs and freezes the particle, and the second
    iteration finds no free particle and breaks. *)
Example cooling_loop_absorbs (fuel : nat) :
  ∃ center',
    cooling_loop Sample.uniform Rminus (S fuel) 0.05 0.01 1.0
      [{| center := [1; 1]; strength := 1; emotional_charge := None;
          absorbed_particles := [0%nat]; nucleus_label := "Mut" |}]
      [Sample.particle [1; 1] "Mut#0" true;
       Sample.particle [1; 1] "Mut#1" false]
      (RandomState_seeded 42)
    = Some ([{| center := center'; strength := 1; emotional_charge := None;
                absorbed_particles := [0; 1]%nat; nucleus_label := "Mut" |}],
            [Sample.particle [1; 1] "Mut#0" true;
             Sample.particle [1; 1] "Mut#1" true]) ∧
    center' = [1; 1].
Proof.
  eexists. split.
  - cbn [cooling_loop]. rewrite decide_True by lra.
    change (free_particles _) with [1%nat].
    unfold absorb_pass. cbn [foldl absorb_body lookup_total list_lookup_total
                             Sample.particle frozen random rs_seed rs_pos
                             RandomState_seeded Sample.uniform].
    assert (_compute_attraction
              [Sample.particle [1; 1] "Mut#0" true;
               Sample.particle [1; 1] "Mut#1" false]
              {| center := [1; 1]; strength := 1; emotional_charge := None;
                 absorbed_particles := [0%nat]; nucleus_label := "Mut" |} 1
            = 1.01) as ->.
    { unfold _compute_attraction, total_charge.
      cbn [center lookup_total list_lookup_total Sample.particle position
           charge absorbed_particles fmap list_fmap Rsum foldr].
      assert (norm [1; 1] = sqrt 2) as ->
        by (unfold norm, dot, Rsum; cbn; f_equal; lra).
      pose proof sqrt2_sqr as Hsqr. pose proof sqrt2_ge_1 as Hge.
      rewrite decide_False by lra.
      assert (dot [1; 1] [1; 1] / (sqrt 2 * sqrt 2) = 1) as ->
        by (rewrite Hsqr; unfold dot, Rsum; cbn; lra).
      rewrite decide_False by lra. lra. }
    unfold Sample.uniform. rewrite decide_True by lra.
    cbn [app]. rewrite _merge_nearby_nuclei_cons. cbn [merge_scan fst snd].
    rewrite _merge_nearby_nuclei_equation_1.
    destruct fuel; cbn [cooling_loop];
      (destruct (decide (0.01 < 1.0 - 0.05)); [|lra]);
      change (free_particles _) with (@nil nat); reflexivity.
  - simpl. repeat f_equal; lra.
Qed.

(** ** A field with a faint position *)

Lemma faint_bounds : 0 < Sample.faint ∧ Sample.faint < 1e-8.
Proof. unfold Sample.faint. split; lra. Qed.

Lemma norm_singleton (x : R) : 0 <= x → norm [x] = x.
Proof.
  intros Hx. unfold norm, dot, Rsum. cbn [zip_with foldr].
  rewrite Rplus_0_r. by apply sqrt_square.
Qed.

(** The similarity of a faint position with itself: some [s] below 0.01,
    which is also the density of the particle. *)
Lemma faint_similarity :
  ∃ s, 0 < s ∧ s < 0.01 ∧
       sim_matrix [[Sample.faint]] = [[s]] ∧ densities_of [[s]] [1] = [s].
Proof.
  pose proof faint_bounds as [Hpos Hlt].
  exists (Sample.faint / 1e-8 * (Sample.faint / 1e-8)).
  assert (0 < Sample.faint / 1e-8 < 0.1) as Hr
    by (unfold Sample.faint; split; lra).
  split_and!; [nra|nra| |].
  - unfold sim_matrix. cbn [fmap list_fmap zip_with].
    rewrite norm_singleton by lra. rewrite Rmax_right by lra.
    unfold vdiv, dot, Rsum. cbn [fmap list_fmap zip_with foldr].
    repeat f_equal. lra.
  - unfold densities_of, dot, Rsum. cbn [fmap list_fmap zip_with foldr].
    rewrite Rmax_left by nra. f_equal. lra.
Qed.

(** With every peak distance from 0.01 on, so with the defaults 0.3 and
    0.25, the faint particle is taken as a seed, since its density is
    positive, finds no contributor, not even itself, and is marked used: no
    peak holds it and the pass over the orphans skips it. *)
Example compute_density_faint (min_distance : R) :
  0.01 <= min_distance →
  compute_density Sample.faint_field min_distance = Ok [].
Proof.
  intros Hmd. unfold compute_density.
  change (free_particles Sample.faint_field) with [0%nat].
  change ((λ p, position (Sample.faint_field !!! p)) <$> [0%nat])
    with [[Sample.faint]].
  change ((λ p, charge (Sample.faint_field !!! p)) <$> [0%nat]) with [1].
  cbn [np_stack length]. rewrite decide_True by done.
  cbn [mbind result_bind].
  destruct faint_similarity as (s & Hpos & Hlt & -> & ->).
  f_equal. unfold greedy_peaks. cbn [length replicate].
  assert (Hd : bool_decide (s <= 0) = false)
    by (apply bool_decide_eq_false_2; lra).
  assert (Hs : bool_decide (min_distance <= s) = false)
    by (apply bool_decide_eq_false_2; lra).
  (* the seed is marked used without a peak, then nothing is left *)
  do 2 (rewrite peak_loop_eq; unfold peak_step, collect, masked_of;
        repeat (cbn [length seq foldl collect_body zip_with np_argmax
                     argmax_from ext_lt ext_le0 lookup_total
                     list_lookup_total negb andb insert list_insert app
                     forallb];
                first [rewrite Hd | rewrite Hs])).
  reflexivity.
Qed.

Example nucleate_faint :
  nucleate Sample.faint_field Sample.cb 0.25 = Ok ([], Sample.faint_field).
Proof.
  unfold nucleate. rewrite compute_density_faint by lra. reflexivity.
Qed.

(** ** A field with a particle that no nucleus attracts *)

Lemma norm_faint_opposite : norm [- Sample.faint] = Sample.faint.
Proof.
  pose proof faint_bounds as [Hpos _].
  unfold norm, dot, Rsum. cbn [zip_with foldr].
  replace (- Sample.faint * - Sample.faint + 0)
    with (Sample.faint * Sample.faint) by lra.
  apply sqrt_square. lra.
Qed.

Lemma norm_1 : norm [1] = 1.
Proof. apply norm_singleton. lra. Qed.

(** The similarity matrix and the densities of the mixed field: the faint
    particle is opposite to the other one, and its similarity with itself
    is some [s] below 0.01. *)
Lemma mixed_similarity :
  ∃ r s, 0 < r ∧ 0 < s ∧ s < 0.01 ∧
         sim_matrix [[1]; [- Sample.faint]] = [[1; - r]; [- r; s]] ∧
         densities_of [[1; - r]; [- r; s]] [1; 1] = [1; s].
Proof.
  pose proof faint_bounds as [Hpos Hlt].
  exists (Sample.faint / 1e-8), (Sample.faint / 1e-8 * (Sample.faint / 1e-8)).
  assert (0 < Sample.faint / 1e-8 < 0.1) as Hr
    by (unfold Sample.faint; split; lra).
  split_and!; [lra|nra|nra| |].
  - unfold sim_matrix. cbn [fmap list_fmap zip_with].
    rewrite norm_1, norm_faint_opposite.
    rewrite Rmax_left, Rmax_right by lra.
    unfold vdiv, dot, Rsum. cbn [fmap list_fmap zip_with foldr].
    repeat f_equal; lra.
  - unfold densities_of, dot, Rsum. cbn [fmap list_fmap zip_with foldr].
    rewrite (Rmax_left 1 0) by lra.
    rewrite (Rmax_right (- (Sample.faint / 1e-8)) 0) by lra.
    rewrite (Rmax_left _ 0) by nra. repeat f_equal; lra.
Qed.

(** The particle at [1] is a peak of its own; the faint one is taken as the
    second seed, finds no contributor and is left out. *)
Example compute_density_mixed (min_distance : R) :
  0.01 <= min_distance → min_distance <= 1 →
  compute_density Sample.mixed_field min_distance
  = Ok [{| peak_position := [1]; density := 1;
           contributing_particles := [0%nat] |}].
Proof.
  intros Hmd Hle. unfold compute_density.
  change (free_particles Sample.mixed_field) with [0; 1]%nat.
  change ((λ p, position (Sample.mixed_field !!! p)) <$> [0; 1]%nat)
    with [[1]; [- Sample.faint]].
  change ((λ p, charge (Sample.mixed_field !!! p)) <$> [0; 1]%nat)
    with [1; 1].
  cbn [np_stack length]. rewrite decide_True by (by repeat constructor).
  cbn [mbind result_bind].
  destruct mixed_similarity as (r & s & Hr & Hpos & Hlt & -> & ->).
  f_equal. unfold greedy_peaks. cbn [length replicate].
  assert (H1s : bool_decide (1 < s) = false)
    by (apply bool_decide_eq_false_2; lra).
  assert (H10 : bool_decide (1 <= 0) = false)
    by (apply bool_decide_eq_false_2; lra).
  assert (Hm1 : bool_decide (min_distance <= 1) = true)
    by (by apply bool_decide_eq_true_2).
  assert (Hmr : bool_decide (min_distance <= - r) = false)
    by (apply bool_decide_eq_false_2; lra).
  assert (Hs0 : bool_decide (s <= 0) = false)
    by (apply bool_decide_eq_false_2; lra).
  assert (Hms : bool_decide (min_distance <= s) = false)
    by (apply bool_decide_eq_false_2; lra).
  do 3 (rewrite peak_loop_eq; unfold peak_step, collect, masked_of;
        repeat (cbn [length seq foldl collect_body zip_with np_argmax
                     argmax_from ext_lt ext_le0 lookup_total
                     list_lookup_total negb andb insert list_insert app
                     forallb];
                first [rewrite H1s | rewrite H10 | rewrite Hm1 | rewrite Hmr
                      | rewrite Hs0 | rewrite Hms]);
        cbn [length seq foldl collect_body zip_with np_argmax argmax_from
             ext_lt ext_le0 lookup_total list_lookup_total negb andb insert
             list_insert app forallb]).
  reflexivity.
Qed.

(** The nucleus and the fields of the pipeline on the mixed field. *)
Definition mixed_nucleus : CrystalNucleus :=
  {| center := [1]; strength := 1; emotional_charge := None;
     absorbed_particles := [0%nat]; nucleus_label := "Mut" |}.

Definition mixed_field_nucleated : ParticleField :=
  [Sample.particle [1] "Mut#0" true;
   Sample.particle [- Sample.faint] "Angst#0" false].

Definition mixed_field_frozen : ParticleField :=
  [Sample.particle [1] "Mut#0" true;
   Sample.particle [- Sample.faint] "Angst#0" true].

(** [nucleate] finds one nucleus and leaves the faint particle free. *)
Example nucleate_mixed :
  nucleate Sample.mixed_field Sample.cb 0.25
  = Ok ([mixed_nucleus], mixed_field_nucleated).
Proof.
  unfold nucleate. rewrite compute_density_mixed by lra. reflexivity.
Qed.

(** The nucleus at [1] does not attract the faint particle opposite to
    it. *)
Lemma attraction_mixed :
  _compute_attraction mixed_field_nucleated mixed_nucleus 1 = 0.
Proof.
  pose proof faint_bounds as [Hpos _].
  unfold _compute_attraction.
  cbn [center mixed_nucleus lookup_total list_lookup_total
       mixed_field_nucleated Sample.particle position].
  rewrite norm_1, norm_faint_opposite.
  rewrite decide_False by lra.
  assert (dot [1] [- Sample.faint] / (1 * Sample.faint) = -1) as ->.
  { unfold dot, Rsum. cbn [zip_with foldr]. field. lra. }
  by rewrite decide_True by lra.
Qed.

(** The absorption loop never absorbs the faint particle: it runs until the
    temperature has reached the minimum and leaves nucleus and field as they
    are. *)
Lemma cooling_loop_mixed (fuel : nat) :
  ∀ (temperature : R) (rng : RandomState),
    temperature - INR fuel * 0.05 <= 0.01 →
    cooling_loop Sample.uniform Rminus fuel 0.05 0.01 temperature
                 [mixed_nucleus] mixed_field_nucleated rng
    = Some ([mixed_nucleus], mixed_field_nucleated).
Proof.
  induction fuel as [|fuel IH]; intros temperature rng Hfuel;
    cbn [cooling_loop].
  - simpl in Hfuel. by rewrite decide_False by lra.
  - case_decide as Ht; [|done].
    change (free_particles mixed_field_nucleated) with [1%nat].
    unfold absorb_pass.
    cbn [foldl absorb_body lookup_total list_lookup_total
         mixed_field_nucleated Sample.particle frozen random].
    rewrite attraction_mixed. unfold Sample.uniform.
    rewrite decide_False by lra.
    cbn [app]. rewrite _merge_nearby_nuclei_cons. cbn [merge_scan fst snd].
    rewrite _merge_nearby_nuclei_equation_1.
    apply IH. rewrite S_INR in Hfuel. lra.
Qed.

Definition mixed_crystal : Crystal :=
  {| nucleus :=
       {| center := [1]; strength := 1; emotional_charge := None;
          absorbed_particles := [0; 1]%nat; nucleus_label := "Mut" |};
     shape := "simple"; element_count := 2;
     crystal_emotional_charge := 0;
     crystal_residual_temperature := np_mean [0.5; 0.5];
     contrast_partner := None; children := [] |}.

(** [crystallize] after [nucleate] on the mixed field: the loop runs its
    twenty iterations without absorbing, the pass after it hands the faint
    particle to the only nucleus and freezes it, and the nucleus becomes a
    crystal of two concepts. *)
Example crystallize_mixed :
  crystallize Sample.uniform Rminus 20 mixed_field_nucleated [mixed_nucleus]
              Sample.cb 0.05 0.01 4
  = Some ([mixed_crystal], mixed_field_frozen).
Proof.
  unfold crystallize.
  rewrite _merge_nearby_nuclei_cons. cbn [merge_scan fst snd].
  rewrite _merge_nearby_nuclei_equation_1.
  rewrite cooling_loop_mixed by (simpl; lra).
  cbn [mbind option_bind]. unfold residual_pass.
  change (free_particles mixed_field_nucleated) with [1%nat].
  cbn [foldl residual_body lookup_total list_lookup_total
       mixed_field_nucleated Sample.particle frozen negb andb].
  rewrite bool_decide_eq_false_2 by done. cbn [negb].
  unfold first_max_index, first_min_index. cbn [first_min_from].
  rewrite _force_merge_small_eq. unfold force_merge_step.
  rewrite decide_False by (simpl; lia).
  reflexivity.
Qed.

(** With a cooling rate that the subtraction swallows, as float64 does with
    [1.0 - 1e-17], the temperature stays at 1.0 and the loop finds the faint
    particle free in every iteration: no fuel makes [crystallize] return. *)
Example crystallize_without_cooling (fuel : nat) :
  crystallize Sample.uniform (λ t _, t) fuel mixed_field_nucleated
              [mixed_nucleus] Sample.cb 1e-17 0.01 4
  = None.
Proof.
  unfold crystallize.
  rewrite _merge_nearby_nuclei_cons. cbn [merge_scan fst snd].
  rewrite _merge_nearby_nuclei_equation_1.
  enough (∀ rng, cooling_loop Sample.uniform (λ t _, t) fuel 1e-17 0.01 1.0
                   [mixed_nucleus] mixed_field_nucleated rng = None) as ->
    by done.
  induction fuel as [|fuel IH]; intros rng; cbn [cooling_loop];
    rewrite decide_True by lra;
    change (free_particles mixed_field_nucleated) with [1%nat]; [done|].
  unfold absorb_pass.
  cbn [foldl absorb_body lookup_total list_lookup_total
       mixed_field_nucleated Sample.particle frozen random].
  rewrite attraction_mixed. unfold Sample.uniform.
  rewrite decide_False by lra.
  cbn [app]. rewrite _merge_nearby_nuclei_cons. cbn [merge_scan fst snd].
  rewrite _merge_nearby_nuclei_equation_1. apply IH.
Qed.

(** ** Nesting on a small family *)

(** A crystal of three concepts and, at the same centre, one of a single
    concept. *)
Definition sample_family : list Crystal :=
  [mkCrystal {| center := [1; 1]; strength := 2; emotional_charge := None;
                absorbed_particles := [0; 1; 2]%nat;
                nucleus_label := "Mut" |}
             "simple" 3 0 0.5 None [];
   mkCrystal {| center := [1; 1]; strength := 1; emotional_charge := None;
                absorbed_particles := [3%nat];
                nucleus_label := "Kraft" |}
             "fragment" 1 0 0.5 None []].

(** The small crystal becomes the child of the large one and leaves the top
    level. *)
Example recursive_nest_sample :
  _recursive_nest sample_family
  = [mkCrystal {| center := [1; 1]; strength := 2; emotional_charge := None;
                  absorbed_particles := [0; 1; 2]%nat;
                  nucleus_label := "Mut" |}
               "simple" 3 0 0.5 None
               [mkCrystal {| center := [1; 1]; strength := 1;
                             emotional_charge := None;
                             absorbed_particles := [3%nat];
                             nucleus_label := "Kraft" |}
                          "fragment" 1 0 0.5 None []]].
Proof.
  assert (imap (parent_of sample_family) sample_family
          = [None; Some 0%nat]) as Hparents.
  { unfold sample_family. cbn [imap]. unfold parent_of.
    cbn [element_count length seq zip zip_with foldl compose].
    rewrite decide_True by lia. rewrite decide_False by lia.
    unfold best_parent_body at 2.
    rewrite (bool_decide_eq_false_2 (1%nat = 0%nat)) by done.
    rewrite bool_decide_eq_false_2 by (simpl; lia). cbn [orb nucleus center].
    rewrite similarity_self_bipolar
      by (repeat constructor; unfold bipolar; simpl; lra || lia).
    rewrite decide_True by lra. reflexivity. }
  unfold _recursive_nest.
  rewrite decide_False by (simpl; lia). cbv zeta.
  rewrite Hparents. reflexivity.
Qed.

(** ** A cache with two symbols *)

Lemma sample_cb2_wf : codebook_wf Sample.cb2 Sample.h2.
Proof.
  split; [simpl; lia|]. intros s l. unfold Sample.cb2. simpl.
  rewrite lookup_insert_Some, lookup_singleton_Some.
  intros [[<- <-]|[_ [<- <-]]]; eexists; (split; [reflexivity|]);
    (split; [reflexivity|]); repeat constructor; unfold bipolar; lra.
Defined.




(** ** The claims on the sample inputs *)

Lemma sample_cb_reachable :
  codebook_reachable Sample.sha Sample.draws Sample.cb Sample.h.
Proof.
  apply (reachable_encode Sample.sha Sample.draws
           {| dim := 2; seed := 42; _memory := ∅ |} Sample.cb "Mut" 0 []
           Sample.h).
  - by apply (reachable_init Sample.sha Sample.draws 2 42).
  - reflexivity.
Defined.

Lemma pipeline_freezes_every_particle_witness :
  nucleate Sample.mixed_field Sample.cb 0.25
  = Ok ([mixed_nucleus], mixed_field_nucleated) ∧
  frozen (mixed_field_nucleated !!! 1%nat) = false ∧
  crystallize Sample.uniform Rminus 20 mixed_field_nucleated [mixed_nucleus]
              Sample.cb 0.05 0.01 4
  = Some ([mixed_crystal], mixed_field_frozen) ∧
  length mixed_field_frozen = length Sample.mixed_field ∧
  Forall (λ p, frozen p = true) mixed_field_frozen.
Proof.
  destruct (pipeline_freezes_every_particle Sample.uniform Rminus 1
              Sample.mixed_field Sample.cb 0.25)
    as (nuclei & f1 & Hnuc & _ & _ & Hfrozen).
  { repeat constructor. }
  rewrite nucleate_mixed in Hnuc. injection Hnuc as <- <-.
  split; [exact nucleate_mixed|]. split; [reflexivity|].
  split; [exact crystallize_mixed|].
  destruct (Hfrozen _ _ _ _ _ _ crystallize_mixed) as (Hlen & Hall & _).
  split; [exact Hlen|]. apply Hall. discriminate.
Defined.

(** C1, as the claim states it, fails: on the field of one free particle at
    a faint position, with the default peak distance, [nucleate] finds no
    nucleus, [crystallize] returns at once, and the particle is still
    free.  And on a field whose positions differ in length [nucleate]
    raises. *)
Lemma pipeline_leaves_faint_particle_free :
  nucleate Sample.faint_field Sample.cb 0.25 = Ok ([], Sample.faint_field) ∧
  crystallize Sample.uniform Rminus 20 Sample.faint_field [] Sample.cb
              0.05 0.01 4
  = Some ([], Sample.faint_field) ∧
  frozen (Sample.faint_field !!! 0%nat) = false ∧
  nucleate Sample.ragged_field Sample.cb 0.25 = Raise ValueError.
Proof.
  split; [exact nucleate_faint|]. split; [reflexivity|].
  split; reflexivity.
Defined.

Lemma encode_twice_identical_witness :
  ∃ l cb1 h1 v,
    encode Sample.sha Sample.draws Sample.cb "Kraft" Sample.h
    = Ok (l, cb1, h1) ∧
    encode Sample.sha Sample.draws cb1 "Kraft" h1 = Ok (l, cb1, h1) ∧
    h1 !! l = Some v ∧ Forall bipolar v.
Proof.
  apply (encode_twice_identical Sample.sha Sample.draws Sample.cb "Kraft"
           Sample.h).
  exact sample_cb_reachable.
Defined.

Lemma bind_self_inverse_witness :
  similarity (bind (bind [1; -1; 1] [-1; -1; 1]) [-1; -1; 1]) [1; -1; 1]
  > 0.99.
Proof.
  apply (bind_self_inverse [1; -1; 1] [-1; -1; 1]).
  - repeat constructor; unfold bipolar; lra.
  - repeat constructor; unfold bipolar; lra.
  - reflexivity.
  - simpl. lia.
Defined.

Lemma bundle_closer_to_majority_witness :
  (∃ r g', bundle Sample.draws [[1; 1]; [1; 1]; [1; -1]]
                  (RandomState_seeded 0) = Ok (r, g') ∧
           similarity r [1; 1] > similarity r [1; -1]) ∧
  (∀ vecs : list ndarray,
     Forall (hdv 2) vecs →
     (length vecs < 2 * length (filter (λ u, u = [1%R; 1%R]) vecs))%nat →
     ∃ r g', bundle Sample.draws vecs (RandomState_seeded 0) = Ok (r, g') ∧
             similarity r [1; 1] > similarity r [1; -1]).
Proof.
  apply (bundle_closer_to_majority Sample.draws 2 [1; 1] [1; -1]
           (RandomState_seeded 0)).
  - split; [reflexivity|]. repeat constructor; unfold bipolar; lra.
  - split; [reflexivity|]. repeat constructor; unfold bipolar; lra.
  - intros [= Heq]. lra.
Defined.

(** The peaks of the sample field, from its similarity matrix and its
    densities. *)
Definition sample_peaks : list DensityPeak :=
  greedy_peaks Sample.field (free_particles Sample.field)
               [[1; 0]; [0; 1]] [1; 1] 0.3.

Lemma compute_density_partitions_free_witness :
  (∀ positions,
     np_stack ((λ p, position (Sample.field !!! p))
                 <$> free_particles Sample.field) = Ok positions →
     [[1; 0]; [0; 1]] = sim_matrix positions →
     [1; 1] = densities_of [[1; 0]; [0; 1]]
                ((λ p, charge (Sample.field !!! p))
                   <$> free_particles Sample.field) →
     compute_density Sample.field 0.3 = Ok sample_peaks) ∧
  concat (contributing_particles <$> sample_peaks)
  ≡ₚ free_particles Sample.field ∧
  (∀ p, p ∈ free_particles Sample.field →
        ∃ k peak, sample_peaks !! k = Some peak ∧
                  p ∈ contributing_particles peak ∧
                  ∀ k' peak', sample_peaks !! k' = Some peak' →
                              p ∈ contributing_particles peak' → k' = k) ∧
  (∀ p peak, p ∈ frozen_particles Sample.field → peak ∈ sample_peaks →
             p ∉ contributing_particles peak).
Proof.
  apply (compute_density_partitions_free Sample.field 0.3
           [[1; 0]; [0; 1]] [1; 1]).
  intros [|[|i]] d; simpl; intros [= <-] _; lra.
Defined.

(** C5, as the claim states it, fails: the field of one free particle at a
    faint position has a free particle, and with the peak distance 0.3
    [compute_density] returns no peak at all. *)
Lemma compute_density_drops_faint_seed :
  free_particles Sample.faint_field = [0%nat] ∧
  compute_density Sample.faint_field 0.3 = Ok [].
Proof. split; [reflexivity|]. apply compute_density_faint. lra. Defined.

(** C7, as the claim states it, fails: a codebook of dimension 2 encodes
    ["Mut"]; the caller overwrites the array it was handed with zeros; the
    next [encode("Mut")] returns that same array, now all zeros, and not
    the vector of the first call. *)
Lemma encode_result_is_not_isolated :
  ∃ cb0 l cb1 h1,
    Codebook_init 2 42 = Ok cb0 ∧
    encode Sample.sha Sample.draws cb0 "Mut" [] = Ok (l, cb1, h1) ∧
    h1 !! l = Some [1; -1] ∧
    encode Sample.sha Sample.draws cb1 "Mut" (<[l := [0; 0]]> h1)
    = Ok (l, cb1, <[l := [0; 0]]> h1) ∧
    <[l := [0; 0]]> h1 !! l = Some [0; 0] ∧
    [0; 0] ≠ [1; -1].
Proof.
  eexists _, 0%nat, _, _. split; [reflexivity|].
  split; [reflexivity|]. split; [reflexivity|].
  split; [apply encode_cached; apply lookup_insert_eq|].
  split; [reflexivity|]. intros [= Heq]. lra.
Defined.

Lemma encode_returns_cached_array_witness :
  ∃ l cb1 h1,
    encode Sample.sha Sample.draws Sample.cb "Mut" Sample.h
    = Ok (l, cb1, h1) ∧
    encode Sample.sha Sample.draws cb1 "Mut" (<[l := [0; 0]]> h1)
    = Ok (l, cb1, <[l := [0; 0]]> h1) ∧
    <[l := [0; 0]]> h1 !! l = Some [0; 0].
Proof.
  apply (encode_returns_cached_array Sample.sha Sample.draws Sample.cb "Mut"
           Sample.h [0; 0]).
  exact sample_cb_reachable.
Defined.


Lemma decompose_similar_to_base_witness :
  ∃ l cb' h' base ps,
    encode Sample.sha Sample.draws Sample.cb "Mut" Sample.h
    = Ok (l, cb', h') ∧
    h' !! l = Some base ∧
    decompose Sample.sha Sample.pyhash Sample.draws Sample.cb "Mut" 3
              Sample.h = Ok (ps, cb', h') ∧
    Z.of_nat (length ps) = 3%Z ∧
    Forall (λ p, similarity p base > 0.3) ps.
Proof.
  apply (decompose_similar_to_base Sample.sha Sample.pyhash Sample.draws
           Sample.cb "Mut" 3 Sample.h).
  - exact sample_cb_reachable.
  - simpl. lia.
  - lia.
Defined.



(** ** The further properties at concrete inputs *)

Lemma sample_cb_wf : codebook_wf Sample.cb Sample.h.
Proof.
  apply (codebook_reachable_wf Sample.sha Sample.draws), sample_cb_reachable.
Defined.

Lemma permute_preserves_similarity_witness :
  similarity (permute [1; -1; 1] 1) (permute [1; 1; -1] 1)
  = similarity [1; -1; 1] [1; 1; -1].
Proof.
  apply (permute_preserves_similarity [1; -1; 1] [1; 1; -1] 1). reflexivity.
Defined.

Lemma bind_preserves_similarity_witness :
  similarity (bind [1; 1] [1; -1]) (bind [-1; 1] [1; -1])
  = similarity [1; 1] [-1; 1].
Proof.
  apply (bind_preserves_similarity [1; 1] [-1; 1] [1; -1]).
  - repeat constructor; unfold bipolar; lra.
  - reflexivity.
  - reflexivity.
Defined.

Lemma similarity_symmetric_witness :
  similarity [1; 1] [1; -1] = similarity [1; -1] [1; 1] ∧
  (norm [1; 1] = 0 ∨ norm [1; -1] = 0 → similarity [1; 1] [1; -1] = 0) ∧
  (0 < similarity [1; 1] [1; -1] → 0 < dot [1; 1] [1; -1]) ∧
  (similarity [1; 1] [1; -1] < 0 → dot [1; 1] [1; -1] < 0).
Proof. apply (similarity_symmetric [1; 1] [1; -1]). reflexivity. Defined.

Lemma cleanup_recovers_cached_vector_witness :
  ∃ l', _memory Sample.cb2
          !! (cleanup Sample.cb2 Sample.h2 (Sample.h2 !!! 1%nat)).1
        = Some l' ∧
        Sample.h2 !!! l' = Sample.h2 !!! 1%nat ∧
        (cleanup Sample.cb2 Sample.h2 (Sample.h2 !!! 1%nat)).2
        = similarity (Sample.h2 !!! 1%nat) (Sample.h2 !!! 1%nat).
Proof.
  apply (cleanup_recovers_cached_vector Sample.cb2 Sample.h2 "Kraft" 1).
  - exact sample_cb2_wf.
  - reflexivity.
  - reflexivity.
Defined.



Lemma encode_keeps_cached_vectors_witness :
  _memory {| dim := 2; seed := 42;
             _memory := <["Kraft" := 1%nat]> (_memory Sample.cb) |} !! "Mut"
  = Some 0%nat ∧
  (Sample.h ++ [[1; -1]]) !! 0%nat = Sample.h !! 0%nat ∧
  (length Sample.h <= length (Sample.h ++ [[1%R; (-1)%R]]))%nat.
Proof.
  apply (encode_keeps_cached_vectors Sample.sha Sample.draws Sample.cb
           {| dim := 2; seed := 42;
              _memory := <["Kraft" := 1%nat]> (_memory Sample.cb) |}
           Sample.h (Sample.h ++ [[1; -1]]) "Mut" "Kraft" 0 1).
  - exact sample_cb_wf.
  - reflexivity.
  - reflexivity.
Defined.

Lemma known_symbols_in_insertion_order_witness :
  memory_items Sample.cb2 = memory_items Sample.cb ++ [("Kraft", 1%nat)] ∧
  known_symbols Sample.cb2 = known_symbols Sample.cb ++ ["Kraft"].
Proof.
  apply (known_symbols_in_insertion_order Sample.sha Sample.draws
           Sample.cb Sample.cb2 Sample.h (Sample.h ++ [[1; -1]]) "Kraft" 1).
  - exact sample_cb_reachable.
  - reflexivity.
  - reflexivity.
Defined.

Lemma encode_phrase_dimension_witness :
  ∃ v cb' h' g',
    encode_phrase Sample.sha Sample.draws Sample.strip Sample.split
                  Sample.lower Sample.cb "Mut" Sample.h (RandomState_seeded 0)
    = Ok (v, cb', h', g') ∧
    length v = Z.to_nat (dim Sample.cb) ∧ codebook_wf cb' h' ∧
    match Sample.split (Sample.strip "Mut") with
    | [] => v = replicate (Z.to_nat (dim Sample.cb)) 0 ∧
            (∀ u, similarity v u = 0) ∧ cb' = Sample.cb ∧ h' = Sample.h ∧
            g' = RandomState_seeded 0
    | _ :: _ => Forall bipolar v
    end.
Proof.
  apply (encode_phrase_dimension Sample.sha Sample.draws Sample.strip
           Sample.split Sample.lower Sample.cb "Mut" Sample.h
           (RandomState_seeded 0)).
  exact sample_cb_wf.
Defined.

Lemma encode_phrase_single_word_witness :
  ∃ l cb' h',
    encode Sample.sha Sample.draws Sample.cb (Sample.lower "Mut") Sample.h
    = Ok (l, cb', h') ∧
    encode_phrase Sample.sha Sample.draws Sample.strip Sample.split
                  Sample.lower Sample.cb "Mut" Sample.h (RandomState_seeded 0)
    = Ok (h' !!! l, cb', h', RandomState_seeded 0).
Proof.
  apply (encode_phrase_single_word Sample.sha Sample.draws Sample.strip
           Sample.split Sample.lower Sample.cb "Mut" "Mut" Sample.h
           (RandomState_seeded 0)).
  - exact sample_cb_wf.
  - reflexivity.
Defined.

(** The nuclei and the field that [nucleate] leaves for [Sample.field], and
    the crystals that [crystallize] builds from them. *)
Definition sample_nuclei : list CrystalNucleus :=
  [{| center := [1; 1]; strength := 1; emotional_charge := None;
      absorbed_particles := [0%nat]; nucleus_label := "Mut" |};
   {| center := [1; -1]; strength := 1; emotional_charge := None;
      absorbed_particles := [1%nat]; nucleus_label := "Angst" |}].

Definition sample_frozen_field : ParticleField :=
  [Sample.particle [1; 1] "Mut#0" true;
   Sample.particle [1; -1] "Angst#0" true;
   Sample.particle [-1; -1] "Kraft#0" true].

Definition sample_crystals : list Crystal :=
  [{| nucleus :=
        {| center := [1; 1]; strength := 1; emotional_charge := None;
           absorbed_particles := [0%nat]; nucleus_label := "Mut" |};
      shape := "fragment"; element_count := 1;
      crystal_emotional_charge := 0;
      crystal_residual_temperature := np_mean [0.5];
      contrast_partner := None; children := [] |};
   {| nucleus :=
        {| center := [1; -1]; strength := 1; emotional_charge := None;
           absorbed_particles := [1%nat]; nucleus_label := "Angst" |};
      shape := "fragment"; element_count := 1;
      crystal_emotional_charge := 0;
      crystal_residual_temperature := np_mean [0.5];
      contrast_partner := None; children := [] |}].

Lemma sample_nucleate :
  nucleate Sample.field Sample.cb 0.25
  = Ok (sample_nuclei, sample_frozen_field).
Proof. apply nucleate_sample; lra. Qed.

Lemma sample_crystallize :
  crystallize Sample.uniform Rminus 20 sample_frozen_field sample_nuclei Sample.cb
              0.05 0.01 4
  = Some (sample_crystals, sample_frozen_field).
Proof. apply crystallize_sample. Qed.

(** ** The force merge on the sample nuclei *)

(** With a cap of one, the first of the two sample nuclei, the weakest by
    the order of the list, is merged into the second, which scores 0.1. *)
Example force_merge_sample :
  ∃ center',
    _force_merge_small 1 sample_nuclei
    = [{| center := center'; strength := 1 + 1 * 0.5;
          emotional_charge := None; absorbed_particles := [1; 0]%nat;
          nucleus_label := "Angst+Mut" |}].
Proof.
  eexists. rewrite _force_merge_small_eq. unfold force_merge_step.
  rewrite decide_True by (simpl; lia).
  unfold first_min_index, sample_nuclei. cbn [first_min_from strength].
  rewrite (decide_False (P := 1 < 1)) by lra.
  cbn [lookup list_lookup length seq zip zip_with foldl best_target_body].
  rewrite decide_True by done. cbn [best_target_body].
  rewrite decide_False by done. cbn [center strength].
  rewrite similarity_sample_orthogonal.
  rewrite decide_True by lra.
  rewrite _force_merge_small_eq. unfold force_merge_step.
  rewrite decide_False by (simpl; lia).
  reflexivity.
Qed.

(** Two nuclei of strength 0 with opposite centres: the only candidate
    scores -1, which does not beat the initial score, so no target is found
    and both nuclei stay although the cap is one. *)
Example force_merge_without_target :
  _force_merge_small 1
    [{| center := [1]; strength := 0; emotional_charge := None;
        absorbed_particles := [0%nat]; nucleus_label := "Mut" |};
     {| center := [-1]; strength := 0; emotional_charge := None;
        absorbed_particles := [1%nat]; nucleus_label := "Angst" |}]
  = [{| center := [1]; strength := 0; emotional_charge := None;
        absorbed_particles := [0%nat]; nucleus_label := "Mut" |};
     {| center := [-1]; strength := 0; emotional_charge := None;
        absorbed_particles := [1%nat]; nucleus_label := "Angst" |}].
Proof.
  rewrite _force_merge_small_eq. unfold force_merge_step.
  rewrite decide_True by (simpl; lia).
  unfold first_min_index. cbn [first_min_from strength].
  rewrite (decide_False (P := 0 < 0)) by lra.
  cbn [lookup list_lookup length seq zip zip_with foldl best_target_body].
  rewrite decide_True by done. cbn [best_target_body].
  rewrite decide_False by done. cbn [center strength].
  assert (similarity [1] [-1] = -1) as ->.
  { unfold similarity. cbv zeta.
    assert (norm [-1] = 1) as ->.
    { unfold norm, dot, Rsum. cbn [zip_with foldr].
      replace (-1 * -1 + 0) with 1 by lra. apply sqrt_1. }
    rewrite norm_1. rewrite decide_False by lra.
    unfold dot, Rsum. cbn [zip_with foldr]. lra. }
  rewrite decide_False by lra. reflexivity.
Qed.

(** [crystallize] with a cap of one on the two sample nuclei: the force
    merge leaves one nucleus, which becomes the only crystal. *)
Example crystallize_sample_capped :
  ∃ crystal,
    crystallize Sample.uniform Rminus 20 sample_frozen_field sample_nuclei
                Sample.cb 0.05 0.01 1
    = Some ([crystal], sample_frozen_field) ∧
    absorbed_particles (nucleus crystal) = [1; 0]%nat.
Proof.
  destruct force_merge_sample as [center' Hfm].
  eexists. unfold crystallize, sample_nuclei.
  rewrite _merge_nearby_nuclei_cons. cbn [merge_scan center fst snd].
  rewrite similarity_sample_orthogonal.
  rewrite (decide_False (P := 0.15 <= 0)) by lra. cbn [fst snd merge_scan].
  rewrite _merge_nearby_nuclei_cons. cbn [merge_scan fst snd].
  rewrite _merge_nearby_nuclei_equation_1.
  rewrite cooling_loop_all_frozen by (by repeat constructor).
  cbn [mbind option_bind]. unfold residual_pass.
  change (free_particles _) with (@nil nat). cbn [foldl].
  fold sample_nuclei. rewrite Hfm.
  rewrite !filter_cons, filter_nil. rewrite !decide_True by done.
  split; reflexivity.
Qed.



Lemma compute_density_peaks_disjoint_witness :
  NoDup (concat (contributing_particles
                   <$> [{| peak_position := [1; 1]; density := 1;
                           contributing_particles := [0%nat] |};
                        {| peak_position := [1; -1]; density := 1;
                           contributing_particles := [1%nat] |}])) ∧
  (∀ p, p ∈ concat (contributing_particles
                      <$> [{| peak_position := [1; 1]; density := 1;
                              contributing_particles := [0%nat] |};
                           {| peak_position := [1; -1]; density := 1;
                              contributing_particles := [1%nat] |}]) →
        p ∈ free_particles Sample.field) ∧
  Forall (λ peak, contributing_particles peak ≠ [])
         [{| peak_position := [1; 1]; density := 1;
             contributing_particles := [0%nat] |};
          {| peak_position := [1; -1]; density := 1;
             contributing_particles := [1%nat] |}].
Proof.
  apply (compute_density_peaks_disjoint Sample.field 0.25).
  apply compute_density_sample; lra.
Defined.

Lemma nucleate_ordered_by_strength_witness :
  StronglySorted (λ a b, strength b <= strength a) sample_nuclei ∧
  Forall (λ nucleus, absorbed_particles nucleus ≠ []) sample_nuclei.
Proof.
  apply (nucleate_ordered_by_strength Sample.field sample_frozen_field
           Sample.cb 0.25 sample_nuclei).
  exact sample_nucleate.
Defined.

Lemma nucleate_freezes_what_it_absorbs_witness :
  only_freezes Sample.field sample_frozen_field ∧
  NoDup (absorbed_all sample_nuclei) ∧
  (∀ p, p ∈ absorbed_all sample_nuclei → p ∈ free_particles Sample.field) ∧
  (∀ i, frozen (sample_frozen_field !!! i) = true ↔
        frozen (Sample.field !!! i) = true ∨ i ∈ absorbed_all sample_nuclei).
Proof.
  apply (nucleate_freezes_what_it_absorbs Sample.field sample_frozen_field
           Sample.cb 0.25 sample_nuclei).
  exact sample_nucleate.
Defined.

Lemma compute_attraction_nonnegative_witness :
  Rmax 0 (similarity [1; 1] (position (Sample.field !!! 0%nat)))
  <= _compute_attraction Sample.field
       {| center := [1; 1]; strength := 1; emotional_charge := None;
          absorbed_particles := [0%nat]; nucleus_label := "Mut" |} 0 ∧
  (_compute_attraction Sample.field
     {| center := [1; 1]; strength := 1; emotional_charge := None;
        absorbed_particles := [0%nat]; nucleus_label := "Mut" |} 0 = 0 ↔
   similarity [1; 1] (position (Sample.field !!! 0%nat)) <= 0).
Proof.
  apply (compute_attraction_nonnegative Sample.field
           {| center := [1; 1]; strength := 1; emotional_charge := None;
              absorbed_particles := [0%nat]; nucleus_label := "Mut" |} 0).
  unfold total_charge. simpl. lra.
Defined.

Lemma force_merge_small_count_witness :
  (Nat.min (length sample_nuclei) (Nat.max 1 (Z.to_nat 1))
   <= length (_force_merge_small 1 sample_nuclei)
   <= length sample_nuclei)%nat ∧
  ((Z.of_nat (length (_force_merge_small 1 sample_nuclei)) <= 1)%Z
   ∨ no_merge_target (_force_merge_small 1 sample_nuclei)).
Proof.
  apply (force_merge_small_count 1 sample_nuclei). discriminate.
Defined.

Lemma crystallize_only_freezes_witness :
  only_freezes mixed_field_nucleated mixed_field_frozen ∧
  ([mixed_nucleus] ≠ [] → all_frozen mixed_field_frozen).
Proof.
  apply (crystallize_only_freezes Sample.uniform Rminus 20
           mixed_field_nucleated mixed_field_frozen [mixed_nucleus] Sample.cb
           0.05 0.01 4 [mixed_crystal]).
  exact crystallize_mixed.
Defined.

Lemma crystallize_ordered_by_strength_witness :
  StronglySorted (λ a b, strength (nucleus b) <= strength (nucleus a))
                 sample_crystals.
Proof.
  apply (crystallize_ordered_by_strength Sample.uniform Rminus 20
           sample_frozen_field sample_frozen_field sample_nuclei Sample.cb
           0.05 0.01 4 sample_crystals).
  exact sample_crystallize.
Defined.

(** A crystal of three concepts and one of four, far from each other. *)
Definition sample_pair : list Crystal :=
  [mkCrystal {| center := [1; 1]; strength := 2; emotional_charge := None;
                absorbed_particles := [0; 1; 2]%nat;
                nucleus_label := "Mut" |}
             "simple" 3 0 0.5 None [];
   mkCrystal {| center := [1; -1]; strength := 1; emotional_charge := None;
                absorbed_particles := [3; 4; 5; 6]%nat;
                nucleus_label := "Angst" |}
             "simple" 4 0 0.5 None []].

Lemma sample_pair_shapes :
  _detect_shapes sample_pair !! 0%nat
  = Some (mkCrystal {| center := [1; 1]; strength := 2;
                       emotional_charge := None;
                       absorbed_particles := [0; 1; 2]%nat;
                       nucleus_label := "Mut" |}
                    "contrast" 3 0 0.5 (Some 1%nat) []).
Proof.
  unfold _detect_shapes, sample_pair. cbn [imap lookup list_lookup].
  rewrite decide_False by (simpl; lia).
  cbn [length seq zip zip_with find contrasts bool_decide decide_rel
       Nat.eq_dec nat_rec nat_rect negb andb nucleus center
       crystal_emotional_charge].
  rewrite similarity_self_bipolar
    by (repeat constructor; unfold bipolar; simpl; lra || lia).
  rewrite (bool_decide_eq_false_2 (1 < 0.05)) by lra.
  rewrite Rminus_diag, Rabs_R0.
  rewrite (bool_decide_eq_false_2 (0.3 < 0)) by lra.
  rewrite similarity_sample_orthogonal.
  rewrite (bool_decide_eq_true_2 (0 < 0.05)) by lra.
  reflexivity.
Qed.

Lemma detect_shapes_assigns_shape_witness :
  ∃ c c',
    sample_pair !! 0%nat = Some c ∧
    _detect_shapes sample_pair !! 0%nat = Some c' ∧
    nucleus c' = nucleus c ∧ element_count c' = element_count c ∧
    crystal_emotional_charge c' = crystal_emotional_charge c ∧
    crystal_residual_temperature c' = crystal_residual_temperature c ∧
    children c' = children c ∧
    (shape c' = "fragment" ∨ shape c' = "contrast" ∨ shape c' = "parallel"
     ∨ shape c' = "simple") ∧
    ((element_count c <= 1)%nat → shape c' = "fragment") ∧
    (shape c' ≠ "contrast" → contrast_partner c' = contrast_partner c) ∧
    (shape c' = "contrast" →
     ∃ j other,
       contrast_partner c' = Some j ∧ j ≠ 0%nat ∧
       sample_pair !! j = Some other ∧
       (similarity (center (nucleus c)) (center (nucleus other)) < 0.05
        ∨ 0.3 < Rabs (crystal_emotional_charge c
                       - crystal_emotional_charge other))).
Proof.
  eexists _, _. split; [reflexivity|]. split; [exact sample_pair_shapes|].
  apply (detect_shapes_assigns_shape sample_pair 0).
  - reflexivity.
  - exact sample_pair_shapes.
Defined.

Lemma recursive_nest_conserves_witness :
  crystal_particles (_recursive_nest sample_family)
  ≡ₚ crystal_particles sample_family ∧
  Forall (λ c,
            Forall (λ child,
                      child ∈ sample_family ∧
                      (element_count child <= 2)%nat ∧
                      (3 <= element_count c)%nat ∧
                      0.25 < similarity (center (nucleus child))
                                        (center (nucleus c)))
                   (children c))
         (_recursive_nest sample_family).
Proof.
  apply (recursive_nest_conserves sample_family).
  repeat constructor.
Defined.

Lemma crystallize_conserves_particles_witness :
  crystal_particles sample_crystals
  ≡ₚ absorbed_all sample_nuclei ++ free_particles sample_frozen_field.
Proof.
  apply (crystallize_conserves_particles Sample.uniform Rminus 20
           sample_frozen_field sample_frozen_field sample_nuclei Sample.cb
           0.05 0.01 4 sample_crystals).
  - discriminate.
  - exact sample_crystallize.
Defined.

Lemma pipeline_partitions_free_particles_witness :
  crystal_particles sample_crystals ≡ₚ free_particles Sample.field ∧
  NoDup (crystal_particles sample_crystals).
Proof.
  apply (pipeline_partitions_free_particles Sample.uniform Rminus Sample.field
           sample_frozen_field sample_frozen_field Sample.cb 0.25 0.05 0.01 4
           20 sample_nuclei sample_crystals).
  - exact sample_nucleate.
  - discriminate.
  - exact sample_crystallize.
Defined.

Lemma create_plasma_positions_bipolar_witness :
  ∃ field cb' h',
    create_plasma Sample.sha Sample.pyhash Sample.draws Sample.strip
                  Sample.split Sample.lower "mut" "angst" "" "" Sample.cb None
                  Sample.h
    = Ok (field, cb', h') ∧
    Forall (λ p, hdv (Z.to_nat (dim Sample.cb)) (position p)
                 ∧ frozen p = false) field ∧
    dim cb' = dim Sample.cb ∧ codebook_wf cb' h'.
Proof.
  apply (create_plasma_positions_bipolar Sample.sha Sample.pyhash
           Sample.draws Sample.strip Sample.split Sample.lower
           "mut" "angst" "" "" Sample.cb None Sample.h).
  exact sample_cb_wf.
Defined.

Lemma plasma_crystallizes_completely_witness :
  ∃ field cb' h',
    create_plasma Sample.sha Sample.pyhash Sample.draws Sample.strip
                  Sample.split Sample.lower "mut" "angst" "" "" Sample.cb None
                  Sample.h
    = Ok (field, cb', h') ∧
    ∀ min_density_distance : R,
      ∃ nuclei f1,
        nucleate field cb' min_density_distance = Ok (nuclei, f1) ∧
        (∀ (fuel : nat) (cooling_rate min_temperature : R)
           (max_crystals : Z) (delta : R),
           0 < delta →
           (∀ t, min_temperature < t → t <= 1.0 →
                 t - cooling_rate <= t - delta) →
           1.0 - INR fuel * delta <= min_temperature →
           ∃ crystals f2,
             crystallize Sample.uniform Rminus fuel f1 nuclei cb'
                         cooling_rate min_temperature max_crystals
             = Some (crystals, f2)) ∧
        (∀ (fuel : nat) (cooling_rate min_temperature : R)
           (max_crystals : Z) (crystals : list Crystal) (f2 : ParticleField),
           crystallize Sample.uniform Rminus fuel f1 nuclei cb'
                       cooling_rate min_temperature max_crystals
           = Some (crystals, f2) →
           length f2 = length field ∧
           (nuclei ≠ [] →
            all_frozen f2 ∧
            crystal_particles crystals ≡ₚ seq 0 (length field)) ∧
           (nuclei = [] → crystals = [] ∧ f2 = field)).
Proof.
  apply (plasma_crystallizes_completely Sample.sha Sample.pyhash
           Sample.draws Sample.uniform Rminus Sample.strip Sample.split
           Sample.lower "mut" "angst" "" "" Sample.cb None Sample.h).
  exact sample_cb_wf.
Defined.

Lemma crystallize_crystal_count_witness :
  ∃ crystal,
    crystallize Sample.uniform Rminus 20 sample_frozen_field sample_nuclei
                Sample.cb 0.05 0.01 1
    = Some ([crystal], sample_frozen_field) ∧
    (length [crystal] <= length sample_nuclei)%nat ∧
    (sample_nuclei ≠ [] →
     absorbed_all sample_nuclei ++ free_particles sample_frozen_field ≠ [] →
     [crystal] ≠ []).
Proof.
  destruct crystallize_sample_capped as [crystal [Hrun _]].
  exists crystal. split; [exact Hrun|].
  apply (crystallize_crystal_count Sample.uniform Rminus 20
           sample_frozen_field sample_frozen_field sample_nuclei Sample.cb
           0.05 0.01 1 [crystal]).
  exact Hrun.
Defined.
